(** * pydop feature-model engine: a shallow embedding of [pydop/fm_diagram.py]

    The development follows the layout of the Python module: the sentinel
    and the Python values the engine manipulates, the declaration-error
    accumulator, the reason trees, path utilities, constraint expressions,
    attribute domains, feature diagrams with their lookup pass, the
    evaluator and the product normaliser.  Python exceptions are modelled by
    the [res] monad, dictionaries by [gmap] (or by the list of their items
    where the iteration order is observable), object identity by explicit
    identifiers. *)

From Stdlib Require Import ZArith Floats Ascii.
From Stdlib Require QArith Qpower.
From stdpp Require Import base option list strings pretty gmap fin_maps.

Set Warnings "-register-all,-clear-no-such-hyp".
Open Scope Z_scope.

(** ** Exceptions *)

Inductive exn := AttributeError | TypeError | IndexError | ValueError.

Inductive res (A : Type) : Type :=
  | Ok (a : A)
  | Raise (e : exn).
Arguments Ok {A} a.
Arguments Raise {A} e.

#[global] Instance res_ret : MRet res := fun A a => Ok a.
#[global] Instance res_bind : MBind res := fun A B f m =>
  match m with
  | Ok a => f a
  | Raise e => Raise e
  end.
#[global] Instance res_fmap : FMap res := fun A B f m =>
  match m with
  | Ok a => Ok (f a)
  | Raise e => Raise e
  end.

Definition is_Ok {A} (m : res A) : bool :=
  match m with Ok _ => true | Raise _ => false end.

(** ** Python values

    [VEmpty] is the module-level sentinel [_empty__]; the other constructors
    are the Python values that products, literals and expectations carry.
    An enumeration member is identified by its class and its name. *)

Inductive value :=
  | VEmpty
  | VNone
  | VBool (b : bool)
  | VInt (z : Z)
  | VFloat (f : float)
  | VStr (s : string)
  | VEnum (cls member : string).

Inductive pyclass := CBool | CInt | CFloat | CStr | CNoneType | CEnum (cls : string).

#[global] Instance pyclass_eq_dec : EqDecision pyclass.
Proof. solve_decision. Defined.

(** [isinstance(v, c)]: [bool] is a subclass of [int]. *)
Definition isinstance (v : value) (c : pyclass) : bool :=
  match v, c with
  | VBool _, (CBool | CInt) => true
  | VInt _, CInt => true
  | VFloat _, CFloat => true
  | VStr _, CStr => true
  | VNone, CNoneType => true
  | VEnum cls _, CEnum cls' => bool_decide (cls = cls')
  | _, _ => false
  end.

(** Truth value of an object ([bool(v)]): the sentinel class defines neither
    [__bool__] nor [__len__], hence is true. *)
Definition truthy (v : value) : bool :=
  match v with
  | VEmpty => true
  | VNone => false
  | VBool b => b
  | VInt z => negb (z =? 0)
  | VFloat f => negb (PrimFloat.eqb f 0%float)
  | VStr s => negb (String.eqb s "")
  | VEnum _ _ => true
  end.

(** Numbers: [int]-like values are compared as integers, a float with an
    integer by its exact value. *)
Definition as_int (v : value) : option Z :=
  match v with
  | VBool b => Some (if b then 1 else 0)
  | VInt z => Some z
  | _ => None
  end.

Definition float_cmp_Z (f : float) (z : Z) : option comparison :=
  match Prim2SF f with
  | S754_zero _ => Some (0 ?= z)
  | S754_infinity false => Some Gt
  | S754_infinity true => Some Lt
  | S754_nan => None
  | S754_finite s m e =>
      let sm := if s then Z.neg m else Z.pos m in
      Some (if 0 <=? e then (sm * 2 ^ e ?= z) else (sm ?= z * 2 ^ (- e)))
  end.

Definition float_cmp (f g : float) : option comparison :=
  match PrimFloat.compare f g with
  | FEq => Some Eq
  | FLt => Some Lt
  | FGt => Some Gt
  | FNotComparable => None
  end.

(** Three-way comparison of two values when Python orders them:
    [Ok None] is the unordered case (a NaN operand), [Raise TypeError] an
    unsupported pair of operand types. *)
Definition py_cmp (a b : value) : res (option comparison) :=
  match a, b with
  | VStr s, VStr t => Ok (Some (String.compare s t))
  | VFloat f, VFloat g => Ok (float_cmp f g)
  | VFloat f, _ =>
      match as_int b with
      | Some z => Ok (float_cmp_Z f z)
      | None => Raise TypeError
      end
  | _, VFloat g =>
      match as_int a with
      | Some z => Ok (CompOpp <$> float_cmp_Z g z)
      | None => Raise TypeError
      end
  | _, _ =>
      match as_int a, as_int b with
      | Some x, Some y => Ok (Some (x ?= y))
      | _, _ => Raise TypeError
      end
  end.

Definition cmp_is (p : comparison → bool) (c : res (option comparison)) : res bool :=
  o ← c; mret (from_option p false o).

Definition py_lt (a b : value) : res bool :=
  cmp_is (fun c => match c with Lt => true | _ => false end) (py_cmp a b).
Definition py_le (a b : value) : res bool :=
  cmp_is (fun c => match c with Gt => false | _ => true end) (py_cmp a b).
Definition py_gt (a b : value) : res bool :=
  cmp_is (fun c => match c with Gt => true | _ => false end) (py_cmp a b).
Definition py_ge (a b : value) : res bool :=
  cmp_is (fun c => match c with Lt => false | _ => true end) (py_cmp a b).

(** [a == b]: never raises; objects of unrelated types are different. *)
Definition py_eq (a b : value) : bool :=
  match a, b with
  | VEmpty, VEmpty => true
  | VNone, VNone => true
  | VStr s, VStr t => String.eqb s t
  | VEnum c m, VEnum c' m' => String.eqb c c' && String.eqb m m'
  | (VBool _ | VInt _ | VFloat _), (VBool _ | VInt _ | VFloat _) =>
      match py_cmp a b with
      | Ok (Some Eq) => true
      | _ => false
      end
  | _, _ => false
  end.

(** [v is True], [v is False], [v is None]. *)
Definition is_True (v : value) : bool :=
  match v with VBool true => true | _ => false end.
Definition is_False (v : value) : bool :=
  match v with VBool false => true | _ => false end.
Definition is_None (v : value) : bool :=
  match v with VNone => true | _ => false end.
Definition is_empty (v : value) : bool :=
  match v with VEmpty => true | _ => false end.

(** ** Dictionary keys

    A product or a lookup table is keyed by a textual path, by a feature
    node (object identity, here the node's identifier), by an attribute
    definition (the tuple of its name and its specification object, the
    latter compared by identity) or, after a failed resolution, by a tuple
    of path segments. *)

Inductive key :=
  | KStr (s : string)
  | KNode (id : nat)
  | KAttr (name : string) (spec_id : nat)
  | KPath (p : list string).

#[global] Instance key_eq_dec : EqDecision key.
Proof. solve_decision. Defined.

#[global] Instance key_countable : Countable key.
Proof.
  refine (inj_countable'
    (fun k => match k with
              | KStr s => inl (inl s)
              | KNode i => inl (inr i)
              | KAttr n i => inr (inl (n, i))
              | KPath p => inr (inr p)
              end)
    (fun c => match c with
              | inl (inl s) => KStr s
              | inl (inr i) => KNode i
              | inr (inl (n, i)) => KAttr n i
              | inr (inr p) => KPath p
              end) _).
  by intros [].
Defined.

Abbreviation path_t := (list string).

(** ** Error reporting, 1: feature model naming consistency *)

Inductive decl_entry :=
  | _unbound__c (m_name : string) (m_path : option path_t)
  | _ambiguous__c (m_name : string) (m_path : option path_t) (m_paths : list path_t).

Definition is_ambiguous_entry (e : decl_entry) : bool :=
  match e with _ambiguous__c _ _ _ => true | _ => false end.

Record _decl_errors__c := mk_decl_errors {
  m_unbounds : list decl_entry;
  m_ambiguities : list decl_entry
}.

Module DeclErrors.

Definition init : _decl_errors__c :=
  {| m_unbounds := []; m_ambiguities := [] |}.

Definition add_unbound (self : _decl_errors__c) (name : string) (path : option path_t)
  : _decl_errors__c :=
  {| m_unbounds := m_unbounds self ++ [_unbound__c name path];
     m_ambiguities := m_ambiguities self |}.

Definition add_ambiguous (self : _decl_errors__c) (name : string) (path : option path_t)
  (paths : list path_t) : _decl_errors__c :=
  {| m_unbounds := m_unbounds self ++ [_ambiguous__c name path paths];
     m_ambiguities := m_ambiguities self |}.

Definition unbounds (self : _decl_errors__c) := m_unbounds self.
Definition ambiguities (self : _decl_errors__c) := m_ambiguities self.

(** [bool(l)] of a list. *)
Definition nonempty {A} (l : list A) : bool :=
  match l with [] => false | _ => true end.

Definition has_unbounds (self : _decl_errors__c) : bool := nonempty (m_unbounds self).
Definition has_ambiguities (self : _decl_errors__c) : bool := nonempty (m_ambiguities self).

Definition __bool__ (self : _decl_errors__c) : bool :=
  nonempty (m_unbounds self) || nonempty (m_ambiguities self).


End DeclErrors.

(** ** Paths and partial paths *)

Fixpoint _path_includes__ (p p_included : path_t) : bool :=
  match p_included with
  | [] => true
  | y :: ys =>
      match p with
      | [] => false
      | x :: xs =>
          if String.eqb x y then _path_includes__ xs ys
          else _path_includes__ xs p_included
      end
  end.

Definition _path_to_str__ (p : option path_t) : string :=
  match p with
  | None => "None"
  | Some p => String.concat "/" p
  end.

(** [s.split(sep)] for a one-character separator. *)
Fixpoint split_on (sep : Ascii.ascii) (s : string) : list string :=
  match s with
  | EmptyString => [EmptyString]
  | String c s' =>
      if Ascii.eqb c sep then EmptyString :: split_on sep s'
      else match split_on sep s' with
           | w :: ws => String c w :: ws
           | [] => [String c EmptyString]
           end
  end.

Definition _path_from_str__ (s : string) : path_t := split_on "/"%char s.

(** [l[-1]] and [l[0:-1]]. *)
Definition last_item {A} (l : list A) : res A :=
  match last l with
  | Some x => Ok x
  | None => Raise IndexError
  end.
Definition but_last {A} (l : list A) : list A := removelast l.

(** The lookup table of a root: for each declared name, the declared
    elements bearing it with their paths, in declaration order. *)
Abbreviation lookup_t := (gmap string (list (key * path_t))).

(** [path_s] is the content of a [Var]: only a string has a [split]
    method. *)
Definition _path_check_exists__ (path_s : key) (mapping : lookup_t)
    (errors : _decl_errors__c) (additional_path : path_t)
  : res (key * _decl_errors__c) :=
  match path_s with
  | KStr path_s =>
      let path := _path_from_str__ path_s in
      name ← last_item path;
      let path := additional_path ++ but_last path in
      match mapping !! name with
      | None => Ok (KPath path, DeclErrors.add_unbound errors name None)
      | Some decls =>
          let refs := filter (fun el => Is_true (_path_includes__ el.2 path)) decls in
          match refs with
          | [] => Ok (KPath path,
                      DeclErrors.add_unbound errors path_s (Some additional_path))
          | [el] => Ok (el.1, errors)
          | _ => Ok (KPath path,
                     DeclErrors.add_ambiguous errors path_s None (refs.*2))
          end
      end
  | _ => Raise AttributeError
  end.

(** ** Constraint expressions (syntax)

    [_expbool__c] and its subclasses: the class of a composite node is its
    [expkind], its [m_content] the tuple of its children.  The constructor
    normalises every parameter to an expression ([_manage_parameter__]), so a
    child is always an expression.  [Var] holds a string until the
    declaration check replaces it. *)

Module K.
Inductive expkind :=
  | Lt | Leq | Eq | Geq | Gt
  | And | Or | Not | Xor | Conflict | Implies | Iff.
End K.
Export K (expkind).

Inductive expr :=
  | Var (m_content : key)
  | Lit (m_content : value)
  | Op (cls : expkind) (m_content : list expr).

Definition get_name (cls : expkind) : string :=
  match cls with
  | K.Lt => "Lt" | K.Leq => "Leq" | K.Eq => "Eq" | K.Geq => "Geq" | K.Gt => "Gt"
  | K.And => "And" | K.Or => "Or" | K.Not => "Not" | K.Xor => "Xor"
  | K.Conflict => "Conflict" | K.Implies => "Implies" | K.Iff => "Iff"
  end.

(** A parameter of a constructor: an expression, a string or another
    object. *)
Inductive param := PExp (e : expr) | PStr (s : string) | PObj (v : value).

Definition _manage_parameter__ (p : param) : expr :=
  match p with
  | PExp e => e
  | PStr s => Var (KStr s)
  | PObj v => Lit v
  end.

(** The constructors, with the arity each class fixes. *)
Definition _expbool__c_init (cls : expkind) (content : list param) : expr :=
  Op cls (_manage_parameter__ <$> content).

Definition Lt (left right : param) := _expbool__c_init K.Lt [left; right].
Definition Leq (left right : param) := _expbool__c_init K.Leq [left; right].
Definition Eq_ (left right : param) := _expbool__c_init K.Eq [left; right].
Definition Geq (left right : param) := _expbool__c_init K.Geq [left; right].
Definition Gt_ (left right : param) := _expbool__c_init K.Gt [left; right].
Definition And (args : list param) := _expbool__c_init K.And args.
Definition Or (args : list param) := _expbool__c_init K.Or args.
Definition Not (arg : param) := _expbool__c_init K.Not [arg].
Definition Xor (args : list param) := _expbool__c_init K.Xor args.
Definition Conflict (args : list param) := _expbool__c_init K.Conflict args.
Definition Implies (left right : param) := _expbool__c_init K.Implies [left; right].
Definition Iff (left right : param) := _expbool__c_init K.Iff [left; right].

(** ** Error reporting, 2: constraint and feature model evaluation

    A reference stored in a reason is a class name, a dictionary key (a
    node, an attribute definition, the content of a [Var]) or an expression
    object.  The value stored by a value mismatch is the object the caller
    passes: a value, or the evaluation result of a sub-expression. *)

Inductive ref :=
  | RefName (s : string)
  | RefKey (k : key)
  | RefExpr (e : expr).

Inductive _reason_tree__c :=
  | ReasonTree (m_ref : ref) (m_local : list reason_local)
               (m_subs : list _reason_tree__c) (m_count : nat)
with reason_local :=
  | _reason_value_mismatch__c (m_ref : ref) (m_val : reason_val) (m_expected : value)
  | _reason_value_none__c (m_ref : ref)
  | _reason_dependencies__c (m_ref : ref) (m_deps : list ref)
with reason_val :=
  | of_value (v : value)
  | of_result (m_value : value) (m_reason : option _reason_tree__c).

Record _eval_result__c := mk_eval_result {
  m_value : value;
  m_reason : option _reason_tree__c
}.

Record _eval_result_fd__c := mk_eval_result_fd {
  fd_value : value;
  fd_reason : option _reason_tree__c;
  m_nvalue : value;
  m_snodes : list nat
}.

Module ReasonTree.

Definition m_local (t : _reason_tree__c) := let 'ReasonTree _ l _ _ := t in l.
Definition m_subs (t : _reason_tree__c) := let 'ReasonTree _ _ s _ := t in s.
Definition m_count (t : _reason_tree__c) := let 'ReasonTree _ _ _ c := t in c.
Definition m_ref (t : _reason_tree__c) := let 'ReasonTree r _ _ _ := t in r.

(** [_reason_tree__c(name, idx)]: the name is never [None] at the call
    sites of this module, so the index is unused. *)
Definition init (name : ref) (idx : option nat) : _reason_tree__c :=
  ReasonTree name [] [] 0.

Definition add_local (t : _reason_tree__c) (r : reason_local) : _reason_tree__c :=
  let 'ReasonTree n l s c := t in ReasonTree n (l ++ [r]) s (S c).

Definition add_reason_value_mismatch (t : _reason_tree__c) (r : ref)
    (val : reason_val) (expected : value) :=
  add_local t (_reason_value_mismatch__c r val expected).
Definition add_reason_value_none (t : _reason_tree__c) (r : ref) :=
  add_local t (_reason_value_none__c r).
Definition add_reason_dependencies (t : _reason_tree__c) (r : ref) (deps : list ref) :=
  add_local t (_reason_dependencies__c r deps).

Definition __bool__ (t : _reason_tree__c) : bool := negb (Nat.eqb (m_count t) 0).

(** Truth value of the [m_reason] field of a result: [None] is false. *)
Definition truthy (r : option _reason_tree__c) : bool :=
  match r with
  | None => false
  | Some t => __bool__ t
  end.

(** [add_reason_sub(sub)], given the [m_reason] of the result [sub]. *)
Definition add_reason_sub (t : _reason_tree__c) (sub : option _reason_tree__c) :=
  match sub with
  | Some r =>
      if __bool__ r
      then let 'ReasonTree n l s c := t in ReasonTree n l (s ++ [r]) (S c)
      else t
  | None => t
  end.

(** [update_ref] rewrites the tree in place.  A result stored by a
    value mismatch shares its reason with [m_subs] when that reason is
    true (see [add_reason_sub]), and only then is it rewritten too. *)
Fixpoint update_ref (updater : ref → ref) (t : _reason_tree__c) : _reason_tree__c :=
  let 'ReasonTree n l s c := t in
  ReasonTree (updater n) (update_local updater <$> l) (update_ref updater <$> s) c
with update_local (updater : ref → ref) (r : reason_local) : reason_local :=
  match r with
  | _reason_value_mismatch__c r v e =>
      _reason_value_mismatch__c (updater r) (update_val updater v) e
  | _reason_value_none__c r => _reason_value_none__c (updater r)
  | _reason_dependencies__c r deps => _reason_dependencies__c (updater r) (updater <$> deps)
  end
with update_val (updater : ref → ref) (v : reason_val) : reason_val :=
  match v with
  | of_result v (Some t) =>
      of_result v (Some (if __bool__ t then update_ref updater t else t))
  | _ => v
  end.

Definition is_value_mismatch (r : reason_local) : bool :=
  match r with _reason_value_mismatch__c _ _ _ => true | _ => false end.

End ReasonTree.

(** ** Constraint expressions (evaluation) *)

Abbreviation product_t := (gmap key value).

(** [product.get(k, default)]. *)
Definition dict_get {K V} `{Countable K} (d : gmap K V) (k : K) (default : V) : V :=
  match d !! k with
  | Some v => v
  | None => default
  end.

(** [values[i]]. *)
Definition item {A} (l : list A) (i : nat) : res A :=
  match l !! i with
  | Some x => Ok x
  | None => Raise IndexError
  end.

Fixpoint Xor_loop (res : bool) (values : list value) : bool :=
  match values with
  | [] => res
  | element :: values =>
      if truthy element then (if res then false else Xor_loop true values)
      else Xor_loop res values
  end.

Fixpoint Conflict_loop (res : bool) (values : list value) : bool :=
  match values with
  | [] => true
  | element :: values =>
      if truthy element then (if res then false else Conflict_loop true values)
      else Conflict_loop res values
  end.

Definition _compute__ (cls : expkind) (values : list value) : res value :=
  match cls with
  | K.Lt => a ← item values 0; b ← item values 1; VBool <$> py_lt a b
  | K.Leq => a ← item values 0; b ← item values 1; VBool <$> py_le a b
  | K.Eq => a ← item values 0; b ← item values 1; mret (VBool (py_eq a b))
  | K.Geq => a ← item values 0; b ← item values 1; VBool <$> py_ge a b
  | K.Gt => a ← item values 0; b ← item values 1; VBool <$> py_gt a b
  | K.And => mret (VBool (forallb truthy values))
  | K.Or => mret (VBool (existsb truthy values))
  | K.Not => a ← item values 0; mret (VBool (negb (truthy a)))
  | K.Xor => mret (VBool (Xor_loop false values))
  | K.Conflict => mret (VBool (Conflict_loop false values))
  | K.Implies => a ← item values 0; if negb (truthy a) then mret (VBool true) else item values 1
  | K.Iff => a ← item values 0; b ← item values 1; mret (VBool (py_eq a b))
  end.

Definition _get_expected__ (cls : expkind) (expected : value) : value :=
  match cls with
  | K.And => if is_True expected then VBool true else VNone
  | K.Or => if negb (is_False expected) then VNone else VBool false
  | K.Not =>
      if is_True expected then VBool false
      else if is_False expected then VBool true
      else VNone
  | _ => VNone
  end.

(** [tuple(f(i, el) for i, el in enumerate(l))] for an [f] that may raise. *)
Definition enum_mapM {A B} (f : nat → A → res B) : nat → list A → res (list B) :=
  fix go (i : nat) (l : list A) : res (list B) :=
    match l with
    | [] => Ok []
    | el :: l => r ← f i el; rs ← go (S i) l; mret (r :: rs)
    end.

(** The same for an [f] that threads a state (the tables a traversal
    fills). *)
Definition enum_mapM_st {A B T} (f : nat → A → T → res (B * T))
  : nat → list A → T → res (list B * T) :=
  fix go (i : nat) (l : list A) (s : T) : res (list B * T) :=
    match l with
    | [] => Ok ([], s)
    | el :: l =>
        '(r, s) ← f i el s;
        '(rs, s) ← go (S i) l s;
        Ok (r :: rs, s)
    end.

(** The concatenation of the lists [f(i, el)] over [enumerate(l)]. *)
Definition enum_bind {A B} (f : nat → A → list B) : nat → list A → list B :=
  fix go (i : nat) (l : list A) : list B :=
    match l with
    | [] => []
    | el :: l => f i el ++ go (S i) l
    end.

(** [for a, b in zip(l1, l2): s = f(a, b, s)]. *)
Definition fold_zip {A B T} (f : A → B → T → T) : list A → list B → T → T :=
  fix go (l1 : list A) (l2 : list B) (s : T) : T :=
    match l1, l2 with
    | a :: l1, b :: l2 => go l1 l2 (f a b s)
    | _, _ => s
    end.

(** The reason a composite node builds when its value is not the expected
    one. *)
Definition mismatch_reason (cls : expkind) (idx : option nat) (expected : value)
    (content : list expr) (results : list _eval_result__c) : _reason_tree__c :=
  let reason := ReasonTree.init (RefName (get_name cls)) idx in
  let reason :=
    foldl (fun reason '(el, r) =>
             ReasonTree.add_reason_value_mismatch reason (RefExpr el)
               (of_result (m_value r) (m_reason r)) (_get_expected__ cls expected))
          reason (zip content results) in
  foldl (fun reason r => ReasonTree.add_reason_sub reason (m_reason r)) reason results.

(** [__call__] of [_expbool__c], [Var] and [Lit]. *)
Fixpoint call (e : expr) (product : product_t) (idx : option nat) (expected : value)
  : res _eval_result__c :=
  match e with
  | Var content =>
      let res := dict_get product content VEmpty in
      if is_empty res
      then
        let reason := ReasonTree.init (RefName "Var") idx in
        let reason := ReasonTree.add_reason_value_none reason (RefKey content) in
        Ok (mk_eval_result res (Some reason))
      else Ok (mk_eval_result res None)
  | Lit content => Ok (mk_eval_result content None)
  | Op cls content =>
      results ← enum_mapM
        (fun i el => call el product (Some i) (_get_expected__ cls expected)) 0%nat content;
      let values := m_value <$> results in
      res ← _compute__ cls values;
      if py_eq res expected
      then Ok (mk_eval_result res None)
      else Ok (mk_eval_result res (Some (mismatch_reason cls idx expected content results)))
  end.

(** ** Reference semantics of constraints

    The reduction the specification describes, written over typed values
    rather than Python objects.  A constraint denotes a truth value; the
    operands of a relational operator are the values Python compares:
    numbers (Booleans counting as 0 and 1, integers, floats), strings,
    and for equality also enumeration members and [None].  Numbers are
    compared as the rationals (or infinities) they stand for, whatever
    their representation; a NaN is no number, so it is neither less
    than nor equal to anything.  [denote] is undefined where the
    specification says nothing: a variable the product does not define,
    a child of the wrong sort (a non-Boolean child of a connective, an
    order between values Python does not order) or a wrong number of
    children. *)

Module Semantics.

Inductive sval :=
  | SBool (b : bool)
  | SInt (z : Z)
  | SFloat (f : float)
  | SStr (s : string)
  | SEnum (cls member : string)
  | SNone.

Definition of_value (v : value) : option sval :=
  match v with
  | VBool b => Some (SBool b)
  | VInt z => Some (SInt z)
  | VFloat f => Some (SFloat f)
  | VStr s => Some (SStr s)
  | VEnum cls member => Some (SEnum cls member)
  | VNone => Some SNone
  | VEmpty => None
  end.

Definition to_value (v : sval) : value :=
  match v with
  | SBool b => VBool b
  | SInt z => VInt z
  | SFloat f => VFloat f
  | SStr s => VStr s
  | SEnum cls member => VEnum cls member
  | SNone => VNone
  end.

Definition as_bool (v : sval) : option bool :=
  match v with SBool b => Some b | _ => None end.

(** Number of true children. *)
Definition count_true (bs : list bool) : nat := length (filter Is_true bs).

(** What a numeric value stands for: a rational, an infinity, or (NaN)
    no number. *)
Inductive number := NaN | NegInf | Fin (q : QArith_base.Q) | PosInf.

(** The rational [m * 2 ^ e]. *)
Definition dyadic (m e : Z) : QArith_base.Q :=
  QArith_base.Qmult (QArith_base.inject_Z m)
    (QArith_base.Qpower (QArith_base.inject_Z 2) e).

Definition of_float (f : float) : number :=
  match Prim2SF f with
  | S754_zero _ => Fin (QArith_base.inject_Z 0)
  | S754_infinity s => if s then NegInf else PosInf
  | S754_nan => NaN
  | S754_finite s m e => Fin (dyadic (if s then Z.neg m else Z.pos m) e)
  end.

Definition number_of (v : sval) : option number :=
  match v with
  | SBool b => Some (Fin (QArith_base.inject_Z (if b then 1 else 0)))
  | SInt z => Some (Fin (QArith_base.inject_Z z))
  | SFloat f => Some (of_float f)
  | _ => None
  end.

(** [x < y] and [x = y] on numbers. *)
Definition less (x y : number) : bool :=
  match x, y with
  | NaN, _ | _, NaN => false
  | _, NegInf => false
  | NegInf, _ => true
  | PosInf, _ => false
  | _, PosInf => true
  | Fin p, Fin q => negb (QArith_base.Qle_bool q p)
  end.

Definition same (x y : number) : bool :=
  match x, y with
  | NegInf, NegInf | PosInf, PosInf => true
  | Fin p, Fin q => QArith_base.Qeq_bool p q
  | _, _ => false
  end.

(** [a < b]: between two numbers or two strings. *)
Definition less_than (a b : sval) : option bool :=
  match number_of a, number_of b with
  | Some x, Some y => Some (less x y)
  | _, _ =>
      match a, b with
      | SStr s, SStr t => Some (String.ltb s t)
      | _, _ => None
      end
  end.

(** [a = b]: between any two values, those of different sorts being
    different. *)
Definition equal (a b : sval) : bool :=
  match number_of a, number_of b with
  | Some x, Some y => same x y
  | _, _ =>
      match a, b with
      | SStr s, SStr t => String.eqb s t
      | SEnum c m, SEnum c' m' => String.eqb c c' && String.eqb m m'
      | SNone, SNone => true
      | _, _ => false
      end
  end.

Definition at_most (a b : sval) : option bool :=
  l ← less_than a b; Some (l || equal a b).

Definition relational (f : sval → sval → option bool) (vs : list sval)
  : option sval :=
  match vs with
  | [a; b] => SBool <$> f a b
  | _ => None
  end.

Definition logical2 (f : bool → bool → bool) (vs : list sval) : option sval :=
  match vs with
  | [SBool a; SBool b] => Some (SBool (f a b))
  | _ => None
  end.

Definition reduce (cls : expkind) (vs : list sval) : option sval :=
  match cls with
  | K.Lt => relational less_than vs
  | K.Leq => relational at_most vs
  | K.Eq => relational (fun a b => Some (equal a b)) vs
  | K.Geq => relational (fun a b => at_most b a) vs
  | K.Gt => relational (fun a b => less_than b a) vs
  | K.And => bs ← mapM as_bool vs; Some (SBool (forallb id bs))
  | K.Or => bs ← mapM as_bool vs; Some (SBool (existsb id bs))
  | K.Not => match vs with [SBool a] => Some (SBool (negb a)) | _ => None end
  | K.Xor => bs ← mapM as_bool vs; Some (SBool (Nat.eqb (count_true bs) 1))
  | K.Conflict => bs ← mapM as_bool vs; Some (SBool (Nat.leb (count_true bs) 1))
  | K.Implies => logical2 (fun a b => negb a || b) vs
  | K.Iff => logical2 Bool.eqb vs
  end.

Fixpoint denote (product : product_t) (e : expr) : option sval :=
  match e with
  | Var k => v ← product !! k; of_value v
  | Lit v => of_value v
  | Op cls content => vs ← mapM (denote product) content; reduce cls vs
  end.

End Semantics.

(** [o] is the outcome of comparing the number [x] with the number [y]:
    an order when both are comparable, nothing when they are not. *)
Definition agrees (o : option comparison) (x y : Semantics.number) : Prop :=
  Semantics.less x y = from_option (fun c => match c with Datatypes.Lt => true | _ => false end) false o ∧
  Semantics.less y x = from_option (fun c => match c with Gt => true | _ => false end) false o ∧
  Semantics.same x y = from_option (fun c => match c with Eq => true | _ => false end) false o.

(** ** Attribute specification, 1: domains

    A domain is a list of intervals, an interval a pair of bounds
    ([int], [float] or [None], an absent bound being infinite). *)

Abbreviation interval := (value * value)%type.

(** An argument of a domain constructor: a plain object or a tuple. *)
Inductive spec_arg := AVal (v : value) | ATuple (l : list value).

Definition _is_valid_bound (v : value) : bool :=
  isinstance v CInt || isinstance v CFloat || isinstance v CNoneType.

Definition valid_bound_arg (a : spec_arg) : bool :=
  match a with AVal v => _is_valid_bound v | ATuple _ => false end.

(** [arg + 1] for a number. *)
Definition plus_one (v : value) : value :=
  match v with
  | VFloat f => VFloat (f + 1)%float
  | _ => VInt (default 0 (as_int v) + 1)
  end.

Definition _add_domain_spec (l : list interval) (spec : list spec_arg)
  : res (list interval) :=
  let spec :=
    match spec with
    | [AVal a; AVal b] =>
        if _is_valid_bound a && _is_valid_bound b then [ATuple [a; b]] else spec
    | _ => spec
    end in
  foldl (fun l arg =>
           l ← l;
           match arg with
           | AVal v =>
               if isinstance v CFloat || isinstance v CInt
               then Ok (l ++ [(v, plus_one v)])
               else Raise ValueError
           | ATuple [a; b] =>
               if _is_valid_bound a && _is_valid_bound b
               then Ok (l ++ [(a, b)])
               else Raise ValueError
           | ATuple _ => Raise ValueError
           end) (Ok l) spec.

Definition _check_interval (i : interval) (v : value) : res bool :=
  below ← (if negb (is_None i.1) then py_lt v i.1 else Ok false);
  if (below : bool) then Ok false
  else
    above ← (if negb (is_None i.2) then py_ge v i.2 else Ok false);
    if (above : bool) then Ok false else Ok true.

Fixpoint _check_domain_loop (domain : list interval) (v : value) : res bool :=
  match domain with
  | [] => Ok false
  | i :: domain =>
      b ← _check_interval i v;
      if (b : bool) then Ok true else _check_domain_loop domain v
  end.

Definition _check_domain (domain : list interval) (v : value) : res bool :=
  if DeclErrors.nonempty domain then _check_domain_loop domain v else Ok true.

(** ** Attribute specification, 2: attribute specifications

    [Bool], [String] and [Enum] only differ from [Class] by their
    constructor. *)

Inductive attr_spec :=
  | Class (m_class : pyclass)
  | Int (m_domain : list interval)
  | Float (m_domain : list interval).

Definition Bool : attr_spec := Class CBool.
Definition String_ : attr_spec := Class CStr.
Definition Enum (domain : pyclass) : res attr_spec :=
  match domain with
  | CEnum _ => Ok (Class domain)
  | _ => Raise ValueError
  end.
Definition Int_init (args : list spec_arg) : res attr_spec :=
  Int <$> _add_domain_spec [] args.
Definition Float_init (args : list spec_arg) : res attr_spec :=
  Float <$> _add_domain_spec [] args.

(** [spec(value)]. *)
Definition spec_call (spec : attr_spec) (v : value) : res bool :=
  match spec with
  | Class c => Ok (isinstance v c)
  | Int domain => if isinstance v CInt then _check_domain domain v else Ok false
  | Float domain => if isinstance v CFloat then _check_domain domain v else Ok false
  end.

(** An interval with integer or absent bounds, and its meaning. *)
Abbreviation zinterval := (option Z * option Z)%type.

Definition bound_value (b : option Z) : value :=
  match b with Some z => VInt z | None => VNone end.
Definition interval_of (i : zinterval) : interval := (bound_value i.1, bound_value i.2).

Definition lies_in (z : Z) (i : zinterval) : Prop :=
  match i.1 with Some lo => lo ≤ z | None => True end ∧
  match i.2 with Some hi => z < hi | None => True end.

#[global] Instance lies_in_dec z i : Decision (lies_in z i).
Proof. destruct i as [[lo|] [hi|]]; unfold lies_in; cbn; apply _. Defined.

(** ** Feature diagrams, generalised as groups

    A node of a feature diagram: its class ([FDAnd], [FDAny], [FDOr] or
    [FDXor]), its identity [self], its optional name, its children, the
    cross-tree constraints and the attributes put at its level.  An
    attribute definition is the tuple of a name and a specification
    object. *)

Inductive fd_kind := FDAnd | FDAny | FDOr | FDXor.

Record spec_obj := mk_spec { spec_id : nat; spec_of : attr_spec }.

Abbreviation att_def := (string * spec_obj)%type.

Definition att_key (att : att_def) : key := KAttr att.1 (spec_id att.2).

Inductive _fd__c :=
  | FDNode (cls : fd_kind) (self : nat) (m_name : option string)
           (m_content : list _fd__c) (m_ctcs : list expr)
           (m_attributes : list att_def).

Definition fd_cls (f : _fd__c) := let 'FDNode c _ _ _ _ _ := f in c.
Definition fd_self (f : _fd__c) := let 'FDNode _ i _ _ _ _ := f in i.
Definition name (f : _fd__c) := let 'FDNode _ _ n _ _ _ := f in n.
Definition children (f : _fd__c) := let 'FDNode _ _ _ c _ _ := f in c.
Definition cross_tree_constraints (f : _fd__c) := let 'FDNode _ _ _ _ c _ := f in c.
Definition attributes (f : _fd__c) := let 'FDNode _ _ _ _ _ a := f in a.
Definition has_attributes (f : _fd__c) : bool := negb (Nat.eqb (length (attributes f)) 0).
Definition is_leaf (f : _fd__c) : bool := Nat.eqb (length (children f)) 0.

Definition node_key (f : _fd__c) : key := KNode (fd_self f).

(** The positional arguments of a constructor. *)
Inductive fd_arg :=
  | FStr (s : string)
  | FSub (f : _fd__c)
  | FExp (e : expr)
  | FOther.

Definition _manage_constructor_args__ (args : list fd_arg) (kwargs : list att_def)
  : res (option string * list _fd__c * list expr * list att_def) :=
  let '(name, args) :=
    match args with
    | FStr s :: args => (Some s, args)
    | _ => (None, args)
    end in
  '(content, ctcs) ←
    foldl (fun acc el =>
             '(content, ctcs) ← acc;
             match el with
             | FSub f => Ok (content ++ [f], ctcs)
             | FExp e => Ok (content, ctcs ++ [e])
             | _ => Raise ValueError
             end) (Ok ([], [])) args;
  Ok (name, content, ctcs, kwargs).

(** The constructor of a class, creating the object [self] from its
    positional and keyword arguments. *)
Definition _fd__c_init (cls : fd_kind) (self : nat) (args : list fd_arg)
    (kwargs : list att_def) : res _fd__c :=
  '(name, content, ctcs, attributes) ← _manage_constructor_args__ args kwargs;
  Ok (FDNode cls self name content ctcs attributes).

(** The root-only state: the normalisation hook and what [generate_lookup]
    derives. *)
Abbreviation dom_t := (gmap key string).
Abbreviation partial_t := (list (key * value)).

Record fm_t := mk_fm {
  fm_root : _fd__c;
  m_norm : option (partial_t → partial_t);
  m_lookup : option lookup_t;
  m_dom : option dom_t;
  m_errors : option _decl_errors__c
}.

(** *** Lookup generation *)

Fixpoint _check_declarations__ (e : expr) (path : path_t) (mapping : lookup_t)
    (errors : _decl_errors__c) : res (expr * _decl_errors__c) :=
  match e with
  | Var content =>
      '(content, errors) ← _path_check_exists__ content mapping errors path;
      Ok (Var content, errors)
  | Lit content => Ok (Lit content, errors)
  | Op cls content =>
      '(content, errors) ←
        enum_mapM_st (fun _ sub errors => _check_declarations__ sub path mapping errors)
          0%nat content errors;
      Ok (Op cls content, errors)
  end.

Definition _check_duplicate__ (el : key) (name : string) (path : path_t)
    (res : lookup_t) (errors : _decl_errors__c) : lookup_t * _decl_errors__c :=
  match res !! name with
  | Some tmp =>
      let others := (filter (fun o => Is_true (_path_includes__ path o.2)) tmp).*2 in
      let errors :=
        if DeclErrors.nonempty others
        then DeclErrors.add_ambiguous errors name (Some path) others
        else errors in
      (<[name := tmp ++ [(el, path)]]> res, errors)
  | None => (<[name := [(el, path)]]> res, errors)
  end.

(** The three tables the traversal fills. *)
Abbreviation tables := (lookup_t * dom_t * _decl_errors__c)%type.

(** The constraints of a node, checked in order. *)
Definition check_ctcs (ctcs : list expr) (path : path_t) (mapping : lookup_t)
    (errors : _decl_errors__c) : res (list expr * _decl_errors__c) :=
  enum_mapM_st (fun _ ctc errors => _check_declarations__ ctc path mapping errors)
    0%nat ctcs errors.

Definition add_attribute (local_path : path_t) (t : tables) (att : att_def) : tables :=
  let '(lookup, dom, errors) := t in
  let '(lookup, errors) := _check_duplicate__ (att_key att) att.1 local_path lookup errors in
  (lookup, <[att_key att := _path_to_str__ (Some (local_path ++ [att.1]))]> dom, errors).

(** [path_to_self] is the path of the parent: the segment pushed on entry
    is popped on exit. *)
Fixpoint _generate_lookup_rec__ (f : _fd__c) (path_to_self : path_t) (idx : nat)
    (t : tables) : res (_fd__c * tables) :=
  let 'FDNode cls self m_name m_content m_ctcs m_attributes := f in
  let local_path :=
    path_to_self ++ [match m_name with None => pretty idx | Some n => n end] in
  (* 1. the local name *)
  let t :=
    match m_name with
    | Some n =>
        let '(lookup, dom, errors) := t in
        let '(lookup, errors) := _check_duplicate__ (KNode self) n local_path lookup errors in
        (lookup, <[KNode self := _path_to_str__ (Some local_path)]> dom, errors)
    | None => t
    end in
  (* 2. the subs *)
  '(m_content, t) ←
    enum_mapM_st (fun i sub t => _generate_lookup_rec__ sub local_path i t)
      0%nat m_content t;
  (* 3. the attributes *)
  let '(lookup, dom, errors) := foldl (add_attribute local_path) t m_attributes in
  (* 4. the constraints *)
  '(m_ctcs, errors) ← check_ctcs m_ctcs local_path lookup errors;
  Ok (FDNode cls self m_name m_content m_ctcs m_attributes, (lookup, dom, errors)).

Definition fm_init (root : _fd__c) (norm : option (partial_t → partial_t)) : fm_t :=
  {| fm_root := root; m_norm := norm; m_lookup := None; m_dom := None; m_errors := None |}.

Definition set_product_normalization (fm : fm_t) (f : partial_t → partial_t) : fm_t :=
  {| fm_root := fm_root fm; m_norm := Some f; m_lookup := m_lookup fm;
     m_dom := m_dom fm; m_errors := m_errors fm |}.

Definition clean (fm : fm_t) : fm_t :=
  {| fm_root := fm_root fm; m_norm := m_norm fm;
     m_lookup := None; m_dom := None; m_errors := None |}.

(** [generate_lookup] returns the errors and leaves the tables, and the
    rewritten constraints, in the model.  A model whose tables are present
    is returned as it is. *)
Definition generate_lookup (fm : fm_t) : res (fm_t * _decl_errors__c) :=
  match m_lookup fm, m_errors fm with
  | Some _, Some errors => Ok (fm, errors)
  | _, _ =>
      '(root, (lookup, dom, errors)) ←
        _generate_lookup_rec__ (fm_root fm) [] 0 (∅, ∅, DeclErrors.init);
      Ok ({| fm_root := root; m_norm := m_norm fm; m_lookup := Some lookup;
             m_dom := Some dom; m_errors := Some errors |}, errors)
  end.

Definition check (fm : fm_t) : res (fm_t * _decl_errors__c) := generate_lookup fm.

(** *** The declarations of a diagram

    The named elements of a diagram, nodes and attributes, in the order
    the traversal declares them, each with its name, its key and the path
    it is declared under (for an attribute, the path of its node). *)

Abbreviation decl := (string * key * path_t)%type.

Fixpoint declarations (f : _fd__c) (path_to_self : path_t) (idx : nat) : list decl :=
  let 'FDNode _ self m_name m_content _ m_attributes := f in
  let local_path :=
    path_to_self ++ [match m_name with None => pretty idx | Some n => n end] in
  match m_name with
  | Some n => [(n, KNode self, local_path)]
  | None => []
  end
  ++ enum_bind (fun i sub => declarations sub local_path i) 0%nat m_content
  ++ ((fun att : att_def => (att.1, att_key att, local_path)) <$> m_attributes).

(** The declarations of a list that bear a given name. *)
Definition declared_as (n : string) (decls : list decl) : list (key * path_t) :=
  omap (fun d : decl => if decide (d.1.1 = n) then Some (d.1.2, d.2) else None) decls.

(** The entries of a lookup table under a name. *)
Definition prior (lookup : lookup_t) (n : string) : list (key * path_t) :=
  default [] (lookup !! n).

(** The paths of earlier elements the duplicate check reports against a
    path. *)
Definition included_in (path : path_t) (tmp : list (key * path_t)) : list path_t :=
  (filter (fun o => Is_true (_path_includes__ path o.2)) tmp).*2.

(** A diagnostic of the duplicate check: an ambiguity with a context
    path. *)
Definition is_duplicate_entry (e : decl_entry) : bool :=
  match e with
  | _ambiguous__c _ (Some _) _ => true
  | _ => false
  end.

Definition duplicates (errors : _decl_errors__c) : list decl_entry :=
  filter (fun e => Is_true (is_duplicate_entry e)) (m_unbounds errors).

(** The duplicate check run on a declaration, keeping the table and the
    diagnostics. *)
Definition scan_step (st : lookup_t * list decl_entry) (d : decl)
  : lookup_t * list decl_entry :=
  let '(lookup, errors) := _check_duplicate__ d.1.2 d.1.1 d.2 st.1 DeclErrors.init in
  (lookup, st.2 ++ m_unbounds errors).

(** What the duplicate check reads and writes in the tables. *)
Definition watched (t : tables) : lookup_t * list decl_entry :=
  (t.1.1, duplicates t.2).

(** *** Evaluation *)

Definition fd_compute (cls : fd_kind) (values : list value) : bool :=
  match cls with
  | FDAnd => forallb truthy values
  | FDAny => true
  | FDOr => existsb truthy values
  | FDXor => Xor_loop false values
  end.

Definition fd_get_expected (cls : fd_kind) (expected : value) : value :=
  match cls with
  | FDAnd => if truthy expected then VBool true else VNone
  | FDAny => VNone
  | FDOr => if negb (truthy expected) then VBool false else VNone
  | FDXor => VNone
  end.

Definition _manage_attribute__ (self : nat) (att : att_def) (product : product_t)
    (expected : value) : res _eval_result__c :=
  let val := dict_get product (att_key att) VEmpty in
  if is_empty val
  then
    if truthy expected
    then
      let reason := ReasonTree.init (RefKey (KNode self)) (Some 0%nat) in
      let reason := ReasonTree.add_reason_value_none reason (RefKey (att_key att)) in
      Ok (mk_eval_result (VBool false) (Some reason))
    else Ok (mk_eval_result (VBool false) None)
  else
    res ← spec_call (spec_of att.2) val;
    if py_eq expected (VBool res)
    then Ok (mk_eval_result (VBool res) None)
    else
      let reason := ReasonTree.init (RefKey (KNode self)) (Some 0%nat) in
      let reason := ReasonTree.add_reason_value_mismatch reason (RefKey (att_key att))
                      (of_value (VBool res)) expected in
      Ok (mk_eval_result (VBool res) (Some reason)).

(** The consistency of a named node with its content: the local value,
    the reason found and the selected sub-nodes. *)
Definition check_name (self : nat) (product : product_t) (nvalue_sub : bool)
    (snodes : list nat) : value * option _reason_tree__c * list nat :=
  let nvalue_local := dict_get product (KNode self) VEmpty in
  let tree := ReasonTree.init (RefKey (KNode self)) (Some 0%nat) in
  if is_empty nvalue_local
  then (nvalue_local,
        Some (ReasonTree.add_reason_value_none tree (RefKey (KNode self))), snodes)
  else if negb (truthy nvalue_local) && DeclErrors.nonempty snodes
  then (nvalue_local,
        Some (ReasonTree.add_reason_dependencies tree (RefKey (KNode self))
                ((fun n => RefKey (KNode n)) <$> snodes)), snodes)
  else if truthy nvalue_local && negb nvalue_sub
  then (nvalue_local,
        Some (ReasonTree.add_reason_value_mismatch tree (RefKey (KNode self))
                (of_value (VBool true)) (VBool false)), snodes)
  else if truthy nvalue_local
  then (nvalue_local, None, snodes ++ [self])
  else (nvalue_local, None, snodes).

(** The end of [_eval_generic__]: the reason is completed when the local
    value is not the expected one or the verdict is false. *)
Definition is_none {A} (o : option A) : bool :=
  match o with None => true | Some _ => false end.

Definition finish_reason (self : nat) (nvalue_local expected : value) (verdict : bool)
    (reason : option _reason_tree__c) (subs : list (option _reason_tree__c))
  : option _reason_tree__c :=
  if negb (py_eq nvalue_local expected) || negb verdict
  then
    let reason :=
      match reason with
      | None => ReasonTree.init (RefKey (KNode self)) (Some 0%nat)
      | Some reason => reason
      end in
    let reason :=
      if negb (py_eq nvalue_local expected)
      then ReasonTree.add_reason_value_mismatch reason (RefKey (KNode self))
             (of_value nvalue_local) expected
      else reason in
    Some (foldl ReasonTree.add_reason_sub reason subs)
  else reason.

(** [_eval_generic__] with [_f_get_deep__], the only getter [__call__]
    uses. *)
Fixpoint _eval_generic__ (f : _fd__c) (product : product_t) (expected : value)
  : res _eval_result_fd__c :=
  let 'FDNode cls self m_name m_content m_ctcs m_attributes := f in
  let expected_sub := fd_get_expected cls expected in
  results_content ←
    enum_mapM (fun i el => _eval_generic__ el product expected_sub) 0%nat m_content;
  result_att ←
    enum_mapM (fun i el => _manage_attribute__ self el product expected_sub)
      0%nat m_attributes;
  result_ctc ←
    enum_mapM (fun i el => call el product (Some i) expected_sub) 0%nat m_ctcs;
  let nvalue_subs :=
    (m_nvalue <$> results_content) ++ (m_value <$> result_att) ++ (m_value <$> result_ctc) in
  let nvalue_sub := fd_compute cls nvalue_subs in
  let value_subs := forallb (fun el => truthy (fd_value el)) results_content in
  let snodes := results_content ≫= m_snodes in
  let '(nvalue_local, reason, snodes) :=
    match m_name with
    | Some _ => check_name self product nvalue_sub snodes
    | None => (VBool nvalue_sub, None, snodes)
    end in
  let verdict := value_subs && is_none reason in
  let reason :=
    finish_reason self nvalue_local expected verdict reason
      ((fd_reason <$> results_content) ++ (m_reason <$> result_att)
         ++ (m_reason <$> result_ctc)) in
  Ok (mk_eval_result_fd (VBool verdict) reason nvalue_local snodes).

Definition _updater__ (dom : dom_t) (r : ref) : ref :=
  match r with
  | RefKey k =>
      match dom !! k with
      | Some s => RefName s
      | None => r
      end
  | _ => r
  end.

(** [fm(product, expected)]. *)
Definition fm_call (fm : fm_t) (product : product_t) (expected : value)
  : res _eval_result_fd__c :=
  match m_dom fm with
  | None => Raise ValueError
  | Some dom =>
      res ← _eval_generic__ (fm_root fm) product expected;
      match fd_reason res with
      | Some reason =>
          if ReasonTree.__bool__ reason
          then Ok (mk_eval_result_fd (fd_value res)
                     (Some (ReasonTree.update_ref (_updater__ dom) reason))
                     (m_nvalue res) (m_snodes res))
          else Ok res
      | None => Ok res
      end
  end.

(** The relation between the verdict, the local value and the reason of a
    result: the verdict is a Boolean, and the reason is empty exactly when
    the verdict is true and the local value is the expected one. *)
Definition coherent (expected : value) (r : _eval_result_fd__c) : Prop :=
  ∃ b, fd_value r = VBool b ∧
       ReasonTree.truthy (fd_reason r) = negb (b && py_eq (m_nvalue r) expected).

(** *** Example models

    The diagram of the hello-world test, a named leaf, a diagram with a
    cross-tree constraint and one whose name [x] is used in two parallel
    branches. *)

Definition lang_v : att_def := ("lang_v", mk_spec 0 (Class (CEnum "Hello"))).
Definition times_v : att_def := ("times_v", mk_spec 1 (Int [(VInt 0, VNone)])).

Definition hello_world_fm : fm_t :=
  fm_init
    (FDNode FDAnd 0 (Some "HelloWorld")
       [ FDNode FDAnd 1 None [FDNode FDAnd 2 (Some "lang") [] [] [lang_v]] [] [];
         FDNode FDAny 3 None [FDNode FDAnd 4 (Some "times") [] [] [times_v]] [] [] ]
       [] [])
    None.

Definition leaf_fm : fm_t := fm_init (FDNode FDAnd 0 (Some "A") [] [] []) None.

Definition ctc_fm : fm_t :=
  fm_init
    (FDNode FDAnd 0 (Some "A") [FDNode FDAnd 1 (Some "b") [] [] []]
       [Implies (PStr "A") (PStr "b")] [])
    None.


(** The model after a successful [check()] (the model itself if the check
    raises). *)
Definition checked (fm : fm_t) : fm_t :=
  match check fm with
  | Ok (fm, _) => fm
  | Raise _ => fm
  end.

(** The configuration of the hello-world test, keyed by the nodes and
    attribute definitions of the model. *)
Definition conf_1 : product_t :=
  {[ KNode 0 := VBool true; KNode 2 := VBool true;
     att_key lang_v := VEnum "Hello" "english";
     KNode 4 := VBool true; att_key times_v := VInt 2 ]}.

(** *** Product normal form

    [is_true_d] maps a node or an attribute definition to its value and to
    the index of the partial product that gave it ([-1] for a value that
    was inferred from nothing). *)

Abbreviation is_true_t := (gmap key (value * Z)).

(** [_make_product_extract_utils__] with [expected=None]: the value of
    highest index among the elements of the domain. *)
Fixpoint extract_latest (is_true_d : is_true_t) (idx : Z) (val : value)
    (domain : list key) : Z * value :=
  match domain with
  | [] => (idx, val)
  | sub :: domain =>
      match is_true_d !! sub with
      | None => extract_latest is_true_d idx val domain
      | Some v =>
          if idx <? v.2
          then extract_latest is_true_d v.2 v.1 domain
          else extract_latest is_true_d idx val domain
      end
  end.

(** [_make_product_extract_utils__] with an expected value: the values of
    the elements of the domain, and the highest index of an expected one. *)
Fixpoint extract_expected (is_true_d : is_true_t) (expected : value) (idx : Z)
    (domain : list key) : Z * list value :=
  match domain with
  | [] => (idx, [])
  | sub :: domain =>
      match is_true_d !! sub with
      | None =>
          let '(idx, v_subs) := extract_expected is_true_d expected idx domain in
          (idx, VEmpty :: v_subs)
      | Some v =>
          let idx := if py_eq v.1 expected && (idx <? v.2) then v.2 else idx in
          let '(idx, v_subs) := extract_expected is_true_d expected idx domain in
          (idx, v.1 :: v_subs)
      end
  end.

(** [get_default] of [FDAnd._infer_sv__]. *)
Definition get_default (is_true_d : is_true_t) (idx : Z) (val : value) (el : key)
  : value :=
  match is_true_d !! el with
  | None => val
  | Some v => if v.2 <? idx then val else v.1
  end.

(** [(v, i) == (True, idx)]. *)
Definition is_True_at (idx : Z) (v : value * Z) : bool :=
  py_eq v.1 (VBool true) && (v.2 =? idx).

(** The upward rule the three other groups share. *)
Definition infer_local (is_true_d : is_true_t) (self : nat) (idx_subs : Z) : Z * value :=
  let '(v_local, idx_local) := dict_get is_true_d (KNode self) (VBool false, -1) in
  if idx_local <? idx_subs then (idx_subs, VBool true) else (idx_local, v_local).

Definition _infer_sv__ (f : _fd__c) (is_true_d : is_true_t) : Z * value * list value :=
  let 'FDNode cls self _ m_content _ _ := f in
  match cls with
  | FDAnd =>
      let '(idx, val) :=
        extract_latest is_true_d (-1) VEmpty (KNode self :: (node_key <$> m_content)) in
      (idx, get_default is_true_d idx val (KNode self),
       get_default is_true_d idx val <$> (node_key <$> m_content))
  | FDAny | FDOr =>
      let '(idx_subs, v_subs) :=
        extract_expected is_true_d (VBool true) (-1) (node_key <$> m_content) in
      let '(idx_local, v_local) := infer_local is_true_d self idx_subs in
      (idx_local, v_local, v_subs)
  | FDXor =>
      let '(idx_subs, v_subs) :=
        extract_expected is_true_d (VBool true) (-1) (node_key <$> m_content) in
      let '(idx_local, v_local) := infer_local is_true_d self idx_subs in
      let v_subs :=
        if -1 <? idx_subs
        then (fun sub => VBool (is_True_at idx_subs
                                  (dict_get is_true_d (node_key sub) (VBool false, -1))))
               <$> m_content
        else v_subs in
      (idx_local, v_local, v_subs)
  end.

(** The writes of the loop of [_make_product_update__] over
    [zip(m_content, v_subs)]. *)
Definition update_subs (is_true_d : is_true_t) (idx : Z) (content : list _fd__c)
    (v_subs : list value) : is_true_t :=
  fold_zip
    (fun sub v_sub is_true_d =>
       if is_empty v_sub then is_true_d
       else <[node_key sub := (v_sub, idx)]> is_true_d)
    content v_subs is_true_d.

Definition _make_product_update__ (f : _fd__c) (is_true_d : is_true_t) (idx : Z)
    (v_local : value) (v_subs : list value) : is_true_t :=
  let is_true_d :=
    if is_empty v_local then is_true_d
    else <[node_key f := (v_local, idx)]> is_true_d in
  update_subs is_true_d idx (children f) v_subs.

Definition infer_and_update (f : _fd__c) (is_true_d : is_true_t) : is_true_t :=
  let '(idx, v_local, v_subs) := _infer_sv__ f is_true_d in
  _make_product_update__ f is_true_d idx v_local v_subs.

Fixpoint _make_product_rec_1 (f : _fd__c) (is_true_d : is_true_t) : is_true_t :=
  let is_true_d := infer_and_update f is_true_d in
  let is_true_d :=
    (let 'FDNode _ _ _ m_content _ _ := f in
     foldl (fun is_true_d sub => _make_product_rec_1 sub is_true_d) is_true_d m_content) in
  infer_and_update f is_true_d.

(** The attributes a selected feature brings into the result. *)
Definition add_attributes (is_true_d : is_true_t) (attributes : list att_def)
    (res : product_t) : product_t :=
  foldl (fun res att =>
           match is_true_d !! att_key att with
           | None => res
           | Some v => <[att_key att := v.1]> res
           end) res attributes.

Fixpoint _make_product_rec_2 (f : _fd__c) (v_local : value) (is_true_d : is_true_t)
    (res : product_t) : product_t :=
  let '(_, _, v_subs) := _infer_sv__ f is_true_d in
  let 'FDNode _ self _ m_content _ m_attributes := f in
  let res := <[KNode self := v_local]> res in
  let res :=
    fold_zip
      (fun sub v_sub res =>
         _make_product_rec_2 sub (if is_empty v_sub then VBool false else v_sub)
           is_true_d res)
      m_content v_subs res in
  if truthy v_local then add_attributes is_true_d m_attributes res else res.

(** [_normalize_product__]: the hook stands for [m_norm] applied to the
    root; the keys of the result are written in the order of the items of
    the product. *)
Fixpoint normalize_items (lookup : lookup_t) (items : partial_t) (acc : product_t)
    (errors : _decl_errors__c) : res (product_t * _decl_errors__c) :=
  match items with
  | [] => Ok (acc, errors)
  | (key, val) :: items =>
      match key with
      | KStr _ =>
          '(k, errors) ← _path_check_exists__ key lookup errors [];
          normalize_items lookup items (<[k := val]> acc) errors
      | _ => normalize_items lookup items (<[key := val]> acc) errors
      end
  end.

Definition _normalize_product__ (fm : fm_t) (lookup : lookup_t) (product : partial_t)
    (errors : _decl_errors__c) : res (product_t * _decl_errors__c) :=
  let product :=
    match m_norm fm with
    | Some norm => norm product
    | None => product
    end in
  normalize_items lookup product ∅ errors.

(** The first loop of [nf_product]: [is_true_d[k] = (v, i)] for each item
    of each normalised product. *)
Fixpoint ingest (fm : fm_t) (lookup : lookup_t) (i : Z) (args : list partial_t)
    (is_true_d : is_true_t) (errors : _decl_errors__c)
  : res (is_true_t * _decl_errors__c) :=
  match args with
  | [] => Ok (is_true_d, errors)
  | p :: args =>
      '(q, errors) ← _normalize_product__ fm lookup p errors;
      ingest fm lookup (i + 1) args (((fun v => (v, i)) <$> q) ∪ is_true_d) errors
  end.

Definition nf_product (fm : fm_t) (args : list partial_t)
  : res (product_t * _decl_errors__c) :=
  match m_lookup fm with
  | None => Raise ValueError
  | Some lookup =>
      '(is_true_d, errors) ← ingest fm lookup 0 args ∅ DeclErrors.init;
      let is_true_d := _make_product_rec_1 (fm_root fm) is_true_d in
      let v_local :=
        match is_true_d !! node_key (fm_root fm) with
        | None => VBool false
        | Some v => v.1
        end in
      Ok (_make_product_rec_2 (fm_root fm) v_local is_true_d ∅, errors)
  end.

(** *** Notions used to state the properties of normalisation *)

(** The nodes of a diagram: the identities of the root and of its
    descendants. *)
Fixpoint nodes (f : _fd__c) : list nat :=
  let 'FDNode _ self _ m_content _ _ := f in
  self :: (m_content ≫= nodes).

(** A value that stands for "not selected": absent or [False]. *)
Definition low (v : value) : Prop := v = VEmpty ∨ v = VBool false.

(** A table in which nothing is selected and nothing comes from a partial
    product. *)
Definition quiet (is_true_d : is_true_t) : Prop :=
  ∀ k v, is_true_d !! k = Some v → v = (VBool false, -1).

(** The sub-diagrams of a diagram: itself and its descendants. *)
Fixpoint subtrees (f : _fd__c) : list _fd__c :=
  f :: (let 'FDNode _ _ _ m_content _ _ := f in m_content ≫= subtrees).

(** A partial product after [_normalize_product__]: the hook applied and
    the textual keys resolved. *)
Definition resolved (fm : fm_t) (lookup : lookup_t) (p : partial_t) : product_t :=
  match _normalize_product__ fm lookup p DeclErrors.init with
  | Ok (q, _) => q
  | Raise _ => ∅
  end.

(** The indices of a table lie between [-1] and [k]. *)
Definition bounded (k : Z) (is_true_d : is_true_t) : Prop :=
  ∀ key v i, is_true_d !! key = Some (v, i) → -1 ≤ i ≤ k.

(** The nodes a product selects. *)
Definition selects (q : product_t) (id : nat) : Prop :=
  q !! KNode id = Some (VBool true).

(** The nodes that [q] selects are in the table, selected at index [k]. *)
Definition pinned (k : Z) (q : product_t) (is_true_d : is_true_t) : Prop :=
  ∀ id, selects q id → is_true_d !! KNode id = Some (VBool true, k).

(** A key that is not a node. *)
Definition not_node (key : key) : Prop := ∀ id, key ≠ KNode id.

(** The partial products of the provenance example: [b] selected first,
    its parent [a] unselected last. *)
Definition or_and_fm : fm_t :=
  fm_init
    (FDNode FDOr 0 (Some "O")
       [FDNode FDAnd 1 (Some "a") [FDNode FDAnd 2 (Some "b") [] [] []] [] []] [] [])
    None.

(** The hello-world configuration as the list of its items, and a partial
    product that unselects [times] and gives its attribute. *)
Definition conf_1_items : partial_t :=
  [ (KNode 0, VBool true); (KNode 2, VBool true);
    (att_key lang_v, VEnum "Hello" "english");
    (KNode 4, VBool true); (att_key times_v, VInt 2) ].

Definition no_times : partial_t :=
  [ (KNode 4, VBool false); (att_key times_v, VInt 4) ].




(** The loop of [_make_product_rec_2] over the children. *)
Definition rec_2_children (is_true_d : is_true_t) (content : list _fd__c)
    (v_subs : list value) (res : product_t) : product_t :=
  fold_zip
    (fun sub v_sub res =>
       _make_product_rec_2 sub (if is_empty v_sub then VBool false else v_sub)
         is_true_d res)
    content v_subs res.

(** *** Notions used to state the round trip of an accepted product *)












(** *** Notions used to state what is kept of the last partial product *)






(** ** Further notions

    Notions used to state properties of the parts of the module that the
    preceding sections embed. *)

(** A string holds the character [c]. *)
Fixpoint contains_char (c : Ascii.ascii) (s : string) : bool :=
  match s with
  | EmptyString => false
  | String c' s' => Ascii.eqb c' c || contains_char c s'
  end.

(** A path that [_path_to_str__] renders without loss: it has a segment
    and no segment holds the separator. *)
Definition printable (p : path_t) : Prop :=
  p ≠ [] ∧ Forall (fun seg => contains_char "/"%char seg = false) p.

(** The declarations a reference may stand for: those of its last segment
    whose path includes the context of the reference. *)
Definition candidates (mapping : lookup_t) (n : string) (context : path_t)
  : list (key * path_t) :=
  filter (fun el => Is_true (_path_includes__ el.2 context)) (prior mapping n).

(** The last segment of a textual reference and the context it is looked
    up in. *)
Definition ref_name (path_s : string) : string :=
  default EmptyString (last (_path_from_str__ path_s)).
Definition ref_context (additional_path : path_t) (path_s : string) : path_t :=
  additional_path ++ but_last (_path_from_str__ path_s).

(** Every variable of the expression holds a string, as the constructors
    leave it. *)
Fixpoint textual (e : expr) : bool :=
  match e with
  | Var (KStr _) => true
  | Var _ => false
  | Lit _ => true
  | Op _ content => forallb textual content
  end.


(** The expression without the content of its variables. *)
Fixpoint erase_vars (e : expr) : expr :=
  match e with
  | Var _ => Var (KStr EmptyString)
  | Lit v => Lit v
  | Op cls content => Op cls (erase_vars <$> content)
  end.

(** The elements a lookup table declares are objects, not strings. *)
Definition of_objects (mapping : lookup_t) : Prop :=
  ∀ n decls el, mapping !! n = Some decls → el ∈ decls → ∀ s, el.1 ≠ KStr s.

(** The number of operands the constructor of a class takes, when it
    fixes one. *)
Definition arity (cls : expkind) : option nat :=
  match cls with
  | K.Lt | K.Leq | K.Eq | K.Geq | K.Gt | K.Implies | K.Iff => Some 2%nat
  | K.Not => Some 1%nat
  | K.And | K.Or | K.Xor | K.Conflict => None
  end.

(** The classes that order their operands. *)
Definition ordering (cls : expkind) : bool :=
  match cls with
  | K.Lt | K.Leq | K.Geq | K.Gt => true
  | _ => false
  end.

(** An expression as the constructors build it: every node has the number
    of operands its class takes. *)
Fixpoint constructed (e : expr) : bool :=
  match e with
  | Var _ | Lit _ => true
  | Op cls content =>
      match arity cls with
      | Some n => Nat.eqb (length content) n
      | None => true
      end && forallb constructed content
  end.

(** An expression with no ordering comparison. *)
Fixpoint ordering_free (e : expr) : bool :=
  match e with
  | Var _ | Lit _ => true
  | Op cls content => negb (ordering cls) && forallb ordering_free content
  end.

(** A number: an [int] (a Boolean included) or a [float]. *)
Definition number (v : value) : bool := isinstance v CFloat || isinstance v CInt.

(** An interval the domain constructor accepts. *)
Definition valid_interval (i : interval) : bool :=
  _is_valid_bound i.1 && _is_valid_bound i.2.

(** The interval a single number stands for. *)
Definition point (v : value) : interval := (v, plus_one v).

(** The not-a-number float. *)
Definition nan_value : value := VFloat PrimFloat.nan.

(** ** The [List] specification

    A value given to a [List] specification may be a list or a tuple of
    values; its elements are checked by another specification. *)

Inductive pyobj :=
  | OVal (v : value)
  | OList (l : list pyobj)
  | OTuple (l : list pyobj).

Inductive list_spec :=
  | SBase (s : attr_spec)
  | List_ (m_size : list interval) (m_kind : option list_spec).

(** [List(size, spec)], for a [size] that is a sequence of arguments. *)
Definition List_init (size : option (list spec_arg)) (spec : option list_spec)
  : res list_spec :=
  m_size ← match size with
           | Some size => _add_domain_spec [] size
           | None => Ok []
           end;
  Ok (List_ m_size spec).

(** [for el in value: if(not kind(el)): return False] then [return True]. *)
Definition all_accepted (kind : pyobj → res bool) : list pyobj → res bool :=
  fix go (value : list pyobj) : res bool :=
    match value with
    | [] => Ok true
    | el :: value => b ← kind el; if (b : bool) then go value else Ok false
    end.

(** [spec(value)]: the classes of the previous section see no instance of
    theirs in a list or a tuple. *)
Fixpoint list_spec_call (spec : list_spec) (o : pyobj) : res bool :=
  match spec with
  | SBase s =>
      match o with
      | OVal v => spec_call s v
      | _ => Ok false
      end
  | List_ m_size m_kind =>
      match o with
      | OVal _ => Ok false
      | OList value | OTuple value =>
          b ← _check_domain m_size (VInt (Z.of_nat (length value)));
          if (b : bool)
          then match m_kind with
               | None => Ok true
               | Some kind => all_accepted (list_spec_call kind) value
               end
          else Ok false
      end
  end.

(** The elements of a list or a tuple. *)
Definition elements (o : pyobj) : option (list pyobj) :=
  match o with
  | OVal _ => None
  | OList l | OTuple l => Some l
  end.

(** ** Constructor arguments of a diagram *)

Definition is_sub_or_exp (a : fd_arg) : bool :=
  match a with FSub _ | FExp _ => true | _ => false end.

Definition subs_of (args : list fd_arg) : list _fd__c :=
  omap (fun a => match a with FSub f => Some f | _ => None end) args.

Definition ctcs_of (args : list fd_arg) : list expr :=
  omap (fun a => match a with FExp e => Some e | _ => None end) args.

(** ** The tables of a checked model *)

(** The path [dom] gives a declaration: the path of a node, the path of
    its node followed by its name for an attribute. *)
Definition dom_value (d : decl) : string :=
  match d.1.2 with
  | KNode _ => _path_to_str__ (Some d.2)
  | _ => _path_to_str__ (Some (d.2 ++ [d.1.1]))
  end.

Definition dom_step (dom : dom_t) (d : decl) : dom_t := <[d.1.2 := dom_value d]> dom.

(** The diagram without the content of the variables of its
    constraints. *)
Fixpoint skeleton (f : _fd__c) : _fd__c :=
  let 'FDNode cls self m_name m_content m_ctcs m_attributes := f in
  FDNode cls self m_name (skeleton <$> m_content) (erase_vars <$> m_ctcs) m_attributes.

(** ** Accepted products *)

(** The value a product gives a node, the sentinel when it gives none. *)
Definition value_in (p : product_t) (f : _fd__c) : value :=
  dict_get p (node_key f) VEmpty.

(** A group of features: all the children are named, and the node bears
    neither attribute nor constraint. *)
Definition plain_group (f : _fd__c) : Prop :=
  Forall (fun c => name c ≠ None) (children f) ∧
  attributes f = [] ∧ cross_tree_constraints f = [].

(** The specification of an attribute has bounds the constructors accept,
    and a constraint is built by the constructors and orders nothing. *)
Definition sound_spec (s : attr_spec) : bool :=
  match s with
  | Class _ => true
  | Int domain | Float domain => forallb valid_interval domain
  end.

Fixpoint sound (f : _fd__c) : bool :=
  let 'FDNode _ _ _ m_content m_ctcs m_attributes := f in
  forallb sound m_content
  && forallb (fun e => constructed e && ordering_free e) m_ctcs
  && forallb (fun att : att_def => sound_spec (spec_of att.2)) m_attributes.

(** ** Normal form of a constraint

    [KeyError] and [NameError] are raised by no function of the preceding
    sections; a result that may carry them is an [outcome]. *)

Inductive exn_ext := Std (e : exn) | KeyError | NameError.

Inductive outcome (A : Type) : Type :=
  | Returns (a : A)
  | Throws (e : exn_ext).
Arguments Returns {A} a.
Arguments Throws {A} e.

#[global] Instance outcome_ret : MRet outcome := fun A a => Returns a.
#[global] Instance outcome_bind : MBind outcome := fun A B f m =>
  match m with
  | Returns a => f a
  | Throws e => Throws e
  end.

Definition of_res {A} (m : res A) : outcome A :=
  match m with
  | Ok a => Returns a
  | Raise e => Throws (Std e)
  end.

(** [_path_check_exists__] when [additional_path] is a string, as
    [nf_constraint] calls it with [m_dom[self]]: the string is split and
    its last segment taken, then the concatenation of [additional_path]
    with a tuple raises. *)
Definition _path_check_exists___strpath (path_s : key) (mapping : lookup_t)
    (errors : _decl_errors__c) (additional_path : string)
  : res (key * _decl_errors__c) :=
  match path_s with
  | KStr path_s =>
      let path := _path_from_str__ path_s in
      name ← last_item path;
      Raise TypeError
  | _ => Raise AttributeError
  end.

(** [_check_declarations__] when [path] is a string. *)
Fixpoint _check_declarations___strpath (e : expr) (path : string) (mapping : lookup_t)
    (errors : _decl_errors__c) : res (expr * _decl_errors__c) :=
  match e with
  | Var content =>
      '(content, errors) ← _path_check_exists___strpath content mapping errors path;
      Ok (Var content, errors)
  | Lit content => Ok (Lit content, errors)
  | Op cls content =>
      '(content, errors) ←
        enum_mapM_st (fun _ sub errors => _check_declarations___strpath sub path mapping errors)
          0%nat content errors;
      Ok (Op cls content, errors)
  end.

(** [nf_constraint(c)]; [m_dom] is set whenever [m_lookup] is. *)
Definition nf_constraint (fm : fm_t) (c : param) : outcome (expr * _decl_errors__c) :=
  match m_lookup fm with
  | None => Throws (Std ValueError)
  | Some lookup =>
      let errors := DeclErrors.init in
      let c := _manage_parameter__ c in
      match m_dom fm with
      | None => Throws (Std TypeError)
      | Some dom =>
          match dom !! node_key (fm_root fm) with
          | None => Throws KeyError
          | Some path => of_res (_check_declarations___strpath c path lookup errors)
          end
      end
  end.

(** The expression has no variable. *)
Fixpoint var_free (e : expr) : bool :=
  match e with
  | Var _ => false
  | Lit _ => true
  | Op _ content => forallb var_free content
  end.

(** ** Printing a reason

    [str_ref] stands for [str] applied to the object a reason refers to (a
    name, a node, an attribute definition, an expression), which may
    raise. *)

Section printing.

Variable str_ref : ref → outcome string.

Definition double_quote : string := String (Ascii.ascii_of_nat 34) EmptyString.
Definition newline : string := String (Ascii.ascii_of_nat 10) EmptyString.

(** [tuple(f(el) for el in l)] for an [f] that may raise. *)
Definition map_outcome {A B} (f : A → outcome B) : list A → outcome (list B) :=
  fix go (l : list A) : outcome (list B) :=
    match l with
    | [] => Returns []
    | el :: l => r ← f el; rs ← go l; Returns (r :: rs)
    end.

(** [__str__] of the three classes of local reasons: the one of a value
    mismatch reads a name, [expected], that nothing binds. *)
Definition str_local (r : reason_local) : outcome string :=
  match r with
  | _reason_value_mismatch__c _ _ _ => Throws NameError
  | _reason_value_none__c m_ref =>
      s ← str_ref m_ref;
      Returns (s +:+ " has no value in the input configuration")
  | _reason_dependencies__c m_ref m_deps =>
      ds ← map_outcome str_ref m_deps;
      let tmp :=
        String.concat ", " ((fun el => double_quote +:+ el +:+ double_quote) <$> ds) in
      s ← str_ref m_ref;
      Returns (s +:+ " should be True due to dependencies (found: " +:+ tmp +:+ ")")
  end.

(** [_tostring__]: with two entries or more it reads [self.m_name], a
    field the class does not have. *)
Fixpoint _tostring__ (t : _reason_tree__c) (indent : string) : outcome string :=
  let 'ReasonTree m_ref m_local m_subs m_count := t in
  match m_count with
  | 0%nat => Returns EmptyString
  | 1%nat =>
      match m_local with
      | l0 :: _ =>
          r ← str_ref m_ref;
          l ← str_local l0;
          Returns (indent +:+ r +:+ ": " +:+ l +:+ newline)
      | [] =>
          r ← str_ref m_ref;
          match m_subs with
          | s0 :: _ =>
              s ← _tostring__ s0 EmptyString;
              Returns (indent +:+ r +:+ ": " +:+ s +:+ newline)
          | [] => Throws (Std IndexError)
          end
      end
  | _ => Throws (Std AttributeError)
  end.

(** [str(reason)]. *)
Definition reason_str (t : _reason_tree__c) : outcome string := _tostring__ t EmptyString.

End printing.

(** ** Reason trees that count their entries

    [m_count] is the number of the local reasons and of the sub-trees, in
    the tree and in every sub-tree, and no sub-tree is empty. *)
Fixpoint well_counted (t : _reason_tree__c) : Prop :=
  let 'ReasonTree _ m_local m_subs m_count := t in
  m_count = (length m_local + length m_subs)%nat ∧
  foldr (fun sub acc => well_counted sub ∧ ReasonTree.m_count sub ≠ 0%nat ∧ acc)
    True m_subs.

(** The reason of a result, if any, counts its entries. *)
Definition counted (r : option _reason_tree__c) : Prop :=
  ∀ t, r = Some t → well_counted t.

(** * Properties *)

(** ** Generic facts *)

Lemma expr_ind' (P : expr → Prop) :
  (∀ k, P (Var k)) →
  (∀ v, P (Lit v)) →
  (∀ cls content, Forall P content → P (Op cls content)) →
  ∀ e, P e.
Proof.
  intros HV HL HO. fix IH 1. intros [k|v|cls content].
  - apply HV.
  - apply HL.
  - apply HO. induction content as [|e content IHc]; constructor; [apply IH | exact IHc].
Qed.

(** ** The declaration-error accumulator *)

(** C7: the entry [add_ambiguous] creates goes to the list of unbound
    references: afterwards [has_ambiguities()] is still false, the
    [ambiguities] property is empty and [unbounds] has grown. *)
Theorem add_ambiguous_goes_to_unbounds :
  let errors := DeclErrors.add_ambiguous DeclErrors.init "x" (Some ["a"]) [["a"; "x"]] in
  DeclErrors.has_ambiguities errors = false ∧
  DeclErrors.ambiguities errors = [] ∧
  DeclErrors.unbounds errors = [_ambiguous__c "x" (Some ["a"]) [["a"; "x"]]].
Proof. repeat split. Qed.

(** ** Constraint evaluation against the reference semantics *)

(** The equation of [call] on a composite node. *)
Lemma call_Op cls content product idx expected :
  call (Op cls content) product idx expected =
  results ← enum_mapM
    (fun i el => call el product (Some i) (_get_expected__ cls expected)) 0%nat content;
  res ← _compute__ cls (m_value <$> results);
  if py_eq res expected
  then Ok (mk_eval_result res None)
  else Ok (mk_eval_result res (Some (mismatch_reason cls idx expected content results))).
Proof. reflexivity. Qed.

(** *** Numbers

    The comparisons of the embedding ([float_cmp], [float_cmp_Z], the
    integer comparison) against the order of the numbers the operands
    stand for. *)

Section numbers.

Import QArith_base QArith Qpower.
Import Semantics.

(** The comparison of two rationals is an outcome of their order. *)
Lemma Fin_agrees (p q : Q) : agrees (Some (Qcompare p q)) (Fin p) (Fin q).
Proof.
  unfold agrees. cbn.
  assert (Hle : ∀ a b, Qle_bool a b = true ↔ Qcompare a b ≠ Gt).
  { intros a b. rewrite Qle_bool_iff. apply Qle_alt. }
  assert (Heq : Qeq_bool p q = true ↔ Qcompare p q = Eq).
  { rewrite Qeq_bool_iff. apply Qeq_alt. }
  pose proof (Hle q p) as H1. pose proof (Hle p q) as H2.
  rewrite <- (Qcompare_antisym p q) in H1.
  destruct (Qcompare p q), (Qle_bool q p), (Qle_bool p q), (Qeq_bool p q);
    cbn in *; try done; intuition congruence.
Qed.

Lemma two_pos (e : Z) : (0 < inject_Z 2 ^ e)%Q.
Proof. by apply Qpower_0_lt. Qed.

(** Dyadic numbers of the same exponent compare as their mantissas. *)
Lemma dyadic_compare (a b e : Z) :
  Qcompare (dyadic a e) (dyadic b e) = (a ?= b)%Z.
Proof.
  unfold dyadic. destruct (Z.compare_spec a b) as [->|H|H].
  - by apply Qeq_alt.
  - apply Qlt_alt, Qmult_lt_compat_r; [apply two_pos|]. by rewrite <- Zlt_Qlt.
  - apply Qgt_alt, Qmult_lt_compat_r; [apply two_pos|]. by rewrite <- Zlt_Qlt.
Qed.

(** A dyadic number with a larger exponent, brought to a smaller one. *)
Lemma dyadic_shift (m e d : Z) :
  (0 <= d)%Z → (dyadic m (e + d) == dyadic (m * 2 ^ d) e)%Q.
Proof.
  intros Hd. unfold dyadic.
  rewrite inject_Z_mult, (Zpower_Qpower 2 d Hd), Qpower_plus by done.
  ring.
Qed.

Lemma dyadic_int (z : Z) : (inject_Z z == dyadic z 0)%Q.
Proof. unfold dyadic. cbn. ring. Qed.

(** A mantissa of [n] binary digits lies between [2 ^ (n - 1)] and [2 ^ n]. *)
Lemma digits2_pos_bounds (m : positive) :
  (2 ^ (Z.pos (digits2_pos m) - 1) <= Z.pos m < 2 ^ Z.pos (digits2_pos m))%Z.
Proof.
  induction m as [m IH|m IH|]; cbn [digits2_pos]; [| |done].
  - rewrite Pos2Z.inj_succ.
    replace (Z.succ (Z.pos (digits2_pos m)) - 1)%Z with (Z.succ (Z.pos (digits2_pos m) - 1))%Z by lia.
    rewrite !Z.pow_succ_r by lia. lia.
  - rewrite Pos2Z.inj_succ.
    replace (Z.succ (Z.pos (digits2_pos m)) - 1)%Z with (Z.succ (Z.pos (digits2_pos m) - 1))%Z by lia.
    rewrite !Z.pow_succ_r by lia. lia.
Qed.

(** Of two valid mantissas, the one with the smaller exponent is the
    smaller number. *)
Lemma bounded_scale (m1 m2 : positive) (e1 e2 : Z) :
  SpecFloat.bounded FloatOps.prec FloatOps.emax m1 e1 = true → SpecFloat.bounded FloatOps.prec FloatOps.emax m2 e2 = true →
  (e1 < e2)%Z → (Z.pos m1 < Z.pos m2 * 2 ^ (e2 - e1))%Z.
Proof.
  unfold SpecFloat.bounded, SpecFloat.canonical_mantissa, SpecFloat.fexp, SpecFloat.emin.
  intros [H1 _]%andb_true_iff [H2 _]%andb_true_iff He.
  apply Z.eqb_eq in H1, H2.
  pose proof (digits2_pos_bounds m1) as [_ B1].
  pose proof (digits2_pos_bounds m2) as [B2 _].
  assert (D1 : (Z.pos (digits2_pos m1) <= FloatOps.prec)%Z) by lia.
  assert (D2 : (Z.pos (digits2_pos m2) = FloatOps.prec)%Z) by lia.
  rewrite D2 in B2.
  assert (Z.pos m1 < 2 ^ FloatOps.prec)%Z.
  { eapply Z.lt_le_trans; [exact B1|]. apply Z.pow_le_mono_r; lia. }
  assert (2 ^ 1 <= 2 ^ (e2 - e1))%Z by (apply Z.pow_le_mono_r; lia).
  assert (2 ^ FloatOps.prec = 2 ^ (FloatOps.prec - 1) * 2 ^ 1)%Z as E.
  { rewrite <- Z.pow_add_r by (unfold FloatOps.prec; lia). f_equal; lia. }
  nia.
Qed.

Lemma dyadic_lt (a b e1 e2 : Z) :
  (e1 <= e2)%Z → (a < b * 2 ^ (e2 - e1))%Z →
  Qcompare (dyadic a e1) (dyadic b e2) = Datatypes.Lt.
Proof.
  intros He H. replace e2 with (e1 + (e2 - e1))%Z at 1 by lia.
  rewrite dyadic_shift by lia. rewrite dyadic_compare. by apply Z.compare_lt_iff.
Qed.

Lemma dyadic_gt (a b e1 e2 : Z) :
  (e1 <= e2)%Z → (b * 2 ^ (e2 - e1) < a)%Z →
  Qcompare (dyadic a e1) (dyadic b e2) = Gt.
Proof.
  intros He H. replace e2 with (e1 + (e2 - e1))%Z at 1 by lia.
  rewrite dyadic_shift by lia. rewrite dyadic_compare. by apply Z.compare_gt_iff.
Qed.

Lemma dyadic_zero (a e : Z) : Qcompare (dyadic a e) (inject_Z 0) = (a ?= 0)%Z.
Proof.
  rewrite <- (dyadic_compare a 0 e).
  assert (inject_Z 0 == dyadic 0 e)%Q as -> by (unfold dyadic; ring). done.
Qed.

Lemma inject_Z_compare (x y : Z) : Qcompare (inject_Z x) (inject_Z y) = (x ?= y)%Z.
Proof. unfold Qcompare. cbn. by rewrite !Z.mul_1_r. Qed.

Lemma Fin_agrees_with (c : comparison) (p q : Q) :
  Qcompare p q = c → agrees (Some c) (Fin p) (Fin q).
Proof. intros <-. apply Fin_agrees. Qed.

(** [float_cmp_Z] is the exact comparison of the number a float stands
    for with an integer. *)
Lemma float_cmp_Z_agrees (f : float) (z : Z) :
  agrees (float_cmp_Z f z) (of_float f) (Fin (inject_Z z)).
Proof.
  unfold float_cmp_Z, of_float. destruct (Prim2SF f) as [s|[]| |s m e]; try done.
  - apply Fin_agrees_with, inject_Z_compare.
  - apply Fin_agrees_with.
    set (sm := if s then Z.neg m else Z.pos m).
    rewrite (dyadic_int z). destruct (Z.leb_spec 0 e) as [He|He].
    + replace e with (0 + e)%Z at 1 by lia. rewrite dyadic_shift by lia.
      apply dyadic_compare.
    + replace 0%Z with (e + - e)%Z at 1 by lia. rewrite dyadic_shift by lia.
      apply dyadic_compare.
Qed.

Lemma dyadic_neg_pos (m1 m2 : positive) (e1 e2 : Z) :
  Qcompare (dyadic (Z.neg m1) e1) (dyadic (Z.pos m2) e2) = Datatypes.Lt.
Proof.
  apply Qlt_alt. apply Qlt_trans with (inject_Z 0).
  - apply Qlt_alt. by rewrite dyadic_zero.
  - apply Qgt_alt. by rewrite dyadic_zero.
Qed.

(** The comparison of two valid binary floats (by sign, then exponent,
    then mantissa) is the order of the numbers they stand for. *)
Lemma SFcompare_agrees (x y : spec_float) :
  FloatAxioms.valid_binary x = true → FloatAxioms.valid_binary y = true →
  agrees (SFcompare x y)
    (match x with
     | S754_zero _ => Fin (inject_Z 0)
     | S754_infinity s => if s then NegInf else PosInf
     | S754_nan => NaN
     | S754_finite s m e => Fin (dyadic (if s then Z.neg m else Z.pos m) e)
     end)
    (match y with
     | S754_zero _ => Fin (inject_Z 0)
     | S754_infinity s => if s then NegInf else PosInf
     | S754_nan => NaN
     | S754_finite s m e => Fin (dyadic (if s then Z.neg m else Z.pos m) e)
     end).
Proof.
  intros Vx Vy.
  destruct x as [sx|sx| |s1 m1 e1], y as [sy|sy| |s2 m2 e2];
    try done; try (by destruct sx); try (by destruct sy);
    try (by destruct sx, sy); try (by destruct s1); try (by destruct s2);
    try (by destruct s1, sy); try (by destruct sx, s2).
  - destruct s2; apply Fin_agrees_with; rewrite <- Qcompare_antisym, dyadic_zero; done.
  - destruct s1; apply Fin_agrees_with; rewrite dyadic_zero; done.
  - cbn in Vx, Vy. cbn [SFcompare]. apply Fin_agrees_with.
    destruct s1, s2.
    + destruct (Z.compare_spec e1 e2) as [->|He|He].
      * rewrite dyadic_compare. cbn. reflexivity.
      * apply dyadic_gt; [lia|].
        pose proof (bounded_scale m1 m2 e1 e2 Vx Vy He). lia.
      * rewrite <- Qcompare_antisym.
        rewrite (dyadic_gt (Z.neg m2) (Z.neg m1) e2 e1); [done|lia|].
        pose proof (bounded_scale m2 m1 e2 e1 Vy Vx He). lia.
    + apply dyadic_neg_pos.
    + rewrite <- Qcompare_antisym, dyadic_neg_pos. done.
    + destruct (Z.compare_spec e1 e2) as [->|He|He].
      * rewrite dyadic_compare. cbn. reflexivity.
      * apply dyadic_lt; [lia|]. by apply bounded_scale.
      * rewrite <- Qcompare_antisym.
        rewrite (dyadic_lt (Z.pos m2) (Z.pos m1) e2 e1); [done|lia|].
        by apply bounded_scale.
Qed.

(** [float_cmp] is the comparison of the numbers two floats stand for; a
    NaN is not comparable. *)
Lemma float_cmp_agrees (f g : float) :
  agrees (float_cmp f g) (of_float f) (of_float g).
Proof.
  unfold float_cmp. rewrite FloatAxioms.compare_spec.
  replace (match flatten_cmp_opt (SFcompare (Prim2SF f) (Prim2SF g)) with
           | FEq => Some Eq | FLt => Some Datatypes.Lt | FGt => Some Gt | FNotComparable => None end)
    with (SFcompare (Prim2SF f) (Prim2SF g))
    by (by destruct (SFcompare _ _) as [[]|]).
  apply SFcompare_agrees; apply Prim2SF_valid.
Qed.

(** Exchanging the operands reverses the outcome. *)
Lemma agrees_flip (o : option comparison) (x y : number) :
  agrees o x y → agrees (CompOpp <$> o) y x.
Proof.
  intros (H1 & H2 & H3). unfold agrees. rewrite H1, H2.
  assert (same y x = same x y) as ->.
  { destruct x as [| |p|], y as [| |q|]; try done. cbn.
    apply eq_true_iff_eq. rewrite !Qeq_bool_iff. split; intros ->; reflexivity. }
  rewrite H3. by destruct o as [[]|].
Qed.

End numbers.

Section call_denote.

Import Semantics.

Lemma mapM_as_bool_values vs bs :
  mapM as_bool vs = Some bs → to_value <$> vs = VBool <$> bs.
Proof.
  rewrite mapM_Some. induction 1 as [|v b vs bs Hv _ IH]; [done|].
  destruct v; simplify_eq/=. by rewrite IH.
Qed.

Lemma forallb_truthy_bools bs : forallb truthy (VBool <$> bs) = forallb id bs.
Proof. induction bs as [|b bs IH]; [done|]. csimpl. by rewrite IH. Qed.

Lemma existsb_truthy_bools bs : existsb truthy (VBool <$> bs) = existsb id bs.
Proof. induction bs as [|b bs IH]; [done|]. csimpl. by rewrite IH. Qed.

Lemma count_true_cons b bs :
  count_true (b :: bs) = if b then S (count_true bs) else count_true bs.
Proof.
  unfold count_true. destruct b.
  - by rewrite filter_cons_True.
  - by rewrite filter_cons_False; [|intros []].
Qed.

(** The loop of [Xor._compute__]: once a true element has been seen
    ([res]), any further one makes the result false. *)
Lemma Xor_loop_count res bs :
  Xor_loop res (VBool <$> bs) =
  if res then Nat.eqb (count_true bs) 0 else Nat.eqb (count_true bs) 1.
Proof.
  revert res. induction bs as [|b bs IH]; intros res.
  - by destruct res.
  - rewrite count_true_cons. csimpl.
    destruct b, res; rewrite ?IH; done.
Qed.

Lemma Conflict_loop_count res bs :
  Conflict_loop res (VBool <$> bs) =
  if res then Nat.eqb (count_true bs) 0 else Nat.leb (count_true bs) 1.
Proof.
  revert res. induction bs as [|b bs IH]; intros res.
  - by destruct res.
  - rewrite count_true_cons. csimpl.
    destruct b, res; rewrite ?IH; try done.
    by destruct (count_true bs).
Qed.

(** Python's three-way comparison of two numeric objects is the order of
    the numbers they stand for. *)
Lemma py_cmp_agrees (a b : sval) (x y : number) :
  number_of a = Some x → number_of b = Some y →
  ∃ o, py_cmp (to_value a) (to_value b) = Ok o ∧ agrees o x y.
Proof.
  intros Ha Hb.
  destruct a as [a|a|f| | |], b as [b|b|g| | |]; simplify_eq/=.
  1,2,4,5: eexists; split; [done|]; apply Fin_agrees_with, inject_Z_compare.
  - eexists; split; [done|].
    apply (agrees_flip _ _ _ (float_cmp_Z_agrees g (if a then 1 else 0))).
  - eexists; split; [done|]. apply (agrees_flip _ _ _ (float_cmp_Z_agrees g a)).
  - eexists; split; [done|]. apply (float_cmp_Z_agrees f (if b then 1 else 0)).
  - eexists; split; [done|]. apply (float_cmp_Z_agrees f b).
  - eexists; split; [done|]. apply float_cmp_agrees.
Qed.

Lemma string_compare_flip s t :
  String.compare t s = CompOpp (String.compare s t).
Proof. apply String.compare_antisym. Qed.

Lemma string_eqb_compare s t :
  String.eqb s t = match String.compare s t with Eq => true | _ => false end.
Proof.
  destruct (String.eqb_spec s t) as [->|Hne].
  - pose proof (String.compare_antisym t t) as H.
    destruct (String.compare t t); done.
  - destruct (String.compare s t) eqn:E; try done.
    by apply String.compare_eq_iff in E.
Qed.

Lemma py_lt_less_than (a b : sval) (l : bool) :
  less_than a b = Some l → py_lt (to_value a) (to_value b) = Ok l.
Proof.
  unfold less_than, py_lt. intros H.
  destruct (number_of a) as [x|] eqn:Ea, (number_of b) as [y|] eqn:Eb.
  - destruct (py_cmp_agrees a b x y Ea Eb) as (o & -> & Ho & _). simplify_eq. by rewrite Ho.
  - destruct a, b; simplify_eq/=.
  - destruct a, b; simplify_eq/=.
  - destruct a, b; simplify_eq/=. unfold String.ltb. by destruct (String.compare _ _).
Qed.

Lemma py_gt_less_than (a b : sval) (l : bool) :
  less_than b a = Some l → py_gt (to_value a) (to_value b) = Ok l.
Proof.
  unfold less_than, py_gt. intros H.
  destruct (number_of a) as [x|] eqn:Ea, (number_of b) as [y|] eqn:Eb.
  - destruct (py_cmp_agrees a b x y Ea Eb) as (o & -> & _ & Ho & _). simplify_eq. by rewrite Ho.
  - destruct a, b; simplify_eq/=.
  - destruct a, b; simplify_eq/=.
  - destruct a, b; simplify_eq/=. unfold String.ltb.
    rewrite (string_compare_flip s s0). by destruct (String.compare _ _).
Qed.

Lemma py_eq_equal (a b : sval) : py_eq (to_value a) (to_value b) = equal a b.
Proof.
  unfold equal.
  destruct (number_of a) as [x|] eqn:Ea, (number_of b) as [y|] eqn:Eb.
  - destruct (py_cmp_agrees a b x y Ea Eb) as (o & Ho & _ & _ & ->).
    assert (py_eq (to_value a) (to_value b) =
            match py_cmp (to_value a) (to_value b) with
            | Ok (Some Eq) => true
            | _ => false
            end) as -> by (by destruct a, b).
    rewrite Ho. by destruct o as [[]|].
  - destruct a, b; simplify_eq/=; done.
  - destruct a, b; simplify_eq/=; done.
  - destruct a, b; simplify_eq/=; done.
Qed.

Lemma py_le_at_most (a b : sval) (l : bool) :
  at_most a b = Some l → py_le (to_value a) (to_value b) = Ok l.
Proof.
  unfold at_most, less_than, equal, py_le. intros H.
  destruct (number_of a) as [x|] eqn:Ea, (number_of b) as [y|] eqn:Eb.
  - destruct (py_cmp_agrees a b x y Ea Eb) as (o & -> & H1 & _ & H3). simplify_eq/=.
    rewrite H1, H3. by destruct o as [[]|].
  - destruct a, b; simplify_eq/=.
  - destruct a, b; simplify_eq/=.
  - destruct a, b; simplify_eq/=. unfold String.ltb. rewrite string_eqb_compare.
    by destruct (String.compare _ _).
Qed.

Lemma py_ge_at_most (a b : sval) (l : bool) :
  at_most b a = Some l → py_ge (to_value a) (to_value b) = Ok l.
Proof.
  unfold at_most, less_than, equal, py_ge. intros H.
  destruct (number_of a) as [x|] eqn:Ea, (number_of b) as [y|] eqn:Eb.
  - destruct (py_cmp_agrees a b x y Ea Eb) as (o & -> & Ho).
    pose proof (agrees_flip _ _ _ Ho) as (_ & _ & H3).
    destruct Ho as (_ & H2 & _). simplify_eq/=.
    rewrite H2, H3. by destruct o as [[]|].
  - destruct a, b; simplify_eq/=.
  - destruct a, b; simplify_eq/=.
  - destruct a, b; simplify_eq/=. unfold String.ltb. rewrite string_eqb_compare.
    rewrite (string_compare_flip s s0). by destruct (String.compare _ _).
Qed.

(** Each [_compute__] agrees with the reduction of the reference
    semantics on the values the latter is defined on. *)
Lemma _compute__reduce cls vs v :
  reduce cls vs = Some v →
  _compute__ cls (to_value <$> vs) = Ok (to_value v).
Proof.
  destruct cls; cbn [reduce]; intros H.
  1-5: destruct vs as [|a [|b [|? ?]]]; try done; cbn [relational] in H.
  - apply fmap_Some in H as (l & H & ->). cbn.
    by rewrite (py_lt_less_than _ _ _ H).
  - apply fmap_Some in H as (l & H & ->). cbn.
    by rewrite (py_le_at_most _ _ _ H).
  - simplify_eq/=. by rewrite py_eq_equal.
  - apply fmap_Some in H as (l & H & ->). cbn.
    by rewrite (py_ge_at_most _ _ _ H).
  - apply fmap_Some in H as (l & H & ->). cbn.
    by rewrite (py_gt_less_than _ _ _ H).
  - apply bind_Some in H as (bs & E & H); simplify_eq/=.
    by rewrite (mapM_as_bool_values _ _ E), forallb_truthy_bools.
  - apply bind_Some in H as (bs & E & H); simplify_eq/=.
    by rewrite (mapM_as_bool_values _ _ E), existsb_truthy_bools.
  - destruct vs as [|[a| | | | |] [|? ?]]; simplify_eq/=. done.
  - apply bind_Some in H as (bs & E & H); simplify_eq/=.
    by rewrite (mapM_as_bool_values _ _ E), Xor_loop_count.
  - apply bind_Some in H as (bs & E & H); simplify_eq/=.
    by rewrite (mapM_as_bool_values _ _ E), Conflict_loop_count.
  - destruct vs as [|[a| | | | |] [|[b| | | | |] [|? ?]]]; simplify_eq/=. by destruct a.
  - destruct vs as [|[a| | | | |] [|[b| | | | |] [|? ?]]]; simplify_eq/=.
    by destruct a, b.
Qed.

Lemma of_value_to_value v s : of_value v = Some s → v = to_value s.
Proof. destruct v; intros; simplify_eq/=; done. Qed.

Lemma of_value_not_empty v s : of_value v = Some s → is_empty v = false.
Proof. destruct v; intros; simplify_eq/=; done. Qed.

(** The children of a composite node: evaluation succeeds on each and
    yields the denoted values, whatever the indices and expectation. *)
Lemma enum_mapM_call_denote product content vs :
  Forall (fun e => ∀ v, denote product e = Some v →
            ∀ idx expected, ∃ r, call e product idx expected = Ok r ∧
                                 m_value r = to_value v) content →
  mapM (denote product) content = Some vs →
  ∀ i expected, ∃ results,
    enum_mapM (fun i el => call el product (Some i) expected) i content = Ok results ∧
    m_value <$> results = to_value <$> vs.
Proof.
  intros HF. rewrite mapM_Some. intros Hm. revert HF.
  induction Hm as [|e v content vs Hv _ IH]; intros HF i expected.
  - by exists [].
  - apply Forall_cons in HF as [He HF].
    destruct (He v Hv (Some i) expected) as (r & Hr & Hrv).
    destruct (IH HF (S i) expected) as (rs & Hrs & Hvs).
    exists (r :: rs). cbn. rewrite Hr. cbn. rewrite Hrs. cbn. by rewrite Hrv, Hvs.
Qed.

End call_denote.

(** C1: on every expression and product for which the reference
    semantics is defined (every referenced variable has a value of the
    sort its parent needs: a Boolean under a connective; under a
    relational operator two numbers, Booleans, integers and floats mixed
    at will, or two strings, and under [Eq] any two values, enumeration
    members and [None] included), evaluation returns, and the value of
    its result is the denoted one: [And] all children true, [Or] some
    child true, [Not] the negation, [Implies(a,b)] [not a or b],
    [Iff(a,b)] [a == b], the relational operators the comparison of their
    two children, numbers by the order of the rationals they stand for (a
    NaN operand makes every comparison false), [Xor] exactly one child
    true and [Conflict] at most one.  The index and the expectation
    passed down do not change the value. *)
Theorem call_value_denote (e : expr) (product : product_t) (v : Semantics.sval) :
  Semantics.denote product e = Some v →
  ∀ idx expected, ∃ r,
    call e product idx expected = Ok r ∧ m_value r = Semantics.to_value v.
Proof.
  revert v. induction e as [k|w|cls content IH] using expr_ind';
    intros v Hd idx expected.
  - cbn in Hd. apply bind_Some in Hd as (w & Hk & Hd).
    unfold call, dict_get. rewrite Hk, (of_value_not_empty _ _ Hd).
    eexists; split; [done|]. by apply of_value_to_value.
  - cbn in Hd. eexists; split; [done|]. by apply of_value_to_value.
  - cbn [Semantics.denote] in Hd. apply bind_Some in Hd as (vs & Evs & Hd).
    destruct (enum_mapM_call_denote product content vs IH Evs 0%nat
                (_get_expected__ cls expected)) as (results & Hres & Hvals).
    rewrite call_Op, Hres. cbn. rewrite Hvals, (_compute__reduce _ _ _ Hd). cbn.
    destruct (py_eq _ _); eexists; split; done.
Qed.

(** [Xor()] without children is false and [Conflict()] without children is
    true; a mixed constraint over a two-variable product; a float below
    an integer, a Boolean equal to the integer it counts as, and a NaN
    that is not even equal to itself. *)
Lemma call_value_denote_witness :
  (∃ r, call (Xor []) ∅ None (VBool true) = Ok r ∧ m_value r = VBool false) ∧
  (∃ r, call (Conflict []) ∅ None (VBool true) = Ok r ∧ m_value r = VBool true) ∧
  (∃ r, call (And [PExp (Lt (PStr "n") (PObj (VInt 3))); PExp (Not (PStr "f"))])
          {[ KStr "n" := VInt 2; KStr "f" := VBool false ]} None (VBool true) = Ok r ∧
        m_value r = VBool true) ∧
  (∃ r, call (Lt (PStr "x") (PObj (VInt 3)))
          {[ KStr "x" := VFloat 2.5%float ]} None (VBool true) = Ok r ∧
        m_value r = VBool true) ∧
  (∃ r, call (Eq_ (PObj (VBool true)) (PObj (VInt 1))) ∅ None (VBool true) = Ok r ∧
        m_value r = VBool true) ∧
  (∃ r, call (Eq_ (PObj (VFloat nan)) (PObj (VFloat nan))) ∅ None (VBool true) = Ok r ∧
        m_value r = VBool false).
Proof.
  split; [|split; [|split; [|split; [|split]]]].
  - apply (call_value_denote (Xor []) ∅ (Semantics.SBool false)). reflexivity.
  - apply (call_value_denote (Conflict []) ∅ (Semantics.SBool true)). reflexivity.
  - apply (call_value_denote _ _ (Semantics.SBool true)). reflexivity.
  - apply (call_value_denote _ _ (Semantics.SBool true)). reflexivity.
  - apply (call_value_denote _ _ (Semantics.SBool true)). reflexivity.
  - apply (call_value_denote _ _ (Semantics.SBool false)). reflexivity.
Defined.

(** C6: [And(True, False)] evaluated with expectation [True] is false,
    hence builds a reason; the reason holds a value mismatch for each of
    the two children, the first of which has the value [True] that was
    expected of it. *)
Theorem mismatch_recorded_for_matching_child :
  call (And [PObj (VBool true); PObj (VBool false)]) ∅ None (VBool true) =
  Ok {| m_value := VBool false;
        m_reason := Some (ReasonTree (RefName "And")
          [ _reason_value_mismatch__c (RefExpr (Lit (VBool true)))
              (of_result (VBool true) None) (VBool true);
            _reason_value_mismatch__c (RefExpr (Lit (VBool false)))
              (of_result (VBool false) None) (VBool true) ]
          [] 2) |}.
Proof. reflexivity. Qed.

(** ** Attribute domains *)

Lemma _check_interval_int (i : zinterval) (z : Z) (v : value) :
  as_int v = Some z →
  _check_interval (interval_of i) v = Ok (bool_decide (lies_in z i)).
Proof.
  intros Hv. destruct i as [lo hi]. unfold _check_interval, interval_of, lies_in. cbn.
  assert (Hlt : ∀ b, py_lt v (VInt b) = Ok (z <? b)).
  { intros b. unfold py_lt. destruct v; simplify_eq/=; unfold Z.ltb;
      by destruct (_ ?= b). }
  assert (Hge : ∀ b, py_ge v (VInt b) = Ok (b <=? z)).
  { intros b. unfold py_ge. destruct v; simplify_eq/=; rewrite Z.leb_antisym;
      unfold Z.ltb; by destruct (_ ?= b). }
  destruct lo as [lo|], hi as [hi|]; cbn; rewrite ?Hlt, ?Hge; cbn;
    try destruct (Z.ltb_spec z lo); try destruct (Z.leb_spec hi z); cbn;
    f_equal; symmetry;
    (apply bool_decide_eq_true || apply bool_decide_eq_false); cbn; lia.
Qed.

Lemma isinstance_int v : isinstance v CInt = true ↔ is_Some (as_int v).
Proof. destruct v; cbn; split; (done || by intros [? [=]] || eauto). Qed.

Lemma _check_domain_loop_int (ivs : list zinterval) (z : Z) (v : value) :
  as_int v = Some z →
  _check_domain_loop (interval_of <$> ivs) v =
  Ok (bool_decide (Exists (lies_in z) ivs)).
Proof.
  intros Hv. induction ivs as [|i ivs IH]; csimpl.
  - done.
  - rewrite (_check_interval_int i z v Hv). cbn.
    destruct (decide (lies_in z i)) as [Hi|Hi].
    + rewrite (bool_decide_eq_true_2 _ Hi). f_equal. symmetry.
      apply bool_decide_eq_true. by left.
    + rewrite (bool_decide_eq_false_2 _ Hi), IH. f_equal.
      apply bool_decide_ext. rewrite Exists_cons. tauto.
Qed.

(** What [Int.__call__] computes, for intervals with integer or absent
    bounds: it never raises. *)
Lemma Int_call_spec (ivs : list zinterval) (v : value) :
  spec_call (Int (interval_of <$> ivs)) v =
  Ok (match as_int v with
      | Some z => bool_decide (ivs = [] ∨ Exists (lies_in z) ivs)
      | None => false
      end).
Proof.
  cbn. destruct (as_int v) as [z|] eqn:Hv.
  - rewrite (proj2 (isinstance_int v)) by (rewrite Hv; eauto).
    unfold _check_domain. destruct ivs as [|i ivs]; [done|].
    change (DeclErrors.nonempty _) with true. cbv iota.
    rewrite (_check_domain_loop_int (i :: ivs) z v Hv). f_equal.
    apply bool_decide_ext. split; [by right|]. by intros [?|?].
  - destruct (isinstance v CInt) eqn:Hi; [|done].
    apply isinstance_int in Hi as [? ?]. congruence.
Qed.

(** C9, as the claim states it, fails: [Int()] has no interval and
    accepts [7]. *)
Lemma Int_without_interval_accepts :
  Int_init [] = Ok (Int []) ∧
  spec_call (Int []) (VInt 7) = Ok true ∧
  ¬ ∃ i : zinterval, i ∈ ([] : list zinterval) ∧ lies_in 7 i.
Proof.
  split; [done|]. split; [done|]. intros (i & Hi & _). by apply elem_of_nil in Hi.
Qed.

(** C9 (amended): [Int] accepts exactly the [int]-typed values lying in one
    of its intervals when it has an interval, and every [int]-typed value
    when it has none.  [Int(0, None)] is the interval from 0 on: it accepts
    every non-negative integer and no float.  [Int(0)] is the interval
    [[0,1)]: it accepts the integer 0 only. *)
Theorem Int_accepts :
  (∀ (ivs : list zinterval) (v : value), ∃ b,
     spec_call (Int (interval_of <$> ivs)) v = Ok b ∧
     (b = true ↔ ∃ z, as_int v = Some z ∧ isinstance v CInt = true ∧
                      (ivs = [] ∨ ∃ i, i ∈ ivs ∧ lies_in z i))) ∧
  Int_init [AVal (VInt 0); AVal VNone] = Ok (Int [interval_of (Some 0, None)]) ∧
  (∀ v, spec_call (Int [interval_of (Some 0, None)]) v = Ok true ↔
        ∃ z, as_int v = Some z ∧ 0 ≤ z) ∧
  (∀ f, spec_call (Int [interval_of (Some 0, None)]) (VFloat f) = Ok false) ∧
  Int_init [AVal (VInt 0)] = Ok (Int [interval_of (Some 0, Some 1)]) ∧
  (∀ v, spec_call (Int [interval_of (Some 0, Some 1)]) v = Ok true ↔
        as_int v = Some 0).
Proof.
  split; [|split; [done|split; [|split; [done|split; [done|]]]]].
  - intros ivs v. eexists. split; [apply Int_call_spec|].
    destruct (as_int v) as [z|] eqn:Hv.
    + rewrite bool_decide_eq_true, Exists_exists. split.
      * intros H. exists z. split; [done|]. split; [|done].
        apply isinstance_int. rewrite Hv; eauto.
      * intros (z' & [= <-] & _ & H). done.
    + split; [done|]. by intros (z & [=] & _).
  - intros v. assert (E := Int_call_spec [(Some 0, None)] v).
    change (interval_of <$> _) with [interval_of (Some 0, None)] in E. rewrite E.
    destruct (as_int v) as [z|].
    + split.
      * intros [= H%bool_decide_eq_true]. exists z. split; [done|].
        destruct H as [[=]|H]. apply Exists_cons in H as [[H _]|H]; [done|].
        by apply Exists_nil in H.
      * intros (z' & [= <-] & Hz). f_equal. apply bool_decide_eq_true.
        right. left. by split.
    + split; [done|]. by intros (z & [=] & _).
  - intros v. assert (E := Int_call_spec [(Some 0, Some 1)] v).
    change (interval_of <$> _) with [interval_of (Some 0, Some 1)] in E. rewrite E.
    destruct (as_int v) as [z|].
    + split.
      * intros [= H%bool_decide_eq_true]. f_equal.
        destruct H as [[=]|H]. apply Exists_cons in H as [[H1 H2]|H].
        -- cbn in H1, H2. lia.
        -- by apply Exists_nil in H.
      * by intros [= ->].
    + split; done.
Qed.

(** ** Feature diagrams *)

Lemma _fd__c_ind' (P : _fd__c → Prop) :
  (∀ cls self m_name m_content m_ctcs m_attributes,
     Forall P m_content → P (FDNode cls self m_name m_content m_ctcs m_attributes)) →
  ∀ f, P f.
Proof.
  intros H. fix IH 1. intros [cls self n content ctcs atts].
  apply H. induction content as [|f content IHc]; constructor; [apply IH | exact IHc].
Qed.

(** What [enum_mapM] returns, element by element. *)
Lemma enum_mapM_Forall2 {A B} (f : nat → A → res B) i l rs :
  enum_mapM f i l = Ok rs →
  Forall2 (fun el r => ∃ j, f j el = Ok r) l rs.
Proof.
  revert i rs. induction l as [|el l IH]; intros i rs H; cbn in H.
  - injection H as <-. constructor.
  - destruct (f i el) as [r|] eqn:Hr; [|done]. cbn in H.
    destruct (enum_mapM f (S i) l) as [rs'|] eqn:Hrs; [|done]. cbn in H.
    injection H as <-. constructor; eauto.
Qed.

(** C8: on a diagram with a cross-tree constraint over two features, the
    first [check()] succeeds without error and replaces the strings of the
    [Var] leaves by the nodes; after [clean()], the second [check()] raises
    [AttributeError] on the first of them. *)
Theorem check_clean_check_raises :
  check ctc_fm =
    Ok (checked ctc_fm, {| m_unbounds := []; m_ambiguities := [] |}) ∧
  cross_tree_constraints (fm_root (checked ctc_fm)) =
    [Op K.Implies [Var (KNode 0); Var (KNode 1)]] ∧
  m_lookup (clean (checked ctc_fm)) = None ∧
  check (clean (checked ctc_fm)) = Raise AttributeError.
Proof. repeat split; vm_compute; reflexivity. Qed.

(** *** Verdict and reason of an evaluation *)

Lemma _eval_generic___eq cls self m_name m_content m_ctcs m_attributes product expected :
  _eval_generic__ (FDNode cls self m_name m_content m_ctcs m_attributes) product expected =
  (let expected_sub := fd_get_expected cls expected in
   results_content ←
     enum_mapM (fun i el => _eval_generic__ el product expected_sub) 0%nat m_content;
   result_att ←
     enum_mapM (fun i el => _manage_attribute__ self el product expected_sub)
       0%nat m_attributes;
   result_ctc ←
     enum_mapM (fun i el => call el product (Some i) expected_sub) 0%nat m_ctcs;
   let nvalue_subs :=
     (m_nvalue <$> results_content) ++ (m_value <$> result_att)
       ++ (m_value <$> result_ctc) in
   let nvalue_sub := fd_compute cls nvalue_subs in
   let value_subs := forallb (fun el => truthy (fd_value el)) results_content in
   let snodes := results_content ≫= m_snodes in
   let '(nvalue_local, reason, snodes) :=
     match m_name with
     | Some _ => check_name self product nvalue_sub snodes
     | None => (VBool nvalue_sub, None, snodes)
     end in
   let verdict := value_subs && is_none reason in
   let reason :=
     finish_reason self nvalue_local expected verdict reason
       ((fd_reason <$> results_content) ++ (m_reason <$> result_att)
          ++ (m_reason <$> result_ctc)) in
   Ok (mk_eval_result_fd (VBool verdict) reason nvalue_local snodes)).
Proof. reflexivity. Qed.

Lemma add_local_bool t r : ReasonTree.__bool__ (ReasonTree.add_local t r) = true.
Proof. by destruct t. Qed.

Lemma add_reason_sub_bool t sub :
  ReasonTree.__bool__ t = true ∨ ReasonTree.truthy sub = true →
  ReasonTree.__bool__ (ReasonTree.add_reason_sub t sub) = true.
Proof.
  destruct t as [n l s c], sub as [r|]; cbn.
  - destruct (ReasonTree.__bool__ r); cbn; intros [?|?]; done.
  - intros [?|?]; done.
Qed.

Lemma foldl_add_reason_sub_bool subs t :
  ReasonTree.__bool__ t = true ∨ (∃ sub, sub ∈ subs ∧ ReasonTree.truthy sub = true) →
  ReasonTree.__bool__ (foldl ReasonTree.add_reason_sub t subs) = true.
Proof.
  revert t. induction subs as [|sub subs IH]; intros t H; cbn.
  - destruct H as [H|(sub & Hin & _)]; [done|]. by apply elem_of_nil in Hin.
  - apply IH. destruct H as [H|(sub' & Hin & Hs)].
    + left. apply add_reason_sub_bool. by left.
    + apply elem_of_cons in Hin as [->|Hin].
      * left. apply add_reason_sub_bool. by right.
      * right. eauto.
Qed.

Lemma update_ref_count updater t :
  ReasonTree.m_count (ReasonTree.update_ref updater t) = ReasonTree.m_count t.
Proof. by destruct t. Qed.

(** A reason found by [check_name] holds a local reason. *)
Lemma check_name_reason self product nvalue_sub snodes nvalue_local t snodes' :
  check_name self product nvalue_sub snodes = (nvalue_local, Some t, snodes') →
  ReasonTree.__bool__ t = true.
Proof.
  unfold check_name. repeat case_match; intros; simplify_eq; done.
Qed.

(** The reason [_eval_generic__] returns is empty exactly when the
    verdict is true and the local value is the expected one. *)
Lemma finish_reason_truthy self nvalue_local expected verdict reason subs :
  (∀ t, reason = Some t → ReasonTree.__bool__ t = true) →
  (verdict = true → reason = None) →
  (verdict = false → reason = None →
     ∃ sub, sub ∈ subs ∧ ReasonTree.truthy sub = true) →
  ReasonTree.truthy (finish_reason self nvalue_local expected verdict reason subs) =
  negb (verdict && py_eq nvalue_local expected).
Proof.
  intros Hreason Hverdict Hsubs. unfold finish_reason.
  destruct (py_eq nvalue_local expected) eqn:Heq; cbn [negb orb andb].
  - destruct verdict; cbn [negb].
    + by rewrite Hverdict.
    + cbn. apply foldl_add_reason_sub_bool.
      destruct reason as [t|]; [left; by apply Hreason|right; by apply Hsubs].
  - rewrite andb_false_r. cbn. apply foldl_add_reason_sub_bool. left.
    apply add_local_bool.
Qed.

Lemma forallb_false_elem {A} (f : A → bool) l :
  forallb f l = false → ∃ x, x ∈ l ∧ f x = false.
Proof.
  induction l as [|x l IH]; [done|]. cbn. destruct (f x) eqn:Hx.
  - intros (y & Hy & Hf)%IH. exists y. split; [by right|done].
  - intros _. exists x. split; [by left|done].
Qed.

Lemma _eval_generic___coherent f product expected r :
  _eval_generic__ f product expected = Ok r → coherent expected r.
Proof.
  revert expected r.
  induction f as [cls self m_name m_content m_ctcs m_attributes IH] using _fd__c_ind'.
  intros expected r. rewrite _eval_generic___eq. cbv zeta.
  destruct (enum_mapM _ _ m_content) as [results_content|] eqn:Hc; [|done].
  destruct (enum_mapM _ _ m_attributes) as [result_att|]; [|done].
  destruct (enum_mapM _ _ m_ctcs) as [result_ctc|]; [|done]. cbn [mbind res_bind].
  assert (Hres : Forall (coherent (fd_get_expected cls expected)) results_content).
  { apply enum_mapM_Forall2 in Hc. clear -Hc IH. induction Hc as [|el x l rs [j Hx] _ IHc].
    - constructor.
    - apply Forall_cons in IH as [Hel IH]. constructor; [by eapply Hel|by apply IHc]. }
  destruct (match m_name with
            | Some _ => check_name _ _ _ _
            | None => _
            end) as [[nvalue_local reason] snodes] eqn:Hname.
  intros [= <-]. exists (forallb (fun el => truthy (fd_value el)) results_content
                       && is_none reason).
  split; [done|]. cbn [fd_reason m_nvalue]. apply finish_reason_truthy.
  - intros t ->. destruct m_name; [|by simplify_eq]. by eapply check_name_reason.
  - intros [_ H]%andb_prop. by destruct reason.
  - intros Hv ->. rewrite andb_true_r in Hv.
    apply forallb_false_elem in Hv as (el & Hin & Hel).
    eapply Forall_forall in Hres as (b & Hb & Hr); [|exact Hin].
    exists (fd_reason el). split.
    + apply elem_of_app. left. apply list_elem_of_fmap. eauto.
    + rewrite Hr. rewrite Hb in Hel. cbn in Hel. by destruct b.
Qed.

(** C2, as the claim states it, fails: on the model made of the single
    feature [A], checked without error, the product that sets [A] to
    [False] is evaluated to a true verdict with a reason holding one value
    mismatch. *)
Lemma unselected_leaf_true_with_reason :
  check leaf_fm = Ok (checked leaf_fm, {| m_unbounds := []; m_ambiguities := [] |}) ∧
  fm_call (checked leaf_fm) {[ KNode 0%nat := VBool false ]} (VBool true) =
    Ok {| fd_value := VBool true;
          fd_reason := Some (ReasonTree (RefName "A")
            [_reason_value_mismatch__c (RefName "A") (of_value (VBool false)) (VBool true)]
            [] 1);
          m_nvalue := VBool false;
          m_snodes := [] |} ∧
  ReasonTree.truthy (Some (ReasonTree (RefName "A")
            [_reason_value_mismatch__c (RefName "A") (of_value (VBool false)) (VBool true)]
            [] 1)) = true.
Proof. repeat split; vm_compute; reflexivity. Qed.

(** C2 (amended): whenever the evaluation of a model returns a result, its
    verdict is a Boolean and its reason is empty exactly when the verdict
    is true and the value of the root (its value in the product if it is
    named, the value of its group otherwise) is the expected one. *)
Theorem fm_call_reason_empty_iff (fm : fm_t) (product : product_t) (expected : value)
    (r : _eval_result_fd__c) :
  fm_call fm product expected = Ok r →
  (∃ b, fd_value r = VBool b) ∧
  (ReasonTree.truthy (fd_reason r) = false ↔
   fd_value r = VBool true ∧ py_eq (m_nvalue r) expected = true).
Proof.
  unfold fm_call. destruct (m_dom fm) as [dom|]; [|done].
  destruct (_eval_generic__ _ _ _) as [r0|] eqn:Hr0; [|done]. cbn [mbind res_bind].
  apply _eval_generic___coherent in Hr0 as (b & Hb & Ht).
  assert (Hgoal : ∀ rs, ReasonTree.truthy rs = ReasonTree.truthy (fd_reason r0) →
            (∃ b, fd_value r0 = VBool b) ∧
            (ReasonTree.truthy rs = false ↔
             fd_value r0 = VBool true ∧ py_eq (m_nvalue r0) expected = true)).
  { intros rs ->. split; [eauto|]. rewrite Ht, Hb.
    destruct b, (py_eq (m_nvalue r0) expected); cbn; split; (done || by intros [? ?]). }
  destruct (fd_reason r0) as [reason|] eqn:Hreason.
  - destruct (ReasonTree.__bool__ reason) eqn:Hbool; intros [= <-]; cbn.
    + apply (Hgoal (Some (ReasonTree.update_ref (_updater__ dom) reason))).
      cbn. unfold ReasonTree.__bool__. by rewrite update_ref_count.
    + rewrite Hreason. by apply Hgoal.
  - intros [= <-]. rewrite Hreason. by apply Hgoal.
Qed.

(** The configuration of the hello-world test is accepted with an empty
    reason. *)
Lemma fm_call_reason_empty_iff_witness :
  (∃ b, VBool true = VBool b) ∧
  (ReasonTree.truthy None = false ↔
   VBool true = VBool true ∧ py_eq (VBool true) (VBool true) = true).
Proof.
  apply (fm_call_reason_empty_iff (checked hello_world_fm) conf_1 (VBool true)
           {| fd_value := VBool true; fd_reason := None; m_nvalue := VBool true;
              m_snodes := [2; 4; 0]%nat |}).
  vm_compute. reflexivity.
Defined.

(** *** The duplicate check *)

Lemma sublist_tail {A} (x : A) l k : sublist (x :: l) k → sublist l k.
Proof. intros H. etrans; [|exact H]. by apply sublist_cons. Qed.

(** [_path_includes__(p, q)]: [q] is a subsequence of [p]. *)
Lemma _path_includes___sublist (p q : path_t) :
  _path_includes__ p q = true ↔ sublist q p.
Proof.
  revert q. induction p as [|x xs IH]; intros [|y ys]; cbn.
  - split; [constructor|done].
  - split; [done|]. by intros ?%sublist_nil_r.
  - split; [intros _; apply sublist_nil_l|done].
  - rewrite sublist_cons_r. destruct (String.eqb_spec x y) as [->|Hne].
    + rewrite IH. split.
      * intros H. right. eauto.
      * intros [H|(l' & [= <-] & H')]; [by eapply sublist_tail|done].
    + rewrite IH. split; [by left|].
      intros [H|(l' & [= ? ?] & H')]; [done|congruence].
Qed.


Lemma _check_duplicate___spec el n p lookup errors :
  _check_duplicate__ el n p lookup errors =
  (<[n := prior lookup n ++ [(el, p)]]> lookup,
   {| m_unbounds :=
        m_unbounds errors ++
        (if DeclErrors.nonempty (included_in p (prior lookup n))
         then [_ambiguous__c n (Some p) (included_in p (prior lookup n))]
         else []);
      m_ambiguities := m_ambiguities errors |}).
Proof.
  unfold _check_duplicate__, prior, included_in. destruct errors as [unb amb].
  destruct (lookup !! n) as [tmp|]; cbn.
  - f_equal. destruct (DeclErrors.nonempty _); cbn; [done|]. by rewrite app_nil_r.
  - f_equal. by rewrite app_nil_r.
Qed.

Lemma scan_step_spec lookup ds n el p :
  scan_step (lookup, ds) (n, el, p) =
  (<[n := prior lookup n ++ [(el, p)]]> lookup,
   ds ++ (if DeclErrors.nonempty (included_in p (prior lookup n))
          then [_ambiguous__c n (Some p) (included_in p (prior lookup n))]
          else [])).
Proof. unfold scan_step. cbn. by rewrite _check_duplicate___spec. Qed.

(** The state of the traversal the duplicate check depends on. *)
Lemma _check_duplicate___scan el n p lookup errors lookup' errors' :
  _check_duplicate__ el n p lookup errors = (lookup', errors') →
  m_ambiguities errors' = m_ambiguities errors ∧
  (lookup', duplicates errors') = scan_step (lookup, duplicates errors) (n, el, p).
Proof.
  rewrite _check_duplicate___spec, scan_step_spec. intros [= <- <-]. split; [done|].
  unfold duplicates. cbn. rewrite filter_app. do 2 f_equal.
  by destruct (DeclErrors.nonempty _).
Qed.

(** Resolving a reference adds no diagnostic of the duplicate check. *)
Lemma _path_check_exists___duplicates k mapping errors path k' errors' :
  _path_check_exists__ k mapping errors path = Ok (k', errors') →
  m_ambiguities errors' = m_ambiguities errors ∧ duplicates errors' = duplicates errors.
Proof.
  unfold _path_check_exists__, duplicates. destruct k as [s| | |]; try done.
  destruct (last_item _) as [n|]; [|done]. cbn [mbind res_bind].
  destruct (mapping !! n) as [decls|].
  - destruct (filter _ decls) as [|el [|el' refs]]; intros [= <- <-]; cbn;
      rewrite ?filter_app, ?app_nil_r; done.
  - intros [= <- <-]; cbn. by rewrite filter_app, app_nil_r.
Qed.

(** A stateful map whose steps preserve a property of the state. *)
Lemma enum_mapM_st_preserves {A B T} (f : nat → A → T → res (B * T)) (I : T → Prop)
    l i s rs s' :
  Forall (fun el => ∀ j s r s', f j el s = Ok (r, s') → I s → I s') l →
  enum_mapM_st f i l s = Ok (rs, s') →
  I s → I s'.
Proof.
  intros HF. revert i s rs s'.
  induction HF as [|el l Hel _ IH]; intros i s rs s' H Hs; cbn in H.
  - by injection H as <- <-.
  - destruct (f i el s) as [[r s1]|] eqn:Hf; [|done]. cbn in H.
    destruct (enum_mapM_st f (S i) l s1) as [[rs1 s2]|] eqn:Hl; [|done]. cbn in H.
    injection H as <- <-. eapply IH; [exact Hl|]. by eapply Hel.
Qed.

Lemma _check_declarations___duplicates e path mapping errors e' errors' :
  _check_declarations__ e path mapping errors = Ok (e', errors') →
  m_ambiguities errors' = m_ambiguities errors ∧ duplicates errors' = duplicates errors.
Proof.
  revert errors e' errors'. induction e as [k|v|cls content IH] using expr_ind';
    intros errors e' errors' H; cbn in H.
  - destruct (_path_check_exists__ _ _ _ _) as [[k' errs]|] eqn:Hk; [|done].
    cbn in H. injection H as <- <-. by eapply _path_check_exists___duplicates.
  - by injection H as <- <-.
  - destruct (enum_mapM_st _ _ content errors) as [[content' errs]|] eqn:Hc; [|done].
    cbn in H. injection H as <- <-.
    eapply (enum_mapM_st_preserves _
              (fun errs => m_ambiguities errs = m_ambiguities errors ∧
                           duplicates errs = duplicates errors)); [|exact Hc|done].
    eapply Forall_impl; [exact IH|]. cbn. intros el Hel j s r s' Hs [H1 H2].
    destruct (Hel _ _ _ Hs) as [H3 H4]. split; congruence.
Qed.

Lemma check_ctcs_duplicates ctcs path mapping errors ctcs' errors' :
  check_ctcs ctcs path mapping errors = Ok (ctcs', errors') →
  m_ambiguities errors' = m_ambiguities errors ∧ duplicates errors' = duplicates errors.
Proof.
  unfold check_ctcs. intros Hc.
  eapply (enum_mapM_st_preserves _
            (fun errs => m_ambiguities errs = m_ambiguities errors ∧
                         duplicates errs = duplicates errors)); [|exact Hc|done].
  apply Forall_forall. intros el _ j s r s' Hs [H1 H2].
  destruct (_check_declarations___duplicates _ _ _ _ _ _ Hs) as [H3 H4].
  split; congruence.
Qed.

Lemma _generate_lookup_rec___eq cls self m_name m_content m_ctcs m_attributes
    path_to_self idx t :
  _generate_lookup_rec__ (FDNode cls self m_name m_content m_ctcs m_attributes)
    path_to_self idx t =
  (let local_path :=
     path_to_self ++ [match m_name with None => pretty idx | Some n => n end] in
   let t :=
     match m_name with
     | Some n =>
         let '(lookup, dom, errors) := t in
         let '(lookup, errors) :=
           _check_duplicate__ (KNode self) n local_path lookup errors in
         (lookup, <[KNode self := _path_to_str__ (Some local_path)]> dom, errors)
     | None => t
     end in
   '(m_content, t) ←
     enum_mapM_st (fun i sub t => _generate_lookup_rec__ sub local_path i t)
       0%nat m_content t;
   let '(lookup, dom, errors) := foldl (add_attribute local_path) t m_attributes in
   '(m_ctcs, errors) ← check_ctcs m_ctcs local_path lookup errors;
   Ok (FDNode cls self m_name m_content m_ctcs m_attributes, (lookup, dom, errors))).
Proof. reflexivity. Qed.

Lemma add_attributes_scan local_path atts t :
  m_ambiguities (foldl (add_attribute local_path) t atts).2 = m_ambiguities t.2 ∧
  watched (foldl (add_attribute local_path) t atts) =
  foldl scan_step (watched t)
    ((fun att : att_def => (att.1, att_key att, local_path)) <$> atts).
Proof.
  revert t. induction atts as [|att atts IH]; intros t; [done|]. cbn [foldl fmap list_fmap].
  destruct (IH (add_attribute local_path t att)) as [-> ->].
  destruct t as [[lookup dom] errors]. unfold add_attribute.
  destruct (_check_duplicate__ _ _ _ _ _) as [lookup' errors'] eqn:Hd.
  apply _check_duplicate___scan in Hd as [Ha Hs]. cbn. split; [done|].
  unfold watched in *. cbn in *. by rewrite Hs.
Qed.

Lemma children_scan (local_path : path_t) content :
  Forall (fun f => ∀ path idx t f' t',
            _generate_lookup_rec__ f path idx t = Ok (f', t') →
            m_ambiguities t'.2 = m_ambiguities t.2 ∧
            watched t' = foldl scan_step (watched t) (declarations f path idx)) content →
  ∀ i t content' t',
    enum_mapM_st (fun i sub t => _generate_lookup_rec__ sub local_path i t) i content t
      = Ok (content', t') →
    m_ambiguities t'.2 = m_ambiguities t.2 ∧
    watched t' =
    foldl scan_step (watched t)
      (enum_bind (fun i sub => declarations sub local_path i) i content).
Proof.
  induction 1 as [|f content Hf _ IH]; intros i t content' t' H; cbn in H.
  - by injection H as <- <-.
  - destruct (_generate_lookup_rec__ f local_path i t) as [[f1 t1]|] eqn:H1; [|done].
    cbn in H.
    destruct (enum_mapM_st _ (S i) content t1) as [[c2 t2]|] eqn:H2; [|done].
    cbn in H. injection H as <- <-.
    destruct (Hf _ _ _ _ _ H1) as [Ha1 Hw1]. destruct (IH _ _ _ _ H2) as [Ha2 Hw2].
    split; [congruence|]. cbn [enum_bind]. by rewrite foldl_app, <- Hw1.
Qed.

(** The traversal runs the duplicate check on the declarations of the
    diagram, in order, and leaves [m_ambiguities] as it is. *)
Lemma _generate_lookup_rec___scan f path idx t f' t' :
  _generate_lookup_rec__ f path idx t = Ok (f', t') →
  m_ambiguities t'.2 = m_ambiguities t.2 ∧
  watched t' = foldl scan_step (watched t) (declarations f path idx).
Proof.
  revert path idx t f' t'.
  induction f as [cls self m_name m_content m_ctcs m_attributes IH] using _fd__c_ind'.
  intros path idx t f' t'. rewrite _generate_lookup_rec___eq. cbv zeta.
  set (local_path := path ++ [match m_name with None => pretty idx | Some n => n end]).
  set (t1 := match m_name with Some n => _ | None => t end).
  assert (H1 : m_ambiguities t1.2 = m_ambiguities t.2 ∧
               watched t1 = foldl scan_step (watched t)
                 (match m_name with
                  | Some n => [(n, KNode self, local_path)]
                  | None => []
                  end)).
  { subst t1. destruct m_name as [n|]; [|done]. destruct t as [[lookup dom] errors].
    destruct (_check_duplicate__ _ _ _ _ _) as [lookup' errors'] eqn:Hd.
    apply _check_duplicate___scan in Hd as [Ha Hs]. cbn. split; [done|].
    unfold watched. cbn. by rewrite Hs. }
  clearbody t1. destruct H1 as [Ha1 Hw1].
  destruct (enum_mapM_st _ _ m_content t1) as [[content' t2]|] eqn:Hc; [|done].
  cbn [mbind res_bind].
  destruct (children_scan local_path m_content IH _ _ _ _ Hc) as [Ha2 Hw2].
  destruct (add_attributes_scan local_path m_attributes t2) as [Ha3 Hw3].
  destruct (foldl (add_attribute local_path) t2 m_attributes) as [[lookup dom] errors].
  destruct (check_ctcs _ _ _ _) as [[ctcs' errors']|] eqn:Hctc; [|done].
  cbn [mbind res_bind]. intros [= <- <-].
  apply check_ctcs_duplicates in Hctc as [Ha4 Hw4]. cbn in *. split; [congruence|].
  unfold declarations; fold declarations. fold local_path.
  rewrite !foldl_app, <- Hw1, <- Hw2, <- Hw3. unfold watched. cbn. by rewrite Hw4.
Qed.

Lemma declared_as_elem n decls el p :
  (el, p) ∈ declared_as n decls ↔ (n, el, p) ∈ decls.
Proof.
  unfold declared_as. rewrite list_elem_of_omap. split.
  - intros ([[n' el'] p'] & Hin & H). cbn in H. case_decide; simplify_eq. done.
  - intros Hin. exists (n, el, p). split; [done|]. cbn. by rewrite decide_True.
Qed.

Lemma declared_as_snoc n decls n' el p :
  declared_as n (decls ++ [(n', el, p)]) =
  declared_as n decls ++ (if decide (n' = n) then [(el, p)] else []).
Proof. unfold declared_as. rewrite omap_app. cbn. by case_decide. Qed.

Lemma nonempty_true {A} (l : list A) : DeclErrors.nonempty l = true ↔ l ≠ [].
Proof. by destruct l. Qed.

(** The duplicate check run on a list of declarations from empty tables:
    the table holds the declarations by name, and a diagnostic stands for
    each declaration whose path includes the path of an earlier
    declaration of the same name. *)
Lemma scan_declarations decls lookup ds :
  foldl scan_step (∅, []) decls = (lookup, ds) →
  (∀ n, prior lookup n = declared_as n decls) ∧
  (∀ e, e ∈ ds ↔
        ∃ l1 n el p l2,
          decls = l1 ++ (n, el, p) :: l2 ∧
          included_in p (declared_as n l1) ≠ [] ∧
          e = _ambiguous__c n (Some p) (included_in p (declared_as n l1))).
Proof.
  revert lookup ds. induction decls as [|[[n el] p] decls IH] using rev_ind;
    intros lookup ds H.
  - cbn in H. injection H as <- <-. split; [done|]. intros e. split.
    + by intros ?%elem_of_nil.
    + intros (l1 & ? & ? & ? & l2 & Hl & _). by destruct l1.
  - rewrite foldl_app in H. cbn [foldl] in H.
    destruct (foldl scan_step (∅, []) decls) as [lookup0 ds0].
    destruct (IH _ _ eq_refl) as [Hprior Hds]. rewrite scan_step_spec in H.
    injection H as <- <-. split.
    + intros m. rewrite declared_as_snoc. unfold prior at 1.
      destruct (decide (n = m)) as [->|Hne].
      * rewrite lookup_insert_eq. cbn. by rewrite Hprior.
      * rewrite lookup_insert_ne by done. fold (prior lookup0 m).
        by rewrite Hprior, app_nil_r.
    + intros e. rewrite elem_of_app, Hds, Hprior. split.
      * intros [(l1 & n0 & el0 & p0 & l2 & -> & Hne & ->)|He].
        -- exists l1, n0, el0, p0, (l2 ++ [(n, el, p)]).
           by rewrite <- app_assoc.
        -- destruct (DeclErrors.nonempty _) eqn:Hn; [|by apply elem_of_nil in He].
           apply list_elem_of_singleton in He as ->.
           exists decls, n, el, p, []. by apply nonempty_true in Hn.
      * intros (l1 & n0 & el0 & p0 & l2 & Hl & Hne & ->).
        destruct l2 as [|d l2 _] using rev_ind.
        -- apply app_inj_tail in Hl as [-> [= -> -> ->]]. right.
           apply nonempty_true in Hne. rewrite Hne. by left.
        -- rewrite app_comm_cons, app_assoc in Hl.
           apply app_inj_tail in Hl as [-> _]. left.
           by exists l1, n0, el0, p0, l2.
Qed.




(** ** Product normal form *)

Lemma _make_product_rec_1_eq cls self m_name m_content m_ctcs m_attributes is_true_d :
  _make_product_rec_1 (FDNode cls self m_name m_content m_ctcs m_attributes) is_true_d =
  (let f := FDNode cls self m_name m_content m_ctcs m_attributes in
   let is_true_d := infer_and_update f is_true_d in
   let is_true_d :=
     foldl (fun is_true_d sub => _make_product_rec_1 sub is_true_d) is_true_d m_content in
   infer_and_update f is_true_d).
Proof. reflexivity. Qed.

Lemma _make_product_rec_2_eq cls self m_name m_content m_ctcs m_attributes
    v_local is_true_d res :
  _make_product_rec_2 (FDNode cls self m_name m_content m_ctcs m_attributes)
    v_local is_true_d res =
  (let f := FDNode cls self m_name m_content m_ctcs m_attributes in
   let res := <[KNode self := v_local]> res in
   let res :=
     fold_zip
       (fun sub v_sub res =>
          _make_product_rec_2 sub (if is_empty v_sub then VBool false else v_sub)
            is_true_d res)
       m_content (_infer_sv__ f is_true_d).2 res in
   if truthy v_local then add_attributes is_true_d m_attributes res else res).
Proof.
  cbn [_make_product_rec_2]. by destruct (_infer_sv__ _ _) as [[idx v] v_subs].
Qed.

(** *** Normalisation of no partial product *)

Section quiet.

Variable is_true_d : is_true_t.
Hypothesis Hquiet : quiet is_true_d.

Lemma extract_latest_quiet domain :
  extract_latest is_true_d (-1) VEmpty domain = (-1, VEmpty).
Proof.
  induction domain as [|k domain IH]; [done|]. cbn.
  destruct (is_true_d !! k) as [v|] eqn:Hk; [|done].
  by rewrite (Hquiet _ _ Hk).
Qed.

Lemma get_default_quiet k : low (get_default is_true_d (-1) VEmpty k).
Proof.
  unfold get_default. destruct (is_true_d !! k) as [v|] eqn:Hk; [|by left].
  rewrite (Hquiet _ _ Hk). by right.
Qed.

Lemma extract_expected_quiet domain :
  ∃ v_subs,
    extract_expected is_true_d (VBool true) (-1) domain = (-1, v_subs) ∧
    length v_subs = length domain ∧ Forall low v_subs.
Proof.
  induction domain as [|k domain (v_subs & IH & Hlen & Hlow)]; cbn.
  - by exists [].
  - destruct (is_true_d !! k) as [v|] eqn:Hk.
    + rewrite (Hquiet _ _ Hk). cbn. rewrite IH. eexists. split; [done|].
      split; [by cbn; rewrite Hlen|]. constructor; [by right|done].
    + rewrite IH. eexists. split; [done|].
      split; [by cbn; rewrite Hlen|]. constructor; [by left|done].
Qed.

Lemma infer_local_quiet self : infer_local is_true_d self (-1) = (-1, VBool false).
Proof.
  unfold infer_local, dict_get. destruct (is_true_d !! KNode self) as [v|] eqn:Hk; [|done].
  by rewrite (Hquiet _ _ Hk).
Qed.

(** Nothing is inferred from a quiet table. *)
Lemma _infer_sv___quiet f :
  ∃ v_local v_subs,
    _infer_sv__ f is_true_d = (-1, v_local, v_subs) ∧
    low v_local ∧ length v_subs = length (children f) ∧ Forall low v_subs.
Proof.
  destruct f as [cls self n content ctcs atts]. unfold _infer_sv__. cbn [children].
  destruct cls.
  - rewrite extract_latest_quiet. eexists _, _. split; [done|].
    split; [apply get_default_quiet|]. split; [by rewrite !length_fmap|].
    apply Forall_fmap, Forall_forall. intros k _. apply get_default_quiet.
  - destruct (extract_expected_quiet (node_key <$> content)) as (v_subs & -> & Hl & Hlow).
    rewrite infer_local_quiet. eexists _, _. split; [done|].
    split; [by right|]. by rewrite Hl, length_fmap.
  - destruct (extract_expected_quiet (node_key <$> content)) as (v_subs & -> & Hl & Hlow).
    rewrite infer_local_quiet. eexists _, _. split; [done|].
    split; [by right|]. by rewrite Hl, length_fmap.
  - destruct (extract_expected_quiet (node_key <$> content)) as (v_subs & -> & Hl & Hlow).
    rewrite infer_local_quiet. change (-1 <? -1) with false. cbv iota.
    eexists _, _. split; [done|].
    split; [by right|]. by rewrite Hl, length_fmap.
Qed.

End quiet.

Lemma quiet_insert is_true_d k v :
  quiet is_true_d → low v →
  quiet (if is_empty v then is_true_d else <[k := (v, -1)]> is_true_d).
Proof.
  intros Hq [->| ->]; [done|]. cbn. intros k' v' Hk.
  apply lookup_insert_Some in Hk as [[_ <-]|[_ Hk]]; [done|by eapply Hq].
Qed.

Lemma update_subs_quiet content v_subs is_true_d :
  quiet is_true_d → Forall low v_subs →
  quiet (update_subs is_true_d (-1) content v_subs).
Proof.
  unfold update_subs. intros Hq Hlow. revert content is_true_d Hq.
  induction Hlow as [|v v_subs Hv _ IH]; intros [|sub content] is_true_d Hq; try done.
  cbn. apply IH. by apply quiet_insert.
Qed.

Lemma infer_and_update_quiet f is_true_d :
  quiet is_true_d → quiet (infer_and_update f is_true_d).
Proof.
  intros Hq. unfold infer_and_update.
  destruct (_infer_sv___quiet _ Hq f) as (v_local & v_subs & -> & Hv & _ & Hlow).
  unfold _make_product_update__. apply update_subs_quiet; [|done].
  by apply quiet_insert.
Qed.

Lemma _make_product_rec_1_quiet f is_true_d :
  quiet is_true_d → quiet (_make_product_rec_1 f is_true_d).
Proof.
  revert is_true_d.
  induction f as [cls self n content ctcs atts IH] using _fd__c_ind'.
  intros is_true_d Hq. rewrite _make_product_rec_1_eq. cbv zeta.
  apply infer_and_update_quiet.
  assert (Hq' := infer_and_update_quiet (FDNode cls self n content ctcs atts) _ Hq).
  revert Hq'. generalize (infer_and_update (FDNode cls self n content ctcs atts) is_true_d).
  induction IH as [|sub content Hsub _ IHc]; intros d Hd; [done|].
  cbn. apply IHc. by apply Hsub.
Qed.

(** The second pass over a quiet table writes [False] for every node and
    nothing else. *)
Lemma _make_product_rec_2_quiet is_true_d f res k :
  quiet is_true_d →
  _make_product_rec_2 f (VBool false) is_true_d res !! k =
  if decide (k ∈ KNode <$> nodes f) then Some (VBool false) else res !! k.
Proof.
  intros Hq. revert res.
  induction f as [cls self n content ctcs atts IH] using _fd__c_ind'.
  intros res. rewrite _make_product_rec_2_eq. cbv zeta. cbn [truthy].
  destruct (_infer_sv___quiet _ Hq (FDNode cls self n content ctcs atts))
    as (v_local & v_subs & -> & _ & Hlen & Hlow). cbn [snd children] in *.
  assert (Hsubs : ∀ res,
    fold_zip (fun sub v_sub res =>
                _make_product_rec_2 sub (if is_empty v_sub then VBool false else v_sub)
                  is_true_d res) content v_subs res !! k =
    if decide (k ∈ KNode <$> (content ≫= nodes)) then Some (VBool false) else res !! k).
  { clear -IH Hlen Hlow. revert v_subs Hlen Hlow.
    induction IH as [|sub content Hsub _ IHc]; intros [|v v_subs] Hlen Hlow res;
      try done.
    apply Forall_cons in Hlow as [Hv Hlow]. cbn [fold_zip].
    rewrite IHc by (done || by injection Hlen).
    replace (if is_empty v then VBool false else v) with (VBool false)
      by (by destruct Hv as [->| ->]).
    rewrite Hsub. cbn [mbind list_bind]. rewrite fmap_app.
    repeat case_decide; try done; set_solver. }
  rewrite Hsubs. cbn [nodes]. rewrite fmap_cons.
  destruct (decide (k = KNode self)) as [->|Hne].
  - rewrite lookup_insert_eq. repeat case_decide; try done; set_solver.
  - rewrite lookup_insert_ne by done. repeat case_decide; try done; set_solver.
Qed.

(** C10: on a checked model, [nf_product()] without partial product
    returns no error and the product that maps every node of the diagram,
    named or not, to [False] and has no other key, hence no attribute. *)
Theorem nf_product_no_partial (fm : fm_t) (lookup : lookup_t) :
  m_lookup fm = Some lookup →
  ∃ res,
    nf_product fm [] = Ok (res, DeclErrors.init) ∧
    ∀ k, res !! k =
         if decide (k ∈ KNode <$> nodes (fm_root fm)) then Some (VBool false) else None.
Proof.
  intros Hl. unfold nf_product. rewrite Hl. cbn [ingest mbind res_bind].
  assert (Hq : quiet (_make_product_rec_1 (fm_root fm) ∅)).
  { apply _make_product_rec_1_quiet. intros k v Hk. by rewrite lookup_empty in Hk. }
  eexists. split; [reflexivity|]. intros k.
  replace (match _make_product_rec_1 (fm_root fm) ∅ !! node_key (fm_root fm) with
           | Some v => v.1
           | None => VBool false
           end) with (VBool false).
  - rewrite (_make_product_rec_2_quiet _ _ _ _ Hq). by rewrite lookup_empty.
  - destruct (_ !! node_key (fm_root fm)) as [v|] eqn:Hk; [|done].
    by rewrite (Hq _ _ Hk).
Qed.

(** The hello-world model: its five nodes are unselected. *)
Lemma nf_product_no_partial_witness :
  ∃ res,
    nf_product (checked hello_world_fm) [] = Ok (res, DeclErrors.init) ∧
    ∀ k, res !! k =
         if decide (k ∈ KNode <$> nodes (fm_root (checked hello_world_fm)))
         then Some (VBool false) else None.
Proof.
  apply (nf_product_no_partial (checked hello_world_fm)
           (default ∅ (m_lookup (checked hello_world_fm)))).
  vm_compute. reflexivity.
Defined.

(** *** Ingestion of the partial products *)

Lemma split_on_nonempty sep s : split_on sep s ≠ [].
Proof.
  destruct s as [|c s]; cbn; [done|].
  destruct (Ascii.eqb c sep); [done|]. by destruct (split_on sep s).
Qed.

(** Resolving a textual key never raises, and the key it yields does not
    depend on the accumulator. *)
Lemma _path_check_exists___str s mapping path :
  ∃ k, ∀ errors, ∃ errors',
    _path_check_exists__ (KStr s) mapping errors path = Ok (k, errors').
Proof.
  unfold _path_check_exists__, last_item.
  destruct (last (_path_from_str__ s)) as [n|] eqn:Hlast.
  - cbn [mbind res_bind]. destruct (mapping !! n) as [decls|].
    + destruct (filter _ decls) as [|el [|el' refs]]; eexists; intros errors; eauto.
    + eexists; intros errors; eauto.
  - apply last_None in Hlast. by apply split_on_nonempty in Hlast.
Qed.

Lemma normalize_items_total lookup items :
  ∀ acc, ∃ q, ∀ errors, ∃ errors',
    normalize_items lookup items acc errors = Ok (q, errors').
Proof.
  induction items as [|[k val] items IH]; intros acc; cbn [normalize_items].
  - eexists; intros errors; eauto.
  - destruct k as [s| | |]; try apply IH.
    destruct (_path_check_exists___str s lookup []) as (k & Hk).
    destruct (IH (<[k:=val]> acc)) as (q & Hq). exists q. intros errors.
    destruct (Hk errors) as (errors1 & ->). cbn [mbind res_bind]. apply Hq.
Qed.

Lemma _normalize_product___resolved fm lookup p errors :
  ∃ errors', _normalize_product__ fm lookup p errors = Ok (resolved fm lookup p, errors').
Proof.
  unfold resolved, _normalize_product__.
  destruct (normalize_items_total lookup
              (match m_norm fm with Some norm => norm p | None => p end) ∅) as (q & Hq).
  destruct (Hq DeclErrors.init) as (e0 & ->). apply Hq.
Qed.

(** The table after ingestion: the entries it had, or an item of a partial
    product with its index. *)
Lemma ingest_bounded fm lookup args :
  ∀ i is_true_d errors k,
    0 ≤ i → bounded (i - 1) is_true_d → k = i + Z.of_nat (length args) - 1 →
    ∃ d errors', ingest fm lookup i args is_true_d errors = Ok (d, errors') ∧ bounded k d.
Proof.
  induction args as [|p args IH]; intros i d errors k Hi Hb ->; cbn [ingest].
  - eexists _, _. split; [done|]. cbn. by replace (i + Z.of_nat 0 - 1) with (i - 1) by lia.
  - destruct (_normalize_product___resolved fm lookup p errors) as (errors1 & ->).
    cbn [mbind res_bind]. eapply IH; [lia| |cbn [length]; lia].
    intros key v j Hk. apply lookup_union_Some_raw in Hk as [Hk|[_ Hk]].
    + rewrite lookup_fmap in Hk. destruct (resolved fm lookup p !! key); simplify_eq/=. lia.
    + apply Hb in Hk. lia.
Qed.



(** *** The first pass keeps what the last partial product selects *)











(** *** The second pass *)

Lemma add_attributes_node d atts res id :
  add_attributes d atts res !! KNode id = res !! KNode id.
Proof.
  unfold add_attributes. revert res. induction atts as [|att atts IH]; intros res; [done|].
  cbn [foldl]. rewrite IH. destruct (d !! att_key att); [|done].
  by rewrite lookup_insert_ne.
Qed.


Lemma _make_product_rec_2_children cls self m_name m_content m_ctcs m_attributes
    v_local is_true_d res :
  _make_product_rec_2 (FDNode cls self m_name m_content m_ctcs m_attributes)
    v_local is_true_d res =
  (let f := FDNode cls self m_name m_content m_ctcs m_attributes in
   let res := rec_2_children is_true_d m_content (_infer_sv__ f is_true_d).2
                (<[KNode self := v_local]> res) in
   if truthy v_local then add_attributes is_true_d m_attributes res else res).
Proof. apply _make_product_rec_2_eq. Qed.

Lemma rec_2_children_cons d sub content v v_subs res :
  rec_2_children d (sub :: content) (v :: v_subs) res =
  rec_2_children d content v_subs
    (_make_product_rec_2 sub (if is_empty v then VBool false else v) d res).
Proof. reflexivity. Qed.

Lemma extract_expected_length d expected keys :
  ∀ idx, length (extract_expected d expected idx keys).2 = length keys.
Proof.
  induction keys as [|key keys IH]; intros idx; [done|]. cbn.
  destruct (d !! key) as [v|].
  - specialize (IH (if py_eq v.1 expected && (idx <? v.2) then v.2 else idx)).
    destruct (extract_expected _ _ _ keys). cbn in *. by rewrite IH.
  - specialize (IH idx). destruct (extract_expected _ _ _ keys). cbn in *. by rewrite IH.
Qed.

(** A group infers one value for each child. *)
Lemma _infer_sv___length f d : length (_infer_sv__ f d).2 = length (children f).
Proof.
  destruct f as [cls self n content ctcs atts]. unfold _infer_sv__. cbn [children].
  assert (He := extract_expected_length d (VBool true) (node_key <$> content) (-1)).
  rewrite length_fmap in He.
  destruct cls.
  - destruct (extract_latest _ _ _ _). cbn. by rewrite !length_fmap.
  - destruct (extract_expected _ _ _ _), (infer_local _ _ _). done.
  - destruct (extract_expected _ _ _ _), (infer_local _ _ _). done.
  - destruct (extract_expected _ _ _ _) as [idx_subs vs], (infer_local _ _ _). cbn.
    destruct (-1 <? idx_subs); [by rewrite length_fmap|done].
Qed.









(** The second pass writes the nodes of the diagram only. *)
Lemma _make_product_rec_2_frame d id :
  ∀ f v res, id ∉ nodes f → _make_product_rec_2 f v d res !! KNode id = res !! KNode id.
Proof.
  induction f as [cls self n content ctcs atts IH] using _fd__c_ind'.
  intros v res Hid. rewrite _make_product_rec_2_children. cbv zeta.
  cbn [nodes] in Hid. apply not_elem_of_cons in Hid as [Hne Hid].
  assert (Hfold : ∀ v_subs res,
            rec_2_children d content v_subs res !! KNode id = res !! KNode id).
  { clear -IH Hid. induction IH as [|sub content Hsub _ IHc]; intros [|w v_subs] res;
      try done.
    cbn [mbind list_bind] in Hid. apply not_elem_of_app in Hid as [H1 H2].
    rewrite rec_2_children_cons, IHc by done. by apply Hsub. }
  assert (H1 : rec_2_children d content
                 (_infer_sv__ (FDNode cls self n content ctcs atts) d).2
                 (<[KNode self := v]> res) !! KNode id = res !! KNode id).
  { rewrite Hfold. rewrite lookup_insert_ne; [done|]. congruence. }
  destruct (truthy v); [|done]. by rewrite add_attributes_node.
Qed.

Lemma rec_2_children_frame d id content v_subs res :
  id ∉ content ≫= nodes →
  rec_2_children d content v_subs res !! KNode id = res !! KNode id.
Proof.
  revert v_subs res. induction content as [|sub content IH]; intros [|w v_subs] res Hid;
    try done.
  cbn [mbind list_bind] in Hid. apply not_elem_of_app in Hid as [H1 H2].
  rewrite rec_2_children_cons, IH by done. by apply _make_product_rec_2_frame.
Qed.

(** With distinct identities, the value passed to a node is its value in
    the result. *)
Lemma _make_product_rec_2_self d f v res :
  NoDup (nodes f) → _make_product_rec_2 f v d res !! node_key f = Some v.
Proof.
  destruct f as [cls self n content ctcs atts]. intros Hnd.
  rewrite _make_product_rec_2_children. cbv zeta. cbn [nodes] in Hnd.
  apply NoDup_cons in Hnd as [Hself _]. unfold node_key. cbn [fd_self].
  assert (H1 : rec_2_children d content
                 (_infer_sv__ (FDNode cls self n content ctcs atts) d).2
                 (<[KNode self := v]> res) !! KNode self = Some v).
  { rewrite rec_2_children_frame by done. by rewrite lookup_insert_eq. }
  destruct (truthy v); [|done]. by rewrite add_attributes_node.
Qed.

Lemma subtrees_nodes f g : g ∈ subtrees f → fd_self g ∈ nodes f.
Proof.
  revert g. induction f as [cls self n content ctcs atts IH] using _fd__c_ind'.
  intros g. cbn [subtrees nodes]. rewrite !elem_of_cons.
  intros [->|Hg]; [by left|]. right.
  apply list_elem_of_bind in Hg as (sub & Hg & Hsub). apply list_elem_of_bind.
  exists sub. split; [|done]. eapply Forall_forall in IH; [|exact Hsub]. by apply IH.
Qed.



(** *** What an accepted product looks like *)

Lemma subtrees_children cls self n content ctcs atts g :
  g ∈ subtrees (FDNode cls self n content ctcs atts) ↔
  g = FDNode cls self n content ctcs atts ∨ ∃ c, c ∈ content ∧ g ∈ subtrees c.
Proof.
  cbn [subtrees]. rewrite elem_of_cons, list_elem_of_bind. naive_solver.
Qed.




(** *** The first pass on an accepted product *)















(** *** Groups in which nothing is selected *)
















(** *** Nodes the product sets to [False], seen from their parent *)










(** *** The first pass keeps a diagram settled *)







(** *** The second pass on a settled table *)








(** *** The table of a single total product *)







Lemma fm_call_eval fm p expected r :
  fm_call fm p expected = Ok r →
  ∃ r0, _eval_generic__ (fm_root fm) p expected = Ok r0 ∧ fd_value r0 = fd_value r.
Proof.
  unfold fm_call. destruct (m_dom fm); [|done].
  destruct (_eval_generic__ _ _ _) as [r0|]; [|done]. cbn [mbind res_bind].
  intros H. exists r0. split; [done|].
  destruct (fd_reason r0) as [reason|]; [|congruence].
  destruct (ReasonTree.__bool__ reason); by injection H as <-.
Qed.




(** ** What normalisation keeps of the last partial product *)

(** *** Diagrams whose nodes have distinct identities *)









(** *** The first pass keeps what the last partial product unselects *)

Section kept.

Variables (k : Z) (q : product_t).
Hypothesis Hk : 0 ≤ k.










End kept.





(** * Further properties of the module *)

(** ** Paths *)

Lemma concat_cons sep x y (l : list string) :
  String.concat sep (x :: y :: l) = String.append x (String.append sep (String.concat sep (y :: l))).
Proof. reflexivity. Qed.

Lemma split_on_cons sep c s :
  split_on sep (String c s) =
  if Ascii.eqb c sep then EmptyString :: split_on sep s
  else match split_on sep s with
       | w :: ws => String c w :: ws
       | [] => [String c EmptyString]
       end.
Proof. reflexivity. Qed.

(** X1: joining the segments of a split string gives the string back:
    ["/".join(s.split("/")) == s] for every string. *)
Theorem path_to_str_from_str (s : string) :
  _path_to_str__ (Some (_path_from_str__ s)) = s.
Proof.
  unfold _path_to_str__, _path_from_str__. induction s as [|c s IH]; [done|].
  rewrite split_on_cons. destruct (Ascii.eqb_spec c "/"%char) as [->|Hne].
  - destruct (split_on "/" s) as [|w ws] eqn:Hs; [by apply split_on_nonempty in Hs|].
    rewrite concat_cons, IH. reflexivity.
  - destruct (split_on "/" s) as [|w ws] eqn:Hs; [by apply split_on_nonempty in Hs|].
    destruct ws as [|w' ws].
    + cbn in *. by rewrite IH.
    + rewrite <- IH, !concat_cons. reflexivity.
Qed.

Lemma split_on_segment sep (w : string) :
  contains_char sep w = false → split_on sep w = [w].
Proof.
  induction w as [|c w IH]; [done|]. cbn [contains_char].
  intros [Hc Hw]%orb_false_elim. rewrite split_on_cons, Hc, IH by done. done.
Qed.

Lemma split_on_app sep (w rest : string) :
  contains_char sep w = false →
  split_on sep (String.append w (String sep rest)) = w :: split_on sep rest.
Proof.
  induction w as [|c w IH]; cbn [contains_char].
  - intros _. change (split_on sep (String sep rest) = "" :: split_on sep rest).
    rewrite split_on_cons. by rewrite (proj2 (Ascii.eqb_eq sep sep) eq_refl).
  - intros [Hc Hw]%orb_false_elim.
    change (split_on sep (String c (String.append w (String sep rest)))
            = String c w :: split_on sep rest).
    rewrite split_on_cons, Hc, IH by done. done.
Qed.

(** X2: splitting the rendering of a path gives the path back, provided the
    path has a segment and no segment holds a ["/"]. *)
Theorem path_from_str_to_str (p : path_t) :
  printable p → _path_from_str__ (_path_to_str__ (Some p)) = p.
Proof.
  unfold _path_to_str__, _path_from_str__. intros [Hne HF].
  induction HF as [|w p Hw HF IH]; [done|].
  destruct p as [|w' p].
  - cbn. by apply split_on_segment.
  - rewrite concat_cons. change (String.append "/" ?s) with (String "/"%char s).
    rewrite split_on_app by done. by rewrite IH.
Qed.

Lemma path_from_str_to_str_witness :
  _path_from_str__ (_path_to_str__ (Some ["HelloWorld"; "0"; "lang"]))
  = ["HelloWorld"; "0"; "lang"].
Proof.
  apply (path_from_str_to_str ["HelloWorld"; "0"; "lang"]).
  split; [done|]. repeat constructor.
Defined.

(** X3: path inclusion is a partial order on paths, and every path
    includes the empty path. *)
Theorem _path_includes___partial_order :
  (∀ p, _path_includes__ p p = true) ∧
  (∀ p q r, _path_includes__ p q = true → _path_includes__ q r = true →
            _path_includes__ p r = true) ∧
  (∀ p q, _path_includes__ p q = true → _path_includes__ q p = true → p = q) ∧
  (∀ p, _path_includes__ p [] = true).
Proof.
  repeat split.
  - intros p. by apply _path_includes___sublist.
  - intros p q r Hpq Hqr. apply _path_includes___sublist.
    apply _path_includes___sublist in Hpq, Hqr. by etrans.
  - intros p q Hpq Hqp. apply _path_includes___sublist in Hpq, Hqp.
    by apply (anti_symm sublist).
  - intros p. apply _path_includes___sublist. apply sublist_nil_l.
Qed.

(** ** Resolution of references *)

Lemma last_item_split s : last_item (_path_from_str__ s) = Ok (ref_name s).
Proof.
  unfold last_item, ref_name, _path_from_str__.
  destruct (last (split_on "/" s)) as [x|] eqn:Hl; [done|].
  apply last_None in Hl. by apply split_on_nonempty in Hl.
Qed.

Lemma _path_check_exists___cases s mapping errors path :
  _path_check_exists__ (KStr s) mapping errors path =
  match mapping !! ref_name s with
  | None => Ok (KPath (ref_context path s), DeclErrors.add_unbound errors (ref_name s) None)
  | Some _ =>
      match candidates mapping (ref_name s) (ref_context path s) with
      | [] => Ok (KPath (ref_context path s),
                  DeclErrors.add_unbound errors s (Some path))
      | [el] => Ok (el.1, errors)
      | refs => Ok (KPath (ref_context path s),
                    DeclErrors.add_ambiguous errors s None (refs.*2))
      end
  end.
Proof.
  unfold _path_check_exists__. rewrite last_item_split. cbn [mbind res_bind].
  unfold candidates, prior, ref_context.
  destruct (mapping !! ref_name s) as [decls|]; [|done]. cbn [default from_option id].
  by destruct (filter _ decls) as [|? [|? ?]].
Qed.

(** The outcome of the resolution of a textual reference. *)
Lemma _path_check_exists___resolves (s : string) (mapping : lookup_t)
    (errors : _decl_errors__c) (path : path_t) :
  ∃ k errors',
    _path_check_exists__ (KStr s) mapping errors path = Ok (k, errors') ∧
    m_ambiguities errors' = m_ambiguities errors ∧
    match candidates mapping (ref_name s) (ref_context path s) with
    | [el] => k = el.1 ∧ errors' = errors
    | _ => k = KPath (ref_context path s) ∧
           ∃ e, m_unbounds errors' = m_unbounds errors ++ [e]
    end.
Proof.
  rewrite _path_check_exists___cases. unfold candidates, prior.
  destruct (mapping !! ref_name s) as [decls|]; cbn [default from_option id].
  - destruct (filter _ decls) as [|el [|el' refs]]; eexists _, _;
      (split; [reflexivity|]); cbn; eauto.
  - rewrite filter_nil. eexists _, _. split; [reflexivity|]. cbn. eauto.
Qed.

(** X4: resolving a textual reference always returns.  When exactly one
    declaration of its last segment has a path that includes the context
    of the reference, the result is that element and no diagnostic is
    added; otherwise the result is the tuple of the context and exactly
    one diagnostic is appended to the list of unbound names, the list of
    ambiguities being left as it is. *)
Theorem _path_check_exists___resolution (s : string) (mapping : lookup_t)
    (errors : _decl_errors__c) (path : path_t) :
  ∃ k errors',
    _path_check_exists__ (KStr s) mapping errors path = Ok (k, errors') ∧
    m_ambiguities errors' = m_ambiguities errors ∧
    match candidates mapping (ref_name s) (ref_context path s) with
    | [el] => k = el.1 ∧ errors' = errors
    | _ => k = KPath (ref_context path s) ∧
           ∃ e, m_unbounds errors' = m_unbounds errors ++ [e]
    end.
Proof. apply _path_check_exists___resolves. Qed.

(** ** Declaration check of a constraint *)

Lemma _check_declarations___Op cls content path mapping errors :
  _check_declarations__ (Op cls content) path mapping errors =
  '(content, errors) ←
    enum_mapM_st (fun _ sub errors => _check_declarations__ sub path mapping errors)
      0%nat content errors;
  Ok (Op cls content, errors).
Proof. reflexivity. Qed.

Lemma textual_Op cls content : textual (Op cls content) = forallb textual content.
Proof. reflexivity. Qed.


Lemma erase_vars_Op cls content :
  erase_vars (Op cls content) = Op cls (erase_vars <$> content).
Proof. reflexivity. Qed.



Lemma _check_declarations___raises e path mapping :
  ∀ errors x, _check_declarations__ e path mapping errors = Raise x → x = AttributeError.
Proof.
  induction e as [k|v|cls content IH] using expr_ind'; intros errors x H.
  - destruct k as [s| | |]; [|cbn in H; congruence..].
    cbn [_check_declarations__] in H.
    destruct (_path_check_exists___resolves s mapping errors path) as (k & e' & Hk & _).
    by rewrite Hk in H.
  - done.
  - rewrite _check_declarations___Op in H.
    destruct (enum_mapM_st _ _ content errors) as [[c e]|y] eqn:Hc; [done|].
    cbn in H. injection H as <-. revert Hc. generalize 0%nat. revert errors.
    induction IH as [|sub content Hsub _ IHc]; intros errors i Hc; [done|].
    cbn [enum_mapM_st] in Hc.
    destruct (_check_declarations__ sub path mapping errors) as [[r s1]|z] eqn:Hs.
    + cbn [mbind res_bind] in Hc.
      destruct (enum_mapM_st _ (S i) content s1) as [[rs s2]|z] eqn:Hr; [done|].
      cbn in Hc. injection Hc as <-. by eapply IHc.
    + cbn in Hc. injection Hc as <-. by eapply Hsub.
Qed.

(** X6: the declaration check of a constraint one of whose variables does
    not hold a string raises [AttributeError]: a constraint that went
    through the check cannot go through it again. *)
Theorem _check_declarations___not_textual (e : expr) (path : path_t)
    (mapping : lookup_t) (errors : _decl_errors__c) :
  textual e = false →
  _check_declarations__ e path mapping errors = Raise AttributeError.
Proof.
  revert errors. induction e as [k|v|cls content IH] using expr_ind'; intros errors Ht.
  - by destruct k.
  - done.
  - rewrite textual_Op in Ht. rewrite _check_declarations___Op.
    assert (Hgo : ∀ i errors,
              enum_mapM_st (fun _ sub errors => _check_declarations__ sub path mapping errors)
                i content errors = Raise AttributeError).
    { clear errors. induction IH as [|sub content Hsub _ IHc]; intros i errors; [done|].
      cbn [forallb] in Ht. cbn [enum_mapM_st].
      destruct (_check_declarations__ sub path mapping errors) as [[r s1]|z] eqn:Hs.
      - cbn [mbind res_bind]. destruct (textual sub) eqn:Hts.
        + rewrite IHc by done. done.
        + by rewrite Hsub in Hs.
      - apply _check_declarations___raises in Hs as ->. done. }
    by rewrite Hgo.
Qed.

Lemma _check_declarations___not_textual_witness :
  _check_declarations__ (Op K.Implies [Var (KNode 0); Var (KNode 1)]) ["R"] ∅
    DeclErrors.init = Raise AttributeError.
Proof.
  apply (_check_declarations___not_textual (Op K.Implies [Var (KNode 0); Var (KNode 1)])).
  reflexivity.
Defined.

(** ** Evaluation of constraints *)

Lemma enum_mapM_length {A B} (f : nat → A → res B) i l rs :
  enum_mapM f i l = Ok rs → length rs = length l.
Proof. intros H%enum_mapM_Forall2. symmetry. by eapply Forall2_length. Qed.

Lemma constructed_Op cls content :
  constructed (Op cls content) =
  match arity cls with
  | Some n => Nat.eqb (length content) n
  | None => true
  end && forallb constructed content.
Proof. reflexivity. Qed.

Lemma ordering_free_Op cls content :
  ordering_free (Op cls content) = negb (ordering cls) && forallb ordering_free content.
Proof. reflexivity. Qed.

Lemma cmp_is_raises p c x : cmp_is p c = Raise x → c = Raise x.
Proof. destruct c as [o|y]; cbn; [done|congruence]. Qed.

Lemma py_cmp_raises a b x : py_cmp a b = Raise x → x = TypeError.
Proof.
  unfold py_cmp. destruct a, b; cbn; try congruence;
    repeat (match goal with |- context [match ?b with true => _ | false => _ end] =>
                              destruct b end; cbn); congruence.
Qed.

(** On the values of a constructed node, [_compute__] raises nothing but
    [TypeError], and only for an ordering comparison. *)
Lemma _compute___raises cls values x :
  match arity cls with Some n => length values = n | None => True end →
  _compute__ cls values = Raise x → x = TypeError ∧ ordering cls = true.
Proof.
  intros Hlen. destruct cls; cbn in Hlen; cbn [_compute__]; try done.
  all: destruct values as [|a [|b [|c values]]]; try done; cbn.
  all: try (destruct (truthy a); cbn; done).
  all: unfold py_lt, py_le, py_ge, py_gt;
    destruct (cmp_is _ _) as [o|y] eqn:Hc; cbn; try done;
    intros [= <-]; apply cmp_is_raises, py_cmp_raises in Hc; done.
Qed.

(** What [call] may raise on a constructed expression. *)
Lemma call_raises e product :
  constructed e = true →
  ∀ idx expected x,
    call e product idx expected = Raise x → x = TypeError ∧ ordering_free e = false.
Proof.
  induction e as [k|v|cls content IH] using expr_ind'; intros Hc idx expected x H.
  - cbn in H. by destruct (is_empty _).
  - done.
  - rewrite constructed_Op in Hc. apply andb_prop in Hc as [Har Hc].
    rewrite call_Op in H. rewrite ordering_free_Op.
    destruct (enum_mapM _ 0%nat content) as [results|y] eqn:Hr; cbn [mbind res_bind] in H.
    + destruct (_compute__ cls (m_value <$> results)) as [res|y] eqn:Hv;
        cbn [mbind res_bind] in H; [by destruct (py_eq res expected)|].
      injection H as <-. apply _compute___raises in Hv as [-> ->]; [done|].
      apply enum_mapM_length in Hr. rewrite length_fmap, Hr.
      destruct (arity cls); [|done]. by apply Nat.eqb_eq.
    + injection H as <-. revert Hr. generalize 0%nat.
      clear Har. induction IH as [|el content Hel _ IHc]; intros i Hr; [done|].
      cbn [forallb] in Hc. apply andb_prop in Hc as [Hc1 Hc2]. cbn [enum_mapM] in Hr.
      destruct (call el product (Some i) _) as [r|z] eqn:He; cbn [mbind res_bind] in Hr.
      * destruct (enum_mapM _ (S i) content) as [rs|z] eqn:Hrs; [done|].
        cbn in Hr. injection Hr as <-. destruct (IHc Hc2 _ Hrs) as [-> Ho].
        split; [done|]. cbn [forallb]. apply andb_false_iff in Ho as [-> | ->]; [done|].
        by rewrite !andb_false_r.
      * injection Hr as <-. destruct (Hel Hc1 _ _ _ He) as [-> Ho].
        split; [done|]. cbn [forallb]. rewrite Ho. by rewrite andb_false_r.
Qed.

(** X7: on a constraint built by the constructors, evaluation raises
    nothing but [TypeError], whatever the product holds. *)
Theorem call_raises_TypeError (e : expr) (product : product_t) (idx : option nat)
    (expected : value) (x : exn) :
  constructed e = true → call e product idx expected = Raise x → x = TypeError.
Proof. intros Hc H. by eapply call_raises. Qed.

Lemma call_raises_TypeError_witness :
  call (Op K.Lt [Lit (VStr "a"); Lit (VInt 1)]) ∅ None (VBool true) = Raise TypeError ∧
  TypeError = TypeError.
Proof.
  split; [reflexivity|].
  by apply (call_raises_TypeError (Op K.Lt [Lit (VStr "a"); Lit (VInt 1)]) ∅ None
              (VBool true) TypeError).
Defined.

Lemma call_ordering_free_returns_aux e product idx expected :
  constructed e = true → ordering_free e = true →
  ∃ r, call e product idx expected = Ok r.
Proof.
  intros Hc Ho. destruct (call e product idx expected) as [r|x] eqn:H; [eauto|].
  apply call_raises in H as [_ H]; [congruence|done].
Qed.

(** X8: a constraint built by the constructors without ordering comparison
    evaluates on every product: a variable the product does not define,
    or an operand that is not a Boolean, raises nothing. *)
Theorem call_ordering_free_returns (e : expr) (product : product_t) (idx : option nat)
    (expected : value) :
  constructed e = true → ordering_free e = true →
  ∃ r, call e product idx expected = Ok r.
Proof. apply call_ordering_free_returns_aux. Qed.

Lemma call_ordering_free_returns_witness :
  ∃ r, call (Op K.Implies [Var (KStr "a"); Op K.Xor [Lit (VInt 3); Var (KNode 1)]])
         ∅ None (VBool true) = Ok r.
Proof.
  apply (call_ordering_free_returns
           (Op K.Implies [Var (KStr "a"); Op K.Xor [Lit (VInt 3); Var (KNode 1)]])
           ∅ None (VBool true)); reflexivity.
Defined.

Lemma m_count_add_mismatch cls expected (l : list (expr * _eval_result__c)) t :
  ReasonTree.m_count
    (foldl (fun reason '(el, r) =>
              ReasonTree.add_reason_value_mismatch reason (RefExpr el)
                (of_result (m_value r) (m_reason r)) (_get_expected__ cls expected)) t l)
  = (ReasonTree.m_count t + length l)%nat.
Proof.
  revert t. induction l as [|[el r] l IH]; intros t; cbn [foldl length]; [lia|].
  rewrite IH. destruct t. cbn. lia.
Qed.

Lemma m_count_add_reason_sub t sub :
  (ReasonTree.m_count t ≤ ReasonTree.m_count (ReasonTree.add_reason_sub t sub))%nat.
Proof.
  unfold ReasonTree.add_reason_sub. destruct sub as [r|]; [|done].
  destruct (ReasonTree.__bool__ r); [|done]. destruct t. cbn. lia.
Qed.

Lemma m_count_add_reason_subs {A} (f : A → option _reason_tree__c) (l : list A) t :
  (ReasonTree.m_count t
   ≤ ReasonTree.m_count (foldl (fun reason r => ReasonTree.add_reason_sub reason (f r)) t l))%nat.
Proof.
  revert t. induction l as [|r l IH]; intros t; cbn [foldl]; [done|].
  etrans; [apply (m_count_add_reason_sub t (f r))|apply IH].
Qed.

(** X9: the result of a composite constraint with at least one operand
    carries a non-empty reason exactly when its value is not the expected
    one. *)
Theorem call_reason_iff_mismatch (cls : expkind) (content : list expr)
    (product : product_t) (idx : option nat) (expected : value) (r : _eval_result__c) :
  content ≠ [] →
  call (Op cls content) product idx expected = Ok r →
  ReasonTree.truthy (m_reason r) = negb (py_eq (m_value r) expected).
Proof.
  intros Hne. rewrite call_Op.
  destruct (enum_mapM _ 0%nat content) as [results|] eqn:Hr; [|done]. cbn [mbind res_bind].
  destruct (_compute__ cls (m_value <$> results)) as [res|]; [|done]. cbn [mbind res_bind].
  destruct (py_eq res expected) eqn:He; intros [= <-]; cbn [m_reason m_value];
    rewrite He; [done|].
  cbn [ReasonTree.truthy negb]. unfold ReasonTree.__bool__, mismatch_reason.
  apply enum_mapM_length in Hr.
  match goal with |- negb (Nat.eqb ?c 0) = true => assert (0 < c)%nat as Hpos end.
  { eapply Nat.lt_le_trans; [|apply m_count_add_reason_subs].
    rewrite m_count_add_mismatch, length_zip, Hr. destruct content; [done|cbn; lia]. }
  destruct (Nat.eqb_spec (ReasonTree.m_count
    (foldl (fun reason r0 => ReasonTree.add_reason_sub reason (m_reason r0))
       (foldl (fun reason '(el, r0) =>
                 ReasonTree.add_reason_value_mismatch reason (RefExpr el)
                   (of_result (m_value r0) (m_reason r0)) (_get_expected__ cls expected))
          (ReasonTree.init (RefName (get_name cls)) idx) (zip content results)) results)) 0);
    [lia|done].
Qed.

Lemma call_reason_iff_mismatch_witness :
  ReasonTree.truthy
    (m_reason (mk_eval_result (VBool false)
                 (Some (mismatch_reason K.Or None (VBool true) [Lit (VBool false)]
                          [mk_eval_result (VBool false) None])))) =
  negb (py_eq (m_value (mk_eval_result (VBool false)
                 (Some (mismatch_reason K.Or None (VBool true) [Lit (VBool false)]
                          [mk_eval_result (VBool false) None])))) (VBool true)).
Proof.
  apply (call_reason_iff_mismatch K.Or [Lit (VBool false)] ∅ None (VBool true)).
  - done.
  - reflexivity.
Defined.

(** ** Attribute domains and specifications *)

Lemma _add_domain_spec_step_raise (step : res (list interval) → spec_arg → res (list interval))
    (spec : list spec_arg) e :
  (∀ arg, step (Raise e) arg = Raise e) → foldl step (Raise e) spec = Raise e.
Proof. intros Hs. induction spec as [|arg spec IH]; cbn; [done|]. by rewrite Hs. Qed.

Lemma number_valid v : number v = true → _is_valid_bound v = true.
Proof. unfold number, _is_valid_bound. by destruct v. Qed.

(** The loop of [_add_domain_spec] over plain arguments. *)
Lemma _add_domain_spec_loop (vs : list value) :
  ∀ l,
    foldl (fun l arg =>
             l ← l;
             match arg with
             | AVal v =>
                 if isinstance v CFloat || isinstance v CInt
                 then Ok (l ++ [(v, plus_one v)])
                 else Raise ValueError
             | ATuple [a; b] =>
                 if _is_valid_bound a && _is_valid_bound b
                 then Ok (l ++ [(a, b)])
                 else Raise ValueError
             | ATuple _ => Raise ValueError
             end) (Ok l) (AVal <$> vs) =
    if forallb number vs then Ok (l ++ (point <$> vs)) else Raise ValueError.
Proof.
  induction vs as [|v vs IH]; intros l; cbn [fmap list_fmap foldl forallb].
  - by rewrite app_nil_r.
  - cbn [mbind res_bind]. unfold number at 1.
    destruct (isinstance v CFloat || isinstance v CInt); cbn [andb].
    + rewrite IH. destruct (forallb number vs); [|done]. by rewrite <- app_assoc.
    + by apply _add_domain_spec_step_raise.
Qed.

(** X10: what the constructor of a domain makes of plain arguments.  Two
    arguments that are numbers or [None] are the bounds of one interval;
    any other list of numbers is the list of the intervals [[v, v+1)];
    anything else raises [ValueError]. *)
Theorem _add_domain_spec_plain (l : list interval) (vs : list value) :
  _add_domain_spec l (AVal <$> vs) =
  match vs with
  | [a; b] =>
      if _is_valid_bound a && _is_valid_bound b then Ok (l ++ [(a, b)])
      else Raise ValueError
  | _ => if forallb number vs then Ok (l ++ (point <$> vs)) else Raise ValueError
  end.
Proof.
  unfold _add_domain_spec.
  destruct vs as [|a [|b [|c vs]]]; try apply (_add_domain_spec_loop _ l).
  cbn [fmap list_fmap].
  destruct (_is_valid_bound a && _is_valid_bound b) eqn:Hv; [cbn; by rewrite Hv|].
  change [AVal a; AVal b] with (AVal <$> [a; b]). rewrite _add_domain_spec_loop.
  destruct (forallb number [a; b]) eqn:Hn; [|done]. cbn in Hn.
  apply andb_prop in Hn as [Ha Hb]. rewrite andb_true_r in Hb.
  by rewrite (number_valid a), (number_valid b) in Hv.
Qed.

Lemma _add_domain_spec_valid spec :
  ∀ l l', _add_domain_spec l spec = Ok l' →
    Forall (fun i => valid_interval i = true) l →
    Forall (fun i => valid_interval i = true) l'.
Proof.
  unfold _add_domain_spec.
  set (step := fun (l : res (list interval)) (arg : spec_arg) => _).
  assert (Hloop : ∀ spec l l', foldl step (Ok l) spec = Ok l' →
            Forall (fun i => valid_interval i = true) l →
            Forall (fun i => valid_interval i = true) l').
  { clear spec. induction spec as [|arg spec IH]; intros l l' H Hl.
    - cbn in H. by injection H as <-.
    - cbn [foldl] in H. destruct (step (Ok l) arg) as [l1|e] eqn:Hs.
      + eapply IH; [exact H|]. unfold step in Hs. cbn [mbind res_bind] in Hs.
        destruct arg as [v|[|a [|b [|c t]]]]; try done.
        * destruct (isinstance v CFloat || isinstance v CInt) eqn:Hv; [|done].
          injection Hs as <-. apply Forall_app. split; [done|]. constructor; [|done].
          unfold valid_interval, _is_valid_bound, plus_one. cbn. by destruct v.
        * destruct (_is_valid_bound a && _is_valid_bound b) eqn:Hv; [|done].
          injection Hs as <-. apply Forall_app. split; [done|]. by constructor.
      + rewrite _add_domain_spec_step_raise in H; [done|]. by intros []. }
  intros l l'. apply Hloop.
Qed.

Lemma py_cmp_numbers a b :
  number a = true → number b = true → ∃ o, py_cmp a b = Ok o.
Proof. unfold number. destruct a, b; cbn; try done; eauto. Qed.

Lemma _check_interval_returns i v :
  valid_interval i = true → number v = true → ∃ b, _check_interval i v = Ok b.
Proof.
  unfold valid_interval, _check_interval. destruct i as [lo hi]. cbn [fst snd].
  intros [Hlo Hhi]%andb_prop Hv.
  assert (Hcmp : ∀ bound, _is_valid_bound bound = true → is_None bound = false →
            ∃ o, py_cmp v bound = Ok o).
  { intros bound Hb Hn. apply py_cmp_numbers; [done|].
    unfold _is_valid_bound, number in *. by destruct bound. }
  destruct (is_None lo) eqn:Hl; cbn [negb mbind res_bind].
  - destruct (is_None hi) eqn:Hh; cbn [negb mbind res_bind]; [eauto|].
    unfold py_ge. destruct (Hcmp hi Hhi Hh) as [o ->]. cbn.
    destruct (from_option _ false o); eauto.
  - unfold py_lt. destruct (Hcmp lo Hlo Hl) as [o ->]. cbn [cmp_is mbind res_bind mret res_ret].
    destruct (from_option _ false o); [eauto|].
    destruct (is_None hi) eqn:Hh; cbn [negb mbind res_bind]; [eauto|].
    unfold py_ge. destruct (Hcmp hi Hhi Hh) as [o' ->]. cbn.
    destruct (from_option _ false o'); eauto.
Qed.

Lemma _check_domain_returns domain v :
  Forall (fun i => valid_interval i = true) domain → number v = true →
  ∃ b, _check_domain domain v = Ok b.
Proof.
  intros Hd Hv. unfold _check_domain. destruct (DeclErrors.nonempty domain); [|eauto].
  induction Hd as [|i domain Hi _ IH]; cbn [_check_domain_loop]; [eauto|].
  destruct (_check_interval_returns i v Hi Hv) as [b ->]. cbn. destruct b; eauto.
Qed.

(** X11: a specification built by the constructor of [Int] or of [Float]
    never raises when it is called, whatever the value. *)
Theorem spec_call_returns (args : list spec_arg) (spec : attr_spec) (v : value) :
  Int_init args = Ok spec ∨ Float_init args = Ok spec →
  ∃ b, spec_call spec v = Ok b.
Proof.
  unfold Int_init, Float_init.
  destruct (_add_domain_spec [] args) as [domain|] eqn:Hd; cbn; [|by intros [|]].
  apply _add_domain_spec_valid in Hd; [|constructor].
  intros [[= <-]|[= <-]]; cbn [spec_call].
  - destruct (isinstance v CInt) eqn:Hv; [|eauto]. apply _check_domain_returns; [done|].
    unfold number. by rewrite Hv, orb_true_r.
  - destruct (isinstance v CFloat) eqn:Hv; [|eauto]. apply _check_domain_returns; [done|].
    unfold number. by rewrite Hv.
Qed.

Lemma spec_call_returns_witness :
  ∃ b, spec_call (Float [(VInt 0, VFloat 1.5)]) (VFloat 0.5) = Ok b.
Proof.
  apply (spec_call_returns [AVal (VInt 0); AVal (VFloat 1.5)]).
  right. reflexivity.
Defined.

Lemma py_cmp_nan bound :
  _is_valid_bound bound = true → is_None bound = false →
  py_cmp nan_value bound = Ok None.
Proof.
  unfold nan_value, _is_valid_bound. destruct bound as [| |b|z|g|s|c m]; try done; intros _ _.
  cbn. unfold float_cmp. rewrite FloatAxioms.compare_spec.
  change (Prim2SF PrimFloat.nan) with S754_nan. reflexivity.
Qed.

Lemma py_lt_nan bound :
  _is_valid_bound bound = true → is_None bound = false →
  py_lt nan_value bound = Ok false ∧ py_ge nan_value bound = Ok false.
Proof. intros Hb Hn. unfold py_lt, py_ge. by rewrite py_cmp_nan. Qed.

Lemma _check_interval_nan i :
  valid_interval i = true → _check_interval i nan_value = Ok true.
Proof.
  unfold valid_interval, _check_interval. destruct i as [lo hi]. cbn [fst snd].
  intros [Hlo Hhi]%andb_prop.
  destruct (is_None lo) eqn:Hl; cbn [negb mbind res_bind].
  - destruct (is_None hi) eqn:Hh; cbn [negb mbind res_bind]; [done|].
    by rewrite (proj2 (py_lt_nan hi Hhi Hh)).
  - rewrite (proj1 (py_lt_nan lo Hlo Hl)). cbn [mbind res_bind].
    destruct (is_None hi) eqn:Hh; cbn [negb mbind res_bind]; [done|].
    by rewrite (proj2 (py_lt_nan hi Hhi Hh)).
Qed.

(** X12: every specification built by the constructor of [Float] accepts
    the not-a-number float: no comparison with a bound holds, so it lies in
    every interval. *)
Theorem Float_accepts_nan (args : list spec_arg) (spec : attr_spec) :
  Float_init args = Ok spec → spec_call spec nan_value = Ok true.
Proof.
  unfold Float_init.
  destruct (_add_domain_spec [] args) as [domain|] eqn:Hd; cbn; [|done].
  apply _add_domain_spec_valid in Hd; [|constructor].
  intros [= <-]. cbn [spec_call nan_value isinstance]. unfold _check_domain.
  destruct Hd as [|i domain Hi _]; [done|]. cbn [DeclErrors.nonempty _check_domain_loop].
  fold nan_value. by rewrite _check_interval_nan.
Qed.

Lemma Float_accepts_nan_witness :
  spec_call (Float [(VInt 0, VInt 1)]) nan_value = Ok true.
Proof.
  apply (Float_accepts_nan [AVal (VInt 0); AVal (VInt 1)]). reflexivity.
Defined.

Lemma all_accepted_forallb (kind : pyobj → res bool) (acc : pyobj → bool) l :
  (∀ el, el ∈ l → kind el = Ok (acc el)) →
  all_accepted kind l = Ok (forallb acc l).
Proof.
  induction l as [|el l IH]; intros H; [done|]. cbn [all_accepted forallb].
  rewrite (H el) by left. cbn [mbind res_bind].
  destruct (acc el); [|done]. apply IH. intros el' Hin. apply H. by right.
Qed.

(** X13: a [List] specification whose sizes are intervals of integers
    rejects every value that is neither a list nor a tuple, and accepts a
    list or a tuple exactly when its length lies in one of the sizes (or
    there is none) and its element specification, if any, accepts every
    element. *)
Theorem List_accepts (ivs : list zinterval) (kind : option list_spec) (o : pyobj)
    (acc : pyobj → bool) :
  (∀ k l el, kind = Some k → elements o = Some l → el ∈ l →
             list_spec_call k el = Ok (acc el)) →
  list_spec_call (List_ (interval_of <$> ivs) kind) o =
  Ok match elements o with
     | None => false
     | Some l =>
         bool_decide (ivs = [] ∨ Exists (lies_in (Z.of_nat (length l))) ivs)
         && match kind with
            | None => true
            | Some _ => forallb acc l
            end
     end.
Proof.
  intros Hk.
  assert (Hsize : ∀ l : list pyobj,
            _check_domain (interval_of <$> ivs) (VInt (Z.of_nat (length l))) =
            Ok (bool_decide (ivs = [] ∨ Exists (lies_in (Z.of_nat (length l))) ivs))).
  { intros l. unfold _check_domain. destruct ivs as [|i ivs]; [done|].
    change (DeclErrors.nonempty _) with true. cbv iota.
    rewrite (_check_domain_loop_int (i :: ivs) (Z.of_nat (length l))) by done.
    f_equal. apply bool_decide_ext. split; [by right|]. by intros [?|?]. }
  destruct o as [v|l|l]; cbn [list_spec_call elements]; [done|..].
  all: rewrite Hsize; cbn [mbind res_bind];
    destruct (bool_decide _); cbn [andb]; [|done];
    destruct kind as [k|]; [|done];
    apply all_accepted_forallb; intros el Hel; by eapply Hk.
Qed.

Lemma List_accepts_witness :
  list_spec_call (List_ (interval_of <$> [(Some 1, Some 3)]) (Some (SBase Bool)))
    (OList [OVal (VBool true); OVal (VInt 2)]) =
  Ok match elements (OList [OVal (VBool true); OVal (VInt 2)]) with
     | None => false
     | Some l =>
         bool_decide ([(Some 1, Some 3)] = [] ∨
                      Exists (lies_in (Z.of_nat (length l))) [(Some 1, Some 3)])
         && match Some (SBase Bool) with
            | None => true
            | Some _ =>
                forallb (fun el => match el with OVal (VBool _) => true | _ => false end) l
            end
     end.
Proof.
  apply (List_accepts [(Some 1, Some 3)] (Some (SBase Bool))
           (OList [OVal (VBool true); OVal (VInt 2)])
           (fun el => match el with OVal (VBool _) => true | _ => false end)).
  intros k l el [= <-] [= <-] Hel.
  apply elem_of_cons in Hel as [->|Hel]; [reflexivity|].
  apply list_elem_of_singleton in Hel as ->. reflexivity.
Defined.

(** ** Construction of a diagram *)

Lemma _manage_constructor_args___loop (args : list fd_arg) :
  ∀ content ctcs,
    foldl (fun acc el =>
             '(content, ctcs) ← acc;
             match el with
             | FSub f => Ok (content ++ [f], ctcs)
             | FExp e => Ok (content, ctcs ++ [e])
             | _ => Raise ValueError
             end) (Ok (content, ctcs)) args =
    if forallb is_sub_or_exp args
    then Ok (content ++ subs_of args, ctcs ++ ctcs_of args)
    else Raise ValueError.
Proof.
  induction args as [|el args IH]; intros content ctcs; cbn [foldl forallb].
  - unfold subs_of, ctcs_of. cbn. by rewrite !app_nil_r.
  - cbn [mbind res_bind]. destruct el as [s|f|e|]; cbn [is_sub_or_exp andb].
    + clear IH. induction args as [|el args IH]; [done|]. cbn [foldl]. exact IH.
    + rewrite IH. destruct (forallb _ args); [|done].
      unfold subs_of, ctcs_of. cbn. by rewrite <- app_assoc.
    + rewrite IH. destruct (forallb _ args); [|done].
      unfold subs_of, ctcs_of. cbn. by rewrite <- app_assoc.
    + clear IH. induction args as [|el args IH]; [done|]. cbn [foldl]. exact IH.
Qed.

(** X14: the arguments of a diagram constructor.  A leading string is the
    name; the other positional arguments must all be diagrams or
    constraints, or the constructor raises (so does a string that is not
    the first argument); the children and the cross-tree constraints are
    these arguments in the order they are given, and the attributes are
    the keyword arguments. *)
Theorem _manage_constructor_args___spec (args : list fd_arg) (kwargs : list att_def) :
  let '(n, rest) :=
    match args with
    | FStr s :: rest => (Some s, rest)
    | _ => (None, args)
    end in
  match _manage_constructor_args__ args kwargs with
  | Ok r => forallb is_sub_or_exp rest = true ∧
            r = (n, subs_of rest, ctcs_of rest, kwargs)
  | Raise _ => forallb is_sub_or_exp rest = false
  end.
Proof.
  unfold _manage_constructor_args__.
  destruct args as [|[s|f|e|] rest];
    rewrite _manage_constructor_args___loop;
    by destruct (forallb _ _).
Qed.

(** ** The tables built by [check] *)

Lemma declarations_eq cls self m_name m_content m_ctcs m_attributes path_to_self idx :
  declarations (FDNode cls self m_name m_content m_ctcs m_attributes) path_to_self idx =
  (let local_path :=
     path_to_self ++ [match m_name with None => pretty idx | Some n => n end] in
   match m_name with
   | Some n => [(n, KNode self, local_path)]
   | None => []
   end
   ++ enum_bind (fun i sub => declarations sub local_path i) 0%nat m_content
   ++ ((fun att : att_def => (att.1, att_key att, local_path)) <$> m_attributes)).
Proof. reflexivity. Qed.

Lemma add_attributes_dom local_path atts t :
  (foldl (add_attribute local_path) t atts).1.2 =
  foldl dom_step t.1.2 ((fun att : att_def => (att.1, att_key att, local_path)) <$> atts).
Proof.
  revert t. induction atts as [|att atts IH]; intros t; [done|]. cbn [foldl fmap list_fmap].
  rewrite IH. f_equal. destruct t as [[lookup dom] errors]. unfold add_attribute.
  destruct (_check_duplicate__ _ _ _ _ _) as [lookup' errors']. cbn.
  unfold dom_step, dom_value, att_key. done.
Qed.

Lemma children_dom (local_path : path_t) content :
  Forall (fun f => ∀ path idx t f' t',
            _generate_lookup_rec__ f path idx t = Ok (f', t') →
            t'.1.2 = foldl dom_step t.1.2 (declarations f path idx)) content →
  ∀ i t content' t',
    enum_mapM_st (fun i sub t => _generate_lookup_rec__ sub local_path i t) i content t
      = Ok (content', t') →
    t'.1.2 = foldl dom_step t.1.2
               (enum_bind (fun i sub => declarations sub local_path i) i content).
Proof.
  induction 1 as [|sub content Hsub _ IH]; intros i t content' t' H; cbn in H.
  - by injection H as <- <-.
  - destruct (_generate_lookup_rec__ sub local_path i t) as [[r t1]|] eqn:Hr; [|done].
    cbn in H. destruct (enum_mapM_st _ (S i) content t1) as [[rs t2]|] eqn:Hrs; [|done].
    cbn in H. injection H as <- <-. cbn [enum_bind]. rewrite foldl_app.
    rewrite (IH _ _ _ _ Hrs). f_equal. by eapply Hsub.
Qed.

Lemma _generate_lookup_rec___dom f path idx t f' t' :
  _generate_lookup_rec__ f path idx t = Ok (f', t') →
  t'.1.2 = foldl dom_step t.1.2 (declarations f path idx).
Proof.
  revert path idx t f' t'.
  induction f as [cls self m_name m_content m_ctcs m_attributes IH] using _fd__c_ind'.
  intros path idx t f' t'. rewrite _generate_lookup_rec___eq, declarations_eq. cbv zeta.
  set (local_path := path ++ [match m_name with None => pretty idx | Some n => n end]).
  set (t1 := match m_name with Some n => _ | None => t end).
  assert (H1 : t1.1.2 = foldl dom_step t.1.2
                 (match m_name with
                  | Some n => [(n, KNode self, local_path)]
                  | None => []
                  end)).
  { unfold t1. destruct m_name as [n|]; [|done]. destruct t as [[lookup dom] errors].
    destruct (_check_duplicate__ _ _ _ _ _). done. }
  destruct (enum_mapM_st _ 0%nat m_content t1) as [[content' t2]|] eqn:Hc; [|done].
  cbn [mbind res_bind]. apply (children_dom local_path _ IH) in Hc.
  pose proof (add_attributes_dom local_path m_attributes t2) as Ha.
  destruct (foldl (add_attribute local_path) t2 m_attributes) as [[lookup3 dom3] errors3].
  destruct (check_ctcs _ _ _ _) as [[ctcs' errors4]|]; [|done].
  cbn [mbind res_bind]. intros [= <- <-]. cbn [fst snd] in *.
  rewrite !foldl_app, <- H1, <- Hc. done.
Qed.

Lemma foldl_dom_step_lookup (decls : list decl) k :
  ∀ dom : dom_t,
    (is_Some (foldl dom_step dom decls !! k) ↔
     is_Some (dom !! k) ∨ ∃ n p, (n, k, p) ∈ decls) ∧
    (NoDup decls.*1.*2 → ∀ n p, (n, k, p) ∈ decls →
       foldl dom_step dom decls !! k = Some (dom_value (n, k, p))).
Proof.
  induction decls as [|[[n0 k0] p0] decls IH]; intros dom; cbn [foldl].
  - split; [|by intros _ n p ?%elem_of_nil]. split; [by left|].
    by intros [?|(n & p & ?%elem_of_nil)].
  - destruct (IH (dom_step dom (n0, k0, p0))) as [IH1 IH2]. split.
    + rewrite IH1. unfold dom_step at 1. cbn [fst snd]. rewrite lookup_insert_is_Some'.
      split.
      * intros [[->|?]|(n & p & Hin)]; [right; exists n0, p0; by left|by left|].
        right. exists n, p. by right.
      * intros [?|(n & p & [[= -> -> ->]|Hin]%elem_of_cons)]; [left; by right|left; by left|].
        right. eauto.
    + rewrite !fmap_cons. cbn [fst snd]. intros [Hk0 Hnd]%NoDup_cons n p.
      intros [[= -> -> ->]|Hin]%elem_of_cons; [|by apply IH2].
      assert (Hfr : ∀ (l : list decl) (d : dom_t), k0 ∉ l.*1.*2 →
                foldl dom_step d l !! k0 = d !! k0).
      { clear. induction l as [|[[n k] p] l IHl]; intros d Hk; [done|]. cbn [foldl].
        rewrite !fmap_cons in Hk. apply not_elem_of_cons in Hk as [Hne Hk].
        rewrite IHl by done. unfold dom_step. cbn in *. by rewrite lookup_insert_ne. }
      rewrite Hfr by done. unfold dom_step. cbn [fst snd]. by rewrite lookup_insert_eq.
Qed.

(** X15: after [check] on a fresh model, the lookup table lists under
    every name the elements declared with that name, with their paths, in
    the order of their declaration; these elements are nodes and attribute
    definitions, never strings. *)
Theorem check_lookup_declarations (root : _fd__c) (norm : option (partial_t → partial_t))
    (fm : fm_t) (errors : _decl_errors__c) :
  check (fm_init root norm) = Ok (fm, errors) →
  ∃ lookup,
    m_lookup fm = Some lookup ∧
    (∀ n, prior lookup n = declared_as n (declarations root [] 0)) ∧
    of_objects lookup.
Proof.
  unfold check, generate_lookup. cbn [m_lookup fm_init fm_root m_errors].
  destruct (_generate_lookup_rec__ root [] 0 (∅, ∅, DeclErrors.init))
    as [[root' [[lookup dom] errs]]|] eqn:Hg; [|done].
  cbn [mbind res_bind]. intros [= <- <-]. exists lookup. split; [done|].
  apply _generate_lookup_rec___scan in Hg as [_ Hw].
  unfold watched in Hw. cbn in Hw. symmetry in Hw.
  apply scan_declarations in Hw as [Hp _]. split; [done|].
  intros n decls el Hn Hel s Hs. specialize (Hp n). unfold prior in Hp. rewrite Hn in Hp.
  cbn in Hp. rewrite Hp in Hel. destruct el as [k p]. apply declared_as_elem in Hel.
  cbn in Hs. subst k. clear -Hel. revert Hel. generalize (@nil string) 0%nat.
  induction root as [cls self m_name m_content m_ctcs m_attributes IH] using _fd__c_ind'.
  intros path idx. rewrite declarations_eq. cbv zeta.
  rewrite !elem_of_app. intros [H|[H|H]].
  - destruct m_name; [|by apply elem_of_nil in H]. by apply list_elem_of_singleton in H.
  - revert H. generalize 0%nat.
    induction IH as [|sub content Hsub _ IHc]; intros i H; [by apply elem_of_nil in H|].
    cbn [enum_bind] in H. apply elem_of_app in H as [H|H]; [by eapply Hsub|by eapply IHc].
  - by apply list_elem_of_fmap in H as (att & [=] & _).
Qed.

Lemma check_lookup_declarations_witness :
  ∃ lookup,
    m_lookup (checked hello_world_fm) = Some lookup ∧
    (∀ n, prior lookup n = declared_as n (declarations (fm_root hello_world_fm) [] 0)) ∧
    of_objects lookup.
Proof.
  apply (check_lookup_declarations (fm_root hello_world_fm) None (checked hello_world_fm)
           DeclErrors.init).
  reflexivity.
Defined.

(** X16: after [check] on a fresh model, [m_dom] has an entry for exactly
    the declared elements, the named nodes and the attribute definitions
    (an anonymous node has none); when the declared elements are distinct
    objects, a named node is mapped to its path from the root and an
    attribute to the path of its node followed by its name. *)
Theorem check_dom_declarations (root : _fd__c) (norm : option (partial_t → partial_t))
    (fm : fm_t) (errors : _decl_errors__c) :
  check (fm_init root norm) = Ok (fm, errors) →
  ∃ dom,
    m_dom fm = Some dom ∧
    (∀ k, is_Some (dom !! k) ↔ ∃ n p, (n, k, p) ∈ declarations root [] 0) ∧
    (NoDup (declarations root [] 0).*1.*2 →
     ∀ n k p, (n, k, p) ∈ declarations root [] 0 → dom !! k = Some (dom_value (n, k, p))).
Proof.
  unfold check, generate_lookup. cbn [m_lookup fm_init fm_root m_errors].
  destruct (_generate_lookup_rec__ root [] 0 (∅, ∅, DeclErrors.init))
    as [[root' [[lookup dom] errs]]|] eqn:Hg; [|done].
  cbn [mbind res_bind]. intros [= <- <-]. exists dom. split; [done|].
  apply _generate_lookup_rec___dom in Hg. cbn in Hg. subst dom. split.
  - intros k. destruct (foldl_dom_step_lookup (declarations root [] 0) k ∅) as [-> _].
    rewrite lookup_empty. split; [intros [[? [=]]|?]; done|by right].
  - intros Hnd n k p. by apply foldl_dom_step_lookup.
Qed.

Lemma check_dom_declarations_witness :
  ∃ dom,
    m_dom (checked hello_world_fm) = Some dom ∧
    (∀ k, is_Some (dom !! k) ↔
          ∃ n p, (n, k, p) ∈ declarations (fm_root hello_world_fm) [] 0) ∧
    (NoDup (declarations (fm_root hello_world_fm) [] 0).*1.*2 →
     ∀ n k p, (n, k, p) ∈ declarations (fm_root hello_world_fm) [] 0 →
              dom !! k = Some (dom_value (n, k, p))).
Proof.
  apply (check_dom_declarations (fm_root hello_world_fm) None (checked hello_world_fm)
           DeclErrors.init).
  reflexivity.
Defined.

Lemma _check_declarations___erase e path mapping :
  ∀ errors e' errors',
    _check_declarations__ e path mapping errors = Ok (e', errors') →
    erase_vars e' = erase_vars e.
Proof.
  induction e as [k|v|cls content IH] using expr_ind'; intros errors e' errors' H.
  - cbn [_check_declarations__] in H.
    destruct (_path_check_exists__ k mapping errors path) as [[k' errs]|]; [|done].
    cbn in H. by injection H as <- <-.
  - cbn in H. by injection H as <- <-.
  - rewrite _check_declarations___Op in H.
    destruct (enum_mapM_st _ _ content errors) as [[content' errs]|] eqn:Hc; [|done].
    cbn in H. injection H as <- <-. rewrite !erase_vars_Op. f_equal.
    revert Hc. generalize 0%nat. revert errors content' errs.
    induction IH as [|sub content Hsub _ IHc]; intros errors content' errs i Hc;
      cbn [enum_mapM_st] in Hc.
    + by injection Hc as <- <-.
    + destruct (_check_declarations__ sub path mapping errors) as [[r s1]|] eqn:Hs; [|done].
      cbn [mbind res_bind] in Hc.
      destruct (enum_mapM_st _ (S i) content s1) as [[rs s2]|] eqn:Hrs; [|done].
      cbn in Hc. injection Hc as <- <-. cbn [fmap list_fmap].
      f_equal; [by eapply Hsub|by eapply IHc].
Qed.

Lemma check_ctcs_erase ctcs path mapping :
  ∀ errors ctcs' errors',
    check_ctcs ctcs path mapping errors = Ok (ctcs', errors') →
    erase_vars <$> ctcs' = erase_vars <$> ctcs.
Proof.
  unfold check_ctcs. generalize 0%nat.
  induction ctcs as [|ctc ctcs IH]; intros i errors ctcs' errors' H; cbn [enum_mapM_st] in H.
  - by injection H as <- <-.
  - destruct (_check_declarations__ ctc path mapping errors) as [[r s1]|] eqn:Hs; [|done].
    cbn [mbind res_bind] in H.
    destruct (enum_mapM_st _ (S i) ctcs s1) as [[rs s2]|] eqn:Hrs; [|done].
    cbn in H. injection H as <- <-. cbn [fmap list_fmap].
    f_equal; [by eapply _check_declarations___erase|by eapply IH].
Qed.

Lemma skeleton_eq cls self m_name m_content m_ctcs m_attributes :
  skeleton (FDNode cls self m_name m_content m_ctcs m_attributes) =
  FDNode cls self m_name (skeleton <$> m_content) (erase_vars <$> m_ctcs) m_attributes.
Proof. reflexivity. Qed.

Lemma _generate_lookup_rec___skeleton f :
  ∀ path idx t f' t',
    _generate_lookup_rec__ f path idx t = Ok (f', t') → skeleton f' = skeleton f.
Proof.
  induction f as [cls self m_name m_content m_ctcs m_attributes IH] using _fd__c_ind'.
  intros path idx t f' t'. rewrite _generate_lookup_rec___eq. cbv zeta.
  set (local_path := path ++ [match m_name with None => pretty idx | Some n => n end]).
  generalize (match m_name with
              | Some n =>
                  let '(lookup, dom, errors) := t in
                  let '(lookup0, errors0) :=
                    _check_duplicate__ (KNode self) n local_path lookup errors in
                  (lookup0, <[KNode self:=_path_to_str__ (Some local_path)]> dom, errors0)
              | None => t
              end).
  intros t1.
  destruct (enum_mapM_st _ 0%nat m_content t1) as [[content' t2]|] eqn:Hc; [|done].
  cbn [mbind res_bind].
  destruct (foldl (add_attribute local_path) t2 m_attributes) as [[lookup3 dom3] errors3].
  destruct (check_ctcs _ _ _ _) as [[ctcs' errors4]|] eqn:Hk; [|done].
  cbn [mbind res_bind]. intros [= <- <-]. rewrite !skeleton_eq.
  apply check_ctcs_erase in Hk. rewrite Hk. f_equal.
  revert Hc. generalize 0%nat. revert t1 content' t2.
  induction IH as [|sub content Hsub _ IHc]; intros t1 content' t2 i Hc;
    cbn [enum_mapM_st] in Hc.
  - by injection Hc as <- <-.
  - destruct (_generate_lookup_rec__ sub local_path i t1) as [[r s1]|] eqn:Hs; [|done].
    cbn [mbind res_bind] in Hc.
    destruct (enum_mapM_st _ (S i) content s1) as [[rs s2]|] eqn:Hrs; [|done].
    cbn in Hc. injection Hc as <- <-. cbn [fmap list_fmap].
    f_equal; [by eapply Hsub|by eapply IHc].
Qed.

(** X17: [check] changes nothing in a model but the tables and the content
    of the variables of the cross-tree constraints: the classes, the
    identities, the names, the children, the attributes, the shape of the
    constraints and the normalisation hook are kept. *)
Theorem check_keeps_diagram (fm fm' : fm_t) (errors : _decl_errors__c) :
  check fm = Ok (fm', errors) →
  skeleton (fm_root fm') = skeleton (fm_root fm) ∧ m_norm fm' = m_norm fm.
Proof.
  unfold check, generate_lookup.
  destruct (m_lookup fm) as [lookup|], (m_errors fm) as [errs|];
    try (by intros [= <- <-]).
  all: destruct (_generate_lookup_rec__ (fm_root fm) [] 0 (∅, ∅, DeclErrors.init))
    as [[root' [[lookup' dom'] errs']]|] eqn:Hg; [|done];
    cbn [mbind res_bind]; intros [= <- <-]; cbn [fm_root m_norm];
    split; [by eapply _generate_lookup_rec___skeleton|done].
Qed.

Lemma check_keeps_diagram_witness :
  skeleton (fm_root (checked ctc_fm)) = skeleton (fm_root ctc_fm) ∧
  m_norm (checked ctc_fm) = m_norm ctc_fm.
Proof.
  apply (check_keeps_diagram ctc_fm (checked ctc_fm) DeclErrors.init).
  reflexivity.
Defined.

(** X18: [check] is idempotent: called again on the model it returned, it
    returns the same model and the same errors, without a new traversal
    (which would raise on resolved constraints). *)
Theorem check_idempotent (fm fm' : fm_t) (errors : _decl_errors__c) :
  check fm = Ok (fm', errors) → check fm' = Ok (fm', errors).
Proof.
  unfold check, generate_lookup.
  destruct (m_lookup fm) as [lookup|] eqn:Hl, (m_errors fm) as [errs|] eqn:He.
  - intros [= <- <-]. by rewrite Hl, He.
  - destruct (_generate_lookup_rec__ _ _ _ _) as [[root' [[lookup' dom'] errs']]|]; [|done].
    cbn [mbind res_bind]. by intros [= <- <-].
  - destruct (_generate_lookup_rec__ _ _ _ _) as [[root' [[lookup' dom'] errs']]|]; [|done].
    cbn [mbind res_bind]. by intros [= <- <-].
  - destruct (_generate_lookup_rec__ _ _ _ _) as [[root' [[lookup' dom'] errs']]|]; [|done].
    cbn [mbind res_bind]. by intros [= <- <-].
Qed.

Lemma check_idempotent_witness :
  check (checked ctc_fm) = Ok (checked ctc_fm, DeclErrors.init).
Proof.
  apply (check_idempotent ctc_fm). reflexivity.
Defined.

(** ** Products a model accepts *)

Lemma check_name_accepted self product nvalue_sub snodes nvalue_local snodes' :
  check_name self product nvalue_sub snodes = (nvalue_local, None, snodes') →
  nvalue_local = dict_get product (KNode self) VEmpty ∧
  is_empty nvalue_local = false ∧
  if truthy nvalue_local
  then nvalue_sub = true ∧ snodes' = snodes ++ [self]
  else snodes = [] ∧ snodes' = [].
Proof.
  unfold check_name.
  destruct (is_empty _) eqn:He; [done|].
  destruct (truthy (dict_get product (KNode self) VEmpty)) eqn:Ht;
    destruct snodes as [|s snodes]; destruct nvalue_sub; cbn;
    intros H; simplify_eq; rewrite ?Ht; repeat split; done.
Qed.

(** What an accepted evaluation says of the node it is run on. *)
Lemma _eval_generic___accepted cls self n content ctcs atts product expected r :
  _eval_generic__ (FDNode cls self n content ctcs atts) product expected = Ok r →
  fd_value r = VBool true →
  ∃ rcs ras rks,
    Forall2 (fun c rc => ∃ e, _eval_generic__ c product e = Ok rc ∧
                              fd_value rc = VBool true) content rcs ∧
    length ras = length atts ∧ length rks = length ctcs ∧
    match n with
    | Some _ =>
        is_empty (dict_get product (KNode self) VEmpty) = false ∧
        m_nvalue r = dict_get product (KNode self) VEmpty ∧
        if truthy (dict_get product (KNode self) VEmpty)
        then fd_compute cls ((m_nvalue <$> rcs) ++ (m_value <$> ras) ++ (m_value <$> rks))
             = true ∧
             m_snodes r = (rcs ≫= m_snodes) ++ [self]
        else (rcs ≫= m_snodes) = [] ∧ m_snodes r = []
    | None =>
        m_nvalue r =
          VBool (fd_compute cls ((m_nvalue <$> rcs) ++ (m_value <$> ras)
                                   ++ (m_value <$> rks))) ∧
        m_snodes r = rcs ≫= m_snodes
    end.
Proof.
  rewrite _eval_generic___eq. cbv zeta.
  destruct (enum_mapM _ _ content) as [rcs|] eqn:Hc; [|done].
  destruct (enum_mapM _ _ atts) as [ras|] eqn:Ha; [|done].
  destruct (enum_mapM _ _ ctcs) as [rks|] eqn:Hk; [|done]. cbn [mbind res_bind].
  destruct (match n with
            | Some _ => check_name _ _ _ _
            | None => _
            end) as [[nvalue_local reason] snodes] eqn:Hname.
  intros [= <-]. cbn [fd_value m_snodes m_nvalue]. intros [= [Hsubs Hreason]%andb_prop].
  destruct reason; [done|]. clear Hreason.
  exists rcs, ras, rks. split; [|split; [by eapply enum_mapM_length|
                                         split; [by eapply enum_mapM_length|]]].
  - apply enum_mapM_Forall2 in Hc. clear Hname.
    induction Hc as [|c rc content rs [j Hrc] _ IHc]; [constructor|].
    cbn in Hsubs. apply andb_prop in Hsubs as [Hv Hsubs]. constructor; [|by apply IHc].
    eexists. split; [exact Hrc|].
    destruct (_eval_generic___coherent _ _ _ _ Hrc) as (b & Hb & _).
    rewrite Hb in Hv |- *. cbn in Hv. by rewrite Hv.
  - destruct n as [nm|].
    + apply check_name_accepted in Hname as (-> & He & Hname). split; [done|].
      split; [done|]. destruct (truthy _); destruct Hname as [-> ->]; done.
    + by injection Hname as <- <-.
Qed.

(** An accepted evaluation accepts every sub-diagram. *)
Lemma _eval_generic___subtree product f :
  ∀ expected r,
    _eval_generic__ f product expected = Ok r → fd_value r = VBool true →
    ∀ g, g ∈ subtrees f →
      ∃ e rg, _eval_generic__ g product e = Ok rg ∧ fd_value rg = VBool true.
Proof.
  induction f as [cls self n content ctcs atts IH] using _fd__c_ind'.
  intros expected r Hr Hv g [->|(c & Hin & Hg)]%subtrees_children; [eauto|].
  destruct (_eval_generic___accepted _ _ _ _ _ _ _ _ _ Hr Hv) as (rcs & _ & _ & Hrcs & _).
  apply list_elem_of_lookup in Hin as [i Hi].
  destruct (Forall2_lookup_l _ _ _ _ _ Hrcs Hi) as (rc & _ & e & Hrc & Hvc).
  eapply Forall_forall in IH; [|by eapply list_elem_of_lookup_2]. by eapply IH.
Qed.


(** X19: a product that a model accepts gives a value to every named
    feature of the diagram. *)
Theorem accepted_product_defines_features (fm : fm_t) (product : product_t)
    (expected : value) (r : _eval_result_fd__c) :
  fm_call fm product expected = Ok r → fd_value r = VBool true →
  ∀ g, g ∈ subtrees (fm_root fm) → name g ≠ None → is_Some (product !! node_key g).
Proof.
  intros (r0 & Hr & Hv0)%fm_call_eval Hv g Hg Hname. rewrite <- Hv0 in Hv.
  destruct (_eval_generic___subtree _ _ _ _ Hr Hv g Hg) as (e & rg & Hrg & Hvg).
  destruct g as [cls self n content ctcs atts].
  destruct (_eval_generic___accepted _ _ _ _ _ _ _ _ _ Hrg Hvg) as (rcs & ras & rks & _ & _ & _ & Hn).
  cbn [name] in Hname. destruct n as [nm|]; [|done]. destruct Hn as (He & _).
  unfold node_key, dict_get in *. cbn [fd_self]. by destruct (product !! KNode self).
Qed.

Lemma accepted_product_defines_features_witness :
  is_Some (conf_1 !! node_key (FDNode FDAnd 4 (Some "times") [] [] [times_v])).
Proof.
  apply (accepted_product_defines_features (checked hello_world_fm) conf_1 (VBool true)
           (match fm_call (checked hello_world_fm) conf_1 (VBool true) with
            | Ok r => r
            | Raise _ => mk_eval_result_fd VEmpty None VEmpty []
            end)).
  - reflexivity.
  - reflexivity.
  - repeat first [by left | right].
  - done.
Defined.



Lemma accepted_named_nvalue product c e rc :
  _eval_generic__ c product e = Ok rc → fd_value rc = VBool true →
  name c ≠ None → m_nvalue rc = value_in product c.
Proof.
  destruct c as [cls self n content ctcs atts]. intros Hrc Hvc Hn.
  destruct (_eval_generic___accepted _ _ _ _ _ _ _ _ _ Hrc Hvc)
    as (rcs & ras & rks & _ & _ & _ & H).
  cbn [name] in Hn. destruct n; [|done]. by destruct H as (_ & -> & _).
Qed.

(** X21: in a product that a model accepts, every named child of a
    selected named [FDAnd] feature is selected. *)
Theorem accepted_product_mandatory_children (fm : fm_t) (product : product_t)
    (expected : value) (r : _eval_result_fd__c) :
  fm_call fm product expected = Ok r → fd_value r = VBool true →
  ∀ g c, g ∈ subtrees (fm_root fm) → name g ≠ None → fd_cls g = FDAnd →
         truthy (value_in product g) = true →
         c ∈ children g → name c ≠ None → truthy (value_in product c) = true.
Proof.
  intros (r0 & Hr & Hv0)%fm_call_eval Hv g c Hg Hname Hcls Htrue Hc Hnc.
  rewrite <- Hv0 in Hv.
  destruct (_eval_generic___subtree _ _ _ _ Hr Hv g Hg) as (e & rg & Hrg & Hvg).
  destruct g as [cls self n content ctcs atts].
  destruct (_eval_generic___accepted _ _ _ _ _ _ _ _ _ Hrg Hvg)
    as (rcs & ras & rks & Hrcs & _ & _ & Hn).
  cbn [name fd_cls children] in *. subst cls. destruct n as [nm|]; [|done].
  destruct Hn as (_ & _ & Hn). unfold value_in, node_key in Htrue. cbn [fd_self] in Htrue.
  rewrite Htrue in Hn. destruct Hn as [Hn _]. cbn [fd_compute] in Hn.
  rewrite forallb_app in Hn. apply andb_prop in Hn as [Hn _].
  apply list_elem_of_lookup in Hc as [i Hi].
  destruct (Forall2_lookup_l _ _ _ _ _ Hrcs Hi) as (rc & Hrc & e' & Hrc' & Hvc).
  rewrite <- (accepted_named_nvalue _ _ _ _ Hrc' Hvc Hnc).
  rewrite forallb_forall in Hn. apply Hn. apply list_elem_of_In.
  apply list_elem_of_fmap. exists rc. split; [done|]. by eapply list_elem_of_lookup_2.
Qed.

Lemma accepted_product_mandatory_children_witness :
  truthy (value_in {[ KNode 0 := VBool true; KNode 1 := VBool true ]} (FDNode FDAnd 1 (Some "b") [] [] [])) = true.
Proof.
  apply (accepted_product_mandatory_children (checked ctc_fm) {[ KNode 0 := VBool true; KNode 1 := VBool true ]} (VBool true)
           (match fm_call (checked ctc_fm) {[ KNode 0 := VBool true; KNode 1 := VBool true ]} (VBool true) with
            | Ok r => r
            | Raise _ => mk_eval_result_fd VEmpty None VEmpty []
            end))
    with (g := fm_root (checked ctc_fm)).
  - reflexivity.
  - reflexivity.
  - by left.
  - done.
  - reflexivity.
  - reflexivity.
  - by left.
  - done.
Defined.

(** X22: in a product that a model accepts, the values of the children of
    a selected named group of features satisfy the group: all of them are
    true under [FDAnd], one at least under [FDOr], exactly one under
    [FDXor]. *)
Theorem accepted_product_group (fm : fm_t) (product : product_t)
    (expected : value) (r : _eval_result_fd__c) :
  fm_call fm product expected = Ok r → fd_value r = VBool true →
  ∀ g, g ∈ subtrees (fm_root fm) → name g ≠ None → plain_group g →
       truthy (value_in product g) = true →
       fd_compute (fd_cls g) (value_in product <$> children g) = true.
Proof.
  intros (r0 & Hr & Hv0)%fm_call_eval Hv g Hg Hname (Hch & Hat & Hct) Htrue.
  rewrite <- Hv0 in Hv.
  destruct (_eval_generic___subtree _ _ _ _ Hr Hv g Hg) as (e & rg & Hrg & Hvg).
  destruct g as [cls self n content ctcs atts].
  destruct (_eval_generic___accepted _ _ _ _ _ _ _ _ _ Hrg Hvg)
    as (rcs & ras & rks & Hrcs & Hla & Hlk & Hn).
  cbn [name fd_cls children attributes cross_tree_constraints] in *. subst atts ctcs.
  destruct ras; [|done]. destruct rks; [|done].
  destruct n as [nm|]; [|done]. destruct Hn as (_ & _ & Hn).
  unfold value_in at 1, node_key in Htrue. cbn [fd_self] in Htrue.
  rewrite Htrue in Hn. destruct Hn as [Hn _]. rewrite !app_nil_r in Hn.
  rewrite <- Hn. f_equal. clear -Hrcs Hch.
  induction Hrcs as [|c rc content rcs (e & Hrc & Hvc) _ IH]; [done|].
  apply Forall_cons in Hch as [Hc Hch]. cbn [fmap list_fmap].
  f_equal; [|by apply IH]. symmetry. by eapply accepted_named_nvalue.
Qed.

Lemma accepted_product_group_witness :
  fd_compute (fd_cls (fm_root (checked or_and_fm)))
    (value_in {[ KNode 0 := VBool true; KNode 1 := VBool true; KNode 2 := VBool true ]}
       <$> children (fm_root (checked or_and_fm))) = true.
Proof.
  apply (accepted_product_group (checked or_and_fm)
           {[ KNode 0 := VBool true; KNode 1 := VBool true; KNode 2 := VBool true ]} (VBool true)
           (match fm_call (checked or_and_fm) {[ KNode 0 := VBool true; KNode 1 := VBool true; KNode 2 := VBool true ]} (VBool true) with
            | Ok r => r
            | Raise _ => mk_eval_result_fd VEmpty None VEmpty []
            end)).
  - reflexivity.
  - reflexivity.
  - by left.
  - done.
  - split; [|done]. repeat constructor; done.
  - reflexivity.
Defined.

Lemma enum_mapM_returns {A B} (f : nat → A → res B) l :
  Forall (fun el => ∀ i, ∃ r, f i el = Ok r) l →
  ∀ i, ∃ rs, enum_mapM f i l = Ok rs.
Proof.
  induction 1 as [|el l Hel _ IH]; intros i; cbn [enum_mapM]; [eauto|].
  destruct (Hel i) as [r ->]. destruct (IH (S i)) as [rs ->]. cbn. eauto.
Qed.

Lemma forallb_Forall_true {A} (f : A → bool) l :
  forallb f l = true ↔ Forall (fun x => f x = true) l.
Proof.
  induction l as [|x l IH]; cbn; [split; [constructor|done]|].
  rewrite andb_true_iff, Forall_cons, IH. done.
Qed.

Lemma spec_call_sound spec v : sound_spec spec = true → ∃ b, spec_call spec v = Ok b.
Proof.
  destruct spec as [c|domain|domain]; cbn [sound_spec spec_call]; [eauto|..];
    intros Hd%forallb_Forall_true.
  - destruct (isinstance v CInt) eqn:Hv; [|eauto]. apply _check_domain_returns; [done|].
    unfold number. by rewrite Hv, orb_true_r.
  - destruct (isinstance v CFloat) eqn:Hv; [|eauto]. apply _check_domain_returns; [done|].
    unfold number. by rewrite Hv.
Qed.

Lemma _manage_attribute___returns self att product expected :
  sound_spec (spec_of att.2) = true →
  ∃ r, _manage_attribute__ self att product expected = Ok r.
Proof.
  intros Hs. unfold _manage_attribute__.
  destruct (is_empty _); [destruct (truthy expected); eauto|].
  destruct (spec_call_sound _ (dict_get product (att_key att) VEmpty) Hs) as [b ->].
  cbn [mbind res_bind]. destruct (py_eq expected (VBool b)); eauto.
Qed.

Lemma sound_eq cls self n content ctcs atts :
  sound (FDNode cls self n content ctcs atts) =
  forallb sound content
  && forallb (fun e => constructed e && ordering_free e) ctcs
  && forallb (fun att : att_def => sound_spec (spec_of att.2)) atts.
Proof. reflexivity. Qed.

Lemma _eval_generic___returns product f :
  sound f = true → ∀ expected, ∃ r, _eval_generic__ f product expected = Ok r.
Proof.
  induction f as [cls self n content ctcs atts IH] using _fd__c_ind'.
  rewrite sound_eq. intros [[Hc Hk]%andb_prop Ha]%andb_prop expected.
  rewrite _eval_generic___eq. cbv zeta.
  apply forallb_Forall_true in Hc, Hk, Ha.
  pose proof (proj1 (Forall_forall _ _) Hc) as Hc'.
  pose proof (proj1 (Forall_forall _ _) Hk) as Hk'.
  pose proof (proj1 (Forall_forall _ _) Ha) as Ha'.
  edestruct (enum_mapM_returns
               (fun (i : nat) el => _eval_generic__ el product (fd_get_expected cls expected))
               content) as [rcs ->].
  { rewrite Forall_forall in IH. apply Forall_forall. intros c Hin i.
    apply IH; [done|]. by apply Hc'. }
  edestruct (enum_mapM_returns
               (fun (i : nat) el =>
                  _manage_attribute__ self el product (fd_get_expected cls expected))
               atts) as [ras ->].
  { apply Forall_forall. intros att Hin i. apply _manage_attribute___returns.
    by apply Ha'. }
  edestruct (enum_mapM_returns
               (fun (i : nat) el => call el product (Some i) (fd_get_expected cls expected))
               ctcs) as [rks ->].
  { apply Forall_forall. intros e Hin i. specialize (Hk' e Hin). cbn beta in Hk'.
    apply andb_prop in Hk' as [H1 H2].
    by apply call_ordering_free_returns_aux. }
  cbn [mbind res_bind]. destruct (match n with Some _ => _ | None => _ end) as [[? ?] ?].
  eauto.
Qed.

(** X23: a checked model whose attribute specifications have bounds that
    are numbers or [None], and whose cross-tree constraints are built by
    the constructors without ordering comparison, evaluates every product
    without raising, whatever the product holds or misses. *)
Theorem fm_call_returns (fm : fm_t) (product : product_t) (expected : value) :
  is_Some (m_dom fm) → sound (fm_root fm) = true →
  ∃ r, fm_call fm product expected = Ok r.
Proof.
  intros [dom Hd] Hs. unfold fm_call. rewrite Hd.
  destruct (_eval_generic___returns product _ Hs expected) as [r ->].
  cbn [mbind res_bind]. destruct (fd_reason r) as [t|]; [|eauto].
  destruct (ReasonTree.__bool__ t); eauto.
Qed.

Lemma fm_call_returns_witness :
  ∃ r, fm_call (checked hello_world_fm) ∅ (VBool true) = Ok r.
Proof.
  apply (fm_call_returns (checked hello_world_fm) ∅ (VBool true)).
  - eexists; reflexivity.
  - reflexivity.
Defined.

(** ** Normal forms *)

Lemma rec_2_children_nil_r d content res : rec_2_children d content [] res = res.
Proof. by destruct content. Qed.

(** The second pass gives a value to every node of the diagram and keeps
    the nodes that have one. *)
Lemma _make_product_rec_2_defines d id :
  ∀ f v res,
    id ∈ nodes f ∨ is_Some (res !! KNode id) →
    is_Some (_make_product_rec_2 f v d res !! KNode id).
Proof.
  induction f as [cls self n content ctcs atts IH] using _fd__c_ind'.
  intros v res Hin. rewrite _make_product_rec_2_children. cbv zeta.
  set (vs := (_infer_sv__ (FDNode cls self n content ctcs atts) d).2).
  assert (Hlen : length vs = length content) by apply _infer_sv___length.
  assert (Hfold : ∀ vs res,
            length vs = length content →
            id ∈ content ≫= nodes ∨ is_Some (res !! KNode id) →
            is_Some (rec_2_children d content vs res !! KNode id)).
  { clear -IH. induction IH as [|sub content Hsub _ IHc]; intros [|w vs] res Hlen Hres;
      try done.
    - destruct Hres as [Hres|Hres]; [by apply elem_of_nil in Hres|done].
    - rewrite rec_2_children_cons. apply IHc; [by injection Hlen|].
      cbn [mbind list_bind] in Hres. rewrite elem_of_app in Hres.
      destruct Hres as [[Hres|Hres]|Hres]; [|by left|].
      + right. apply Hsub. by left.
      + right. apply Hsub. by right. }
  assert (Hres : is_Some (rec_2_children d content vs (<[KNode self := v]> res)
                            !! KNode id)).
  { apply Hfold; [done|]. cbn [nodes] in Hin. rewrite elem_of_cons in Hin.
    rewrite lookup_insert_is_Some'. destruct Hin as [[->|Hin]|Hin]; eauto. }
  destruct (truthy v); [|done]. by rewrite add_attributes_node.
Qed.

(** X24: on a checked model, normalisation returns for every list of
    partial products, whatever their keys, and its result gives a value to
    every node of the diagram, the anonymous ones included. *)
Theorem nf_product_defines_nodes (fm : fm_t) (lookup : lookup_t) (args : list partial_t) :
  m_lookup fm = Some lookup →
  ∃ res errors,
    nf_product fm args = Ok (res, errors) ∧
    ∀ id, id ∈ nodes (fm_root fm) → is_Some (res !! KNode id).
Proof.
  intros Hl. unfold nf_product. rewrite Hl.
  destruct (ingest_bounded fm lookup args 0 ∅ DeclErrors.init
              (0 + Z.of_nat (length args) - 1)) as (d & errors & -> & _); [lia| |done|].
  { intros key v i Hk. by rewrite lookup_empty in Hk. }
  cbn [mbind res_bind]. eexists _, _. split; [reflexivity|].
  intros id Hid. apply _make_product_rec_2_defines. by left.
Qed.

Lemma nf_product_defines_nodes_witness :
  ∃ res errors,
    nf_product (checked hello_world_fm) [no_times; [(KStr "unknown/name", VInt 3)]]
      = Ok (res, errors) ∧
    ∀ id, id ∈ nodes (fm_root (checked hello_world_fm)) → is_Some (res !! KNode id).
Proof.
  apply (nf_product_defines_nodes (checked hello_world_fm)
           (default ∅ (m_lookup (checked hello_world_fm)))).
  reflexivity.
Defined.

Lemma add_attributes_lookup d atts k x :
  ∀ res, add_attributes d atts res !! k = Some x →
         res !! k = Some x ∨ ∃ att, att ∈ atts ∧ att_key att = k.
Proof.
  unfold add_attributes. induction atts as [|att atts IH]; intros res H; [by left|].
  cbn [foldl] in H. apply IH in H as [H|(att' & Hin & Hk)].
  - destruct (d !! att_key att) as [v|]; [|by left].
    apply lookup_insert_Some in H as [[<- _]|[_ H]]; [|by left].
    right. exists att. split; [by left|done].
  - right. exists att'. split; [by right|done].
Qed.

(** A key of the result that is not a node: it was there before the second
    pass, or it is an attribute of a node of the diagram that the result
    selects. *)
Lemma _make_product_rec_2_written d k x :
  not_node k →
  ∀ f v res,
    NoDup (nodes f) →
    _make_product_rec_2 f v d res !! k = Some x →
    res !! k = Some x ∨
    ∃ g att w, g ∈ subtrees f ∧ att ∈ attributes g ∧ att_key att = k ∧
               truthy w = true ∧ _make_product_rec_2 f v d res !! node_key g = Some w.
Proof.
  intros Hk. induction f as [cls self n content ctcs atts IH] using _fd__c_ind'.
  intros v res Hnd H.
  assert (Hself := _make_product_rec_2_self d _ v res Hnd).
  rewrite _make_product_rec_2_children in *. cbv zeta in *.
  set (vs := (_infer_sv__ (FDNode cls self n content ctcs atts) d).2) in *.
  assert (Hnd' : NoDup (content ≫= nodes)) by (by apply NoDup_cons in Hnd as [_ ?]).
  assert (Hfold : ∀ vs res,
            rec_2_children d content vs res !! k = Some x →
            res !! k = Some x ∨
            ∃ g att w, g ∈ content ≫= subtrees ∧ att ∈ attributes g ∧ att_key att = k ∧
                       truthy w = true ∧
                       rec_2_children d content vs res !! node_key g = Some w).
  { clear -IH Hnd'. induction IH as [|sub content Hsub _ IHc]; intros vs res H.
    - left. by destruct vs.
    - destruct vs as [|w0 vs]; [by left|].
      cbn [mbind list_bind] in Hnd'. apply NoDup_app in Hnd' as (Hnd0 & Hdisj & Hnd1).
      rewrite rec_2_children_cons in *.
      destruct (IHc Hnd1 _ _ H) as [H1|(g & att & w & Hg & Hatt & Hak & Hw & Hgw)].
      + destruct (Hsub _ _ Hnd0 H1) as [H2|(g & att & w & Hg & Hatt & Hak & Hw & Hgw)];
          [by left|].
        right. exists g, att, w. cbn [mbind list_bind]. rewrite elem_of_app.
        split; [by left|]. split; [done|]. split; [done|]. split; [done|].
        unfold node_key. rewrite rec_2_children_frame; [done|].
        apply Hdisj. by apply subtrees_nodes.
      + right. exists g, att, w. cbn [mbind list_bind]. rewrite elem_of_app.
        split; [by right|done]. }
  assert (Hinner : rec_2_children d content vs (<[KNode self:=v]> res) !! k = Some x →
            res !! k = Some x ∨
            ∃ g att w, g ∈ subtrees (FDNode cls self n content ctcs atts) ∧
                       att ∈ attributes g ∧ att_key att = k ∧ truthy w = true ∧
                       rec_2_children d content vs (<[KNode self:=v]> res) !! node_key g
                       = Some w).
  { intros H0. destruct (Hfold _ _ H0) as [H1|(g & att & w & Hg & Hatt & Hak & Hw & Hgw)].
    - left. rewrite lookup_insert_ne in H1; [done|]. intros <-. by eapply Hk.
    - right. exists g, att, w. split; [|done].
      apply list_elem_of_bind in Hg as (c & Hg & Hc).
      apply subtrees_children. right. eauto. }
  destruct (truthy v) eqn:Hv; [|by apply Hinner].
  apply add_attributes_lookup in H as [H|(att & Hatt & Hak)].
  - destruct (Hinner H) as [?|(g & att & w & Hg & Hatt & Hak & Hw & Hgw)]; [by left|].
    right. exists g, att, w. split; [done|]. split; [done|]. split; [done|].
    split; [done|]. unfold node_key. by rewrite add_attributes_node.
  - right. exists (FDNode cls self n content ctcs atts), att, v.
    split; [apply subtrees_children; by left|]. done.
Qed.

(** X25: on a checked model whose nodes have distinct identities, every
    key of a normal form is a node of the diagram or an attribute of a
    node of the diagram that the normal form selects: no other key of a
    partial product, and no attribute of features that are all unselected,
    comes back. *)
Theorem nf_product_keys (fm : fm_t) (args : list partial_t) (res : product_t)
    (errors : _decl_errors__c) (k : key) (x : value) :
  NoDup (nodes (fm_root fm)) →
  nf_product fm args = Ok (res, errors) →
  res !! k = Some x →
  (∃ id, id ∈ nodes (fm_root fm) ∧ k = KNode id) ∨
  (∃ g att w, g ∈ subtrees (fm_root fm) ∧ att ∈ attributes g ∧ att_key att = k ∧
              truthy w = true ∧ res !! node_key g = Some w).
Proof.
  intros Hnd. unfold nf_product. destruct (m_lookup fm) as [lookup|]; [|done].
  destruct (ingest fm lookup 0 args ∅ DeclErrors.init) as [[d errs]|]; [|done].
  cbn [mbind res_bind]. intros [= <- <-] Hk.
  assert (Hcase : (∃ id, k = KNode id) ∨ not_node k).
  { destruct k; [right|left; eauto|right..]; by intros id. }
  destruct Hcase as [[id ->]|Hnot].
  - left. exists id. split; [|done].
    destruct (decide (id ∈ nodes (fm_root fm))) as [?|Hid]; [done|].
    rewrite _make_product_rec_2_frame in Hk by done. by rewrite lookup_empty in Hk.
  - right. apply _make_product_rec_2_written in Hk as [Hk|Hk]; [|done..].
    by rewrite lookup_empty in Hk.
Qed.

Lemma nf_product_keys_witness :
  (∃ id, id ∈ nodes (fm_root (checked hello_world_fm)) ∧ att_key lang_v = KNode id) ∨
  (∃ g att w, g ∈ subtrees (fm_root (checked hello_world_fm)) ∧ att ∈ attributes g ∧
              att_key att = att_key lang_v ∧ truthy w = true ∧
              (match nf_product (checked hello_world_fm) [conf_1_items; no_times] with
               | Ok r => r.1
               | Raise _ => ∅
               end) !! node_key g = Some w).
Proof.
  apply (nf_product_keys (checked hello_world_fm) [conf_1_items; no_times]
           (match nf_product (checked hello_world_fm) [conf_1_items; no_times] with
            | Ok r => r.1
            | Raise _ => ∅
            end)
           (match nf_product (checked hello_world_fm) [conf_1_items; no_times] with
            | Ok r => r.2
            | Raise _ => DeclErrors.init
            end)
           (att_key lang_v) (VEnum "Hello" "english")).
  - vm_compute. repeat constructor; set_solver.
  - reflexivity.
  - reflexivity.
Defined.

(** ** Normal form of a constraint *)

Lemma _check_declarations___strpath_Op cls content path mapping errors :
  _check_declarations___strpath (Op cls content) path mapping errors =
  '(content, errors) ←
    enum_mapM_st (fun _ sub errors => _check_declarations___strpath sub path mapping errors)
      0%nat content errors;
  Ok (Op cls content, errors).
Proof. reflexivity. Qed.

Lemma var_free_Op cls content : var_free (Op cls content) = forallb var_free content.
Proof. reflexivity. Qed.

Lemma _check_declarations___strpath_spec e path mapping :
  textual e = true →
  ∀ errors,
    _check_declarations___strpath e path mapping errors =
    if var_free e then Ok (e, errors) else Raise TypeError.
Proof.
  induction e as [k|v|cls content IH] using expr_ind'; intros Ht errors.
  - destruct k as [s| | |]; try done. cbn [_check_declarations___strpath var_free].
    unfold _path_check_exists___strpath. by rewrite last_item_split.
  - done.
  - rewrite textual_Op in Ht. rewrite _check_declarations___strpath_Op, var_free_Op.
    assert (Hgo : ∀ i,
              enum_mapM_st
                (fun _ sub errors => _check_declarations___strpath sub path mapping errors)
                i content errors =
              if forallb var_free content then Ok (content, errors) else Raise TypeError).
    { induction IH as [|sub content Hsub _ IHc]; intros i; [done|].
      cbn [forallb] in Ht. apply andb_prop in Ht as [Ht1 Ht2].
      cbn [enum_mapM_st forallb]. rewrite (Hsub Ht1).
      destruct (var_free sub); [|done]. cbn [mbind res_bind andb].
      rewrite (IHc Ht2). by destruct (forallb var_free content). }
    rewrite Hgo. by destruct (forallb var_free content).
Qed.

(** X26: on a checked model with a named root, [nf_constraint] returns a
    constraint that has no variable unchanged, with no error, and raises
    [TypeError] on every constraint that has a variable (its variables
    holding strings): the path it passes for the root is a string, which
    the resolution of a variable cannot concatenate with a tuple. *)
Theorem nf_constraint_spec (fm : fm_t) (lookup : lookup_t) (dom : dom_t) (c : param) :
  m_lookup fm = Some lookup → m_dom fm = Some dom →
  is_Some (dom !! node_key (fm_root fm)) →
  textual (_manage_parameter__ c) = true →
  nf_constraint fm c =
  if var_free (_manage_parameter__ c)
  then Returns (_manage_parameter__ c, DeclErrors.init)
  else Throws (Std TypeError).
Proof.
  intros Hl Hd [path Hp] Ht. unfold nf_constraint. rewrite Hl, Hd, Hp.
  rewrite _check_declarations___strpath_spec by done.
  by destruct (var_free _).
Qed.

Lemma nf_constraint_spec_witness :
  nf_constraint (checked hello_world_fm) (PExp (Implies (PStr "lang") (PStr "times"))) =
  if var_free (_manage_parameter__ (PExp (Implies (PStr "lang") (PStr "times"))))
  then Returns (_manage_parameter__ (PExp (Implies (PStr "lang") (PStr "times"))),
                DeclErrors.init)
  else Throws (Std TypeError).
Proof.
  apply (nf_constraint_spec (checked hello_world_fm)
           (default ∅ (m_lookup (checked hello_world_fm)))
           (default ∅ (m_dom (checked hello_world_fm)))).
  - reflexivity.
  - reflexivity.
  - eexists; reflexivity.
  - reflexivity.
Defined.

(** ** Printing a reason *)

Lemma m_local_add_reason_subs {A} (f : A → option _reason_tree__c) (l : list A) t :
  ReasonTree.m_local (foldl (fun reason r => ReasonTree.add_reason_sub reason (f r)) t l)
  = ReasonTree.m_local t.
Proof.
  revert t. induction l as [|r l IH]; intros t; cbn [foldl]; [done|]. rewrite IH.
  unfold ReasonTree.add_reason_sub. destruct (f r) as [s|]; [|done].
  destruct (ReasonTree.__bool__ s); [|done]. by destruct t.
Qed.

Lemma m_local_add_mismatch cls expected (l : list (expr * _eval_result__c)) t :
  ReasonTree.m_local
    (foldl (fun reason '(el, r) =>
              ReasonTree.add_reason_value_mismatch reason (RefExpr el)
                (of_result (m_value r) (m_reason r)) (_get_expected__ cls expected)) t l)
  = ReasonTree.m_local t ++
    ((fun '(el, r) => _reason_value_mismatch__c (RefExpr el)
                        (of_result (m_value r) (m_reason r))
                        (_get_expected__ cls expected)) <$> l).
Proof.
  revert t. induction l as [|[el r] l IH]; intros t; cbn [foldl fmap list_fmap].
  - by rewrite app_nil_r.
  - rewrite IH. destruct t. cbn. by rewrite <- app_assoc.
Qed.

(** A reason whose first local entry is a value mismatch cannot be
    printed. *)
Lemma _tostring___mismatch str_ref t indent r v e l :
  ReasonTree.m_local t = _reason_value_mismatch__c r v e :: l →
  ReasonTree.m_count t ≠ 0%nat →
  ∃ x, _tostring__ str_ref t indent = Throws x.
Proof.
  destruct t as [m_ref m_local m_subs [|[|c]]]; cbn [ReasonTree.m_local ReasonTree.m_count];
    intros -> Hc; [done| |cbn; eauto].
  cbn [_tostring__]. destruct (str_ref m_ref); cbn; eauto.
Qed.

(** X27: the reason attached to the result of a composite constraint with
    at least one operand cannot be printed: whatever [str] gives for the
    objects it refers to, [str(reason)] raises. *)
Theorem reason_of_constraint_not_printable (str_ref : ref → outcome string)
    (cls : expkind) (content : list expr) (product : product_t) (idx : option nat)
    (expected : value) (r : _eval_result__c) (t : _reason_tree__c) :
  content ≠ [] →
  call (Op cls content) product idx expected = Ok r → m_reason r = Some t →
  ∃ x, reason_str str_ref t = Throws x.
Proof.
  intros Hne. rewrite call_Op.
  destruct (enum_mapM _ 0%nat content) as [results|] eqn:Hr; [|done]. cbn [mbind res_bind].
  destruct (_compute__ cls (m_value <$> results)) as [res|]; [|done]. cbn [mbind res_bind].
  destruct (py_eq res expected); intros [= <-]; cbn [m_reason]; [done|]. intros [= <-].
  apply enum_mapM_length in Hr.
  destruct content as [|el content]; [done|]. destruct results as [|r0 results]; [done|].
  unfold reason_str. eapply _tostring___mismatch.
  - unfold mismatch_reason. rewrite m_local_add_reason_subs, m_local_add_mismatch.
    cbn. reflexivity.
  - unfold mismatch_reason.
    pose proof (m_count_add_reason_subs m_reason (r0 :: results)
                  (foldl (fun reason '(el0, r1) =>
                            ReasonTree.add_reason_value_mismatch reason (RefExpr el0)
                              (of_result (m_value r1) (m_reason r1))
                              (_get_expected__ cls expected))
                     (ReasonTree.init (RefName (get_name cls)) idx)
                     (zip (el :: content) (r0 :: results)))) as Hle.
    rewrite m_count_add_mismatch in Hle. intros H0. rewrite H0 in Hle.
    cbn in Hle. lia.
Qed.

Lemma reason_of_constraint_not_printable_witness :
  ∃ x, reason_str (fun _ => Returns "TMP")
         (mismatch_reason K.Or None (VBool true) [Lit (VBool false)]
            [mk_eval_result (VBool false) None]) = Throws x.
Proof.
  apply (reason_of_constraint_not_printable (fun _ => Returns "TMP")
           K.Or [Lit (VBool false)] ∅ None (VBool true)
           (mk_eval_result (VBool false)
              (Some (mismatch_reason K.Or None (VBool true) [Lit (VBool false)]
                       [mk_eval_result (VBool false) None])))).
  - done.
  - reflexivity.
  - reflexivity.
Defined.

(** ** The count of a reason tree *)

Lemma well_counted_eq r l s c :
  well_counted (ReasonTree r l s c) ↔
  c = (length l + length s)%nat ∧
  Forall (fun sub => well_counted sub ∧ ReasonTree.m_count sub ≠ 0%nat) s.
Proof.
  cbn [well_counted]. apply and_iff_compat_l.
  induction s as [|sub s IH]; cbn [foldr].
  - split; [constructor|done].
  - rewrite Forall_cons, IH. tauto.
Qed.

Lemma well_counted_init r idx : well_counted (ReasonTree.init r idx).
Proof. apply well_counted_eq. split; [done|constructor]. Qed.

Lemma well_counted_add_local t x : well_counted t → well_counted (ReasonTree.add_local t x).
Proof.
  destruct t as [r l s c]. cbn [ReasonTree.add_local]. rewrite !well_counted_eq.
  intros [-> Hs]. split; [|done]. rewrite length_app. cbn. lia.
Qed.

Lemma well_counted_add_reason_sub t sub :
  well_counted t → counted sub → well_counted (ReasonTree.add_reason_sub t sub).
Proof.
  intros Ht Hsub. unfold ReasonTree.add_reason_sub. destruct sub as [x|]; [|done].
  destruct (ReasonTree.__bool__ x) eqn:Hx; [|done].
  destruct t as [r l s c]. apply well_counted_eq in Ht as [-> Hs]. apply well_counted_eq.
  split; [rewrite length_app; cbn; lia|]. apply Forall_app. split; [done|].
  constructor; [|done]. split; [by apply Hsub|].
  unfold ReasonTree.__bool__ in Hx. intros H0. by rewrite H0 in Hx.
Qed.

Lemma well_counted_add_reason_subs {A} (f : A → option _reason_tree__c) (l : list A) t :
  well_counted t → Forall (fun x => counted (f x)) l →
  well_counted (foldl (fun reason x => ReasonTree.add_reason_sub reason (f x)) t l).
Proof.
  intros Ht Hl. revert t Ht. induction Hl as [|x l Hx _ IH]; intros t Ht; [done|].
  cbn [foldl]. apply IH. by apply well_counted_add_reason_sub.
Qed.

Lemma well_counted_add_mismatches cls expected (l : list (expr * _eval_result__c)) t :
  well_counted t →
  well_counted
    (foldl (fun reason '(el, r) =>
              ReasonTree.add_reason_value_mismatch reason (RefExpr el)
                (of_result (m_value r) (m_reason r)) (_get_expected__ cls expected)) t l).
Proof.
  revert t. induction l as [|[el r] l IH]; intros t Ht; [done|]. cbn [foldl].
  apply IH. by apply well_counted_add_local.
Qed.

Lemma call_counted e product :
  ∀ idx expected r, call e product idx expected = Ok r → counted (m_reason r).
Proof.
  induction e as [k|v|cls content IH] using expr_ind'; intros idx expected r H.
  - cbn in H. destruct (is_empty _); injection H as <-; intros t [= <-].
    by cbn.
  - cbn in H. by injection H as <-.
  - rewrite call_Op in H.
    destruct (enum_mapM _ 0%nat content) as [results|] eqn:Hr; [|done].
    cbn [mbind res_bind] in H.
    destruct (_compute__ cls (m_value <$> results)) as [res|]; [|done].
    cbn [mbind res_bind] in H.
    destruct (py_eq res expected); injection H as <-; intros t [= <-].
    unfold mismatch_reason. apply well_counted_add_reason_subs.
    + apply well_counted_add_mismatches, well_counted_init.
    + apply enum_mapM_Forall2 in Hr. clear -IH Hr.
      induction Hr as [|el r content results [j Hr] _ IHr]; [constructor|].
      apply Forall_cons in IH as [Hel IH]. constructor; [by eapply Hel|by apply IHr].
Qed.

(** X28: the reason attached to the result of a constraint counts its
    entries: in the tree and in every sub-tree, [m_count] is the number of
    the local reasons and of the sub-trees, and no sub-tree is empty; so
    a reason is true exactly when it holds something. *)
Theorem call_reason_well_counted (e : expr) (product : product_t) (idx : option nat)
    (expected : value) (r : _eval_result__c) (t : _reason_tree__c) :
  call e product idx expected = Ok r → m_reason r = Some t → well_counted t.
Proof. intros H Ht. by eapply call_counted. Qed.

Lemma call_reason_well_counted_witness :
  well_counted
    (mismatch_reason K.Not None (VBool true) [Var (KStr "a")]
       [mk_eval_result VEmpty
          (Some (ReasonTree.add_reason_value_none
                   (ReasonTree.init (RefName "Var") (Some 0%nat)) (RefKey (KStr "a"))))]).
Proof.
  apply (call_reason_well_counted (Op K.Not [Var (KStr "a")]) ∅ None (VBool true)
           (mk_eval_result (VBool false)
              (Some (mismatch_reason K.Not None (VBool true) [Var (KStr "a")]
                 [mk_eval_result VEmpty
                    (Some (ReasonTree.add_reason_value_none
                             (ReasonTree.init (RefName "Var") (Some 0%nat))
                             (RefKey (KStr "a"))))])))).
  - reflexivity.
  - reflexivity.
Defined.

Lemma update_ref_well_counted updater :
  ∀ t, well_counted t → well_counted (ReasonTree.update_ref updater t).
Proof.
  fix IH 1. intros [r l s c]. cbn [ReasonTree.update_ref].
  rewrite !well_counted_eq, !length_fmap. intros [Hc Hs]. split; [done|]. clear Hc.
  induction s as [|sub s IHs]; [constructor|].
  apply Forall_cons in Hs as [[Hsub Hne] Hs]. cbn [fmap list_fmap]. constructor.
  - split; [by apply IH|]. by rewrite update_ref_count.
  - by apply IHs.
Qed.

Lemma _manage_attribute___counted self att product expected r :
  _manage_attribute__ self att product expected = Ok r → counted (m_reason r).
Proof.
  unfold _manage_attribute__. destruct (is_empty _).
  - destruct (truthy expected); intros [= <-] t [= <-]; by cbn.
  - destruct (spec_call _ _) as [b|]; [|done]. cbn [mbind res_bind].
    destruct (py_eq expected (VBool b)); intros [= <-] t [= <-]; by cbn.
Qed.

Lemma check_name_counted self product nvalue_sub snodes nvalue_local reason snodes' :
  check_name self product nvalue_sub snodes = (nvalue_local, reason, snodes') →
  counted reason.
Proof.
  unfold check_name. repeat case_match; intros [= <- <- <-] t [= <-]; by cbn.
Qed.

Lemma finish_reason_counted self nvalue_local expected verdict reason subs :
  counted reason → Forall counted subs →
  counted (finish_reason self nvalue_local expected verdict reason subs).
Proof.
  intros Hr Hsubs. unfold finish_reason.
  destruct (negb (py_eq nvalue_local expected) || negb verdict); [|done].
  intros t [= <-].
  apply (well_counted_add_reason_subs (fun x => x)); [|done].
  assert (Hbase : well_counted match reason with
                                | Some reason => reason
                                | None => ReasonTree.init (RefKey (KNode self)) (Some 0%nat)
                                end).
  { destruct reason as [t|]; [by apply Hr|apply well_counted_init]. }
  destruct (negb (py_eq nvalue_local expected)); [|done].
  by apply well_counted_add_local.
Qed.

Lemma _eval_generic___counted product f :
  ∀ expected r, _eval_generic__ f product expected = Ok r → counted (fd_reason r).
Proof.
  induction f as [cls self n content ctcs atts IH] using _fd__c_ind'.
  intros expected r. rewrite _eval_generic___eq. cbv zeta.
  destruct (enum_mapM _ _ content) as [rcs|] eqn:Hc; [|done].
  destruct (enum_mapM _ _ atts) as [ras|] eqn:Ha; [|done].
  destruct (enum_mapM _ _ ctcs) as [rks|] eqn:Hk; [|done]. cbn [mbind res_bind].
  destruct (match n with
            | Some _ => check_name _ _ _ _
            | None => _
            end) as [[nvalue_local reason] snodes] eqn:Hname.
  intros [= <-]. cbn [fd_reason]. apply finish_reason_counted.
  - destruct n; [by eapply check_name_counted|]. by injection Hname as <- <- <-.
  - rewrite !Forall_app. split; [|split].
    + apply enum_mapM_Forall2 in Hc. clear -IH Hc.
      induction Hc as [|c rc content rcs [j Hrc] _ IHc]; [constructor|].
      apply Forall_cons in IH as [Hhd IH]. cbn [fmap list_fmap].
      constructor; [by eapply Hhd|by apply IHc].
    + apply enum_mapM_Forall2 in Ha. clear -Ha.
      induction Ha as [|a ra atts ras [j Hra] _ IHa]; [constructor|].
      cbn [fmap list_fmap]. constructor; [by eapply _manage_attribute___counted|done].
    + apply enum_mapM_Forall2 in Hk. clear -Hk.
      induction Hk as [|k rk ctcs rks [j Hrk] _ IHk]; [constructor|].
      cbn [fmap list_fmap]. constructor; [by eapply call_counted|done].
Qed.

(** X29: the reason attached to the result of the evaluation of a model
    counts its entries, in the tree and in every sub-tree, and has no empty
    sub-tree, also after its references are replaced by paths. *)
Theorem fm_call_reason_well_counted (fm : fm_t) (product : product_t) (expected : value)
    (r : _eval_result_fd__c) (t : _reason_tree__c) :
  fm_call fm product expected = Ok r → fd_reason r = Some t → well_counted t.
Proof.
  unfold fm_call. destruct (m_dom fm) as [dom|]; [|done].
  destruct (_eval_generic__ _ _ _) as [r0|] eqn:Hr; [|done]. cbn [mbind res_bind].
  apply _eval_generic___counted in Hr.
  destruct (fd_reason r0) as [t0|] eqn:Ht0.
  - destruct (ReasonTree.__bool__ t0).
    + intros [= <-] [= <-]. by apply update_ref_well_counted, Hr.
    + intros [= <-] Ht. apply Hr. congruence.
  - intros [= <-] Ht. congruence.
Qed.

Lemma fm_call_reason_well_counted_witness :
  well_counted
    (default (ReasonTree.init (RefName EmptyString) None)
       (match fm_call (checked leaf_fm) {[ KNode 0 := VBool false ]} (VBool true) with
        | Ok r => fd_reason r
        | Raise _ => None
        end)).
Proof.
  apply (fm_call_reason_well_counted (checked leaf_fm) {[ KNode 0 := VBool false ]}
           (VBool true)
           (match fm_call (checked leaf_fm) {[ KNode 0 := VBool false ]} (VBool true) with
            | Ok r => r
            | Raise _ => mk_eval_result_fd VEmpty None VEmpty []
            end)).
  - reflexivity.
  - reflexivity.
Defined.
